(** * Earthquake / tsunami on-air dashboard: a shallow embedding of [script.js]

    The development follows the four core components of the script:
    - KanaLookup            [katakanaToHiragana], [getKana]
    - MunicipalityResolver  [getMunicipality]
    - EventAggregator       the body of [fetchEarthquakeData] after the
                            network fetches, [digestMessage] and
                            [processEarthquake]
    - PaginationEngine      the page-splitting loop of [updateFixedShindoBar]

    Further parts of the script follow these: the tsunami observations and
    badges of [processEarthquake], the intensity tables and
    [groupPointsByShindoAndMode], the maintenance of the override table,
    the tsunami pages of the fixed bar, the page cycle of [startAutoplay],
    the change test of [refreshData], the queue of early warnings and
    [buildKanaDictionary].

    JavaScript strings are sequences of UTF-16 code units; they are modelled
    as [list N] so that [length], [substring], [indexOf] and the regular
    expression dot count what the script counts. *)

From Stdlib Require Import ZArith NArith QArith List Bool Lia String Ascii.
From Stdlib Require Import Sorting.Permutation Sorting.Sorted.
From stdpp Require Import base option list sorting gmap.

Local Open Scope N_scope.

(* ===================================================================== *)
(** * JavaScript strings *)
(* ===================================================================== *)

Module JsString.

(** A JavaScript string: its UTF-16 code units. *)
Abbreviation jsstring := (list N).

(** ** Literals

    String literals of the script are written here as UTF-8 text and
    converted to code units by [u16]. *)

Definition bytes_of_string (s : string) : list N :=
  map (fun c => N_of_ascii c) (list_ascii_of_string s).

Definition cont (b : N) : N := N.land b 0x3F.

Fixpoint code_points (bs : list N) : list N :=
  match bs with
  | [] => []
  | b0 :: t0 =>
      if b0 <? 0x80 then b0 :: code_points t0
      else if b0 <? 0xE0 then
        match t0 with
        | b1 :: t1 =>
            N.lor (N.shiftl (N.land b0 0x1F) 6) (cont b1) :: code_points t1
        | _ => [0xFFFD]
        end
      else if b0 <? 0xF0 then
        match t0 with
        | b1 :: b2 :: t2 =>
            N.lor (N.shiftl (N.land b0 0x0F) 12)
                  (N.lor (N.shiftl (cont b1) 6) (cont b2)) :: code_points t2
        | _ => [0xFFFD]
        end
      else
        match t0 with
        | b1 :: b2 :: b3 :: t3 =>
            N.lor (N.shiftl (N.land b0 0x07) 18)
                  (N.lor (N.shiftl (cont b1) 12)
                         (N.lor (N.shiftl (cont b2) 6) (cont b3)))
              :: code_points t3
        | _ => [0xFFFD]
        end
  end.

Definition units_of_code_point (cp : N) : list N :=
  if cp <? 0x10000 then [cp]
  else let v := cp - 0x10000 in
       [0xD800 + N.shiftr v 10; 0xDC00 + N.land v 0x3FF].

Definition u16 (s : string) : jsstring :=
  flat_map units_of_code_point (code_points (bytes_of_string s)).

(** ** String primitives used by the script *)

(** [s.startsWith(p)] *)
Fixpoint startsWith (s p : jsstring) : bool :=
  match p, s with
  | [], _ => true
  | _ :: _, [] => false
  | c :: p', d :: s' => (c =? d) && startsWith s' p'
  end.

(** [s.indexOf(p)], [None] standing for -1. *)
Fixpoint indexOf (s p : jsstring) : option nat :=
  if startsWith s p then Some 0%nat
  else match s with
       | [] => None
       | _ :: s' => S <$> indexOf s' p
       end.

(** [s.includes(p)] *)
Definition includes (s p : jsstring) : bool :=
  match indexOf s p with Some _ => true | None => false end.

(** [s.endsWith(p)] *)
Definition endsWith (s p : jsstring) : bool :=
  startsWith (rev s) (rev p).

(** [s.substring(n)] for [0 <= n]. *)
Definition substring (n : nat) (s : jsstring) : jsstring := drop n s.

(** [s.split(sep)] for a one-unit separator: always at least one part. *)
Fixpoint split (sep : N) (s : jsstring) : list jsstring :=
  match s with
  | [] => [[]]
  | c :: s' =>
      if c =? sep then [] :: split sep s'
      else match split sep s' with
           | [] => [[c]]
           | p :: ps => (c :: p) :: ps
           end
  end.

(** [parts.join(sep)] *)
Fixpoint join (sep : jsstring) (parts : list jsstring) : jsstring :=
  match parts with
  | [] => []
  | [p] => p
  | p :: ps => p ++ sep ++ join sep ps
  end.

(** Truthiness of a string value: only the empty string is falsy. *)
Definition truthy (s : jsstring) : bool :=
  match s with [] => false | _ => true end.

(** [a || b] on strings. *)
Definition or_else (a b : jsstring) : jsstring :=
  if truthy a then a else b.

Definition underscore : N := 0x5F.
Definition space : N := 0x20.
Definition dquote : N := 0x22.

(** The template literal [`${a}_${b}`]. *)
Definition underscored (a b : jsstring) : jsstring :=
  a ++ [underscore] ++ b.

(** [Array.prototype.find] *)
Fixpoint js_find {A} (p : A -> bool) (l : list A) : option A :=
  match l with
  | [] => None
  | x :: l' => if p x then Some x else js_find p l'
  end.

End JsString.

Import JsString.
Arguments u16 _%_string.

(** A call that may end in a [TypeError]. *)
Inductive result (A : Type) : Type :=
| Ok (a : A)
| Throw.
Arguments Ok {A} a.
Arguments Throw {A}.

#[global] Instance result_bind : MBind result := fun A B k r =>
  match r with
  | Ok a => k a
  | Throw => Throw
  end.

#[global] Instance result_ret : MRet result := fun A a => Ok a.

#[global] Instance result_fmap : FMap result := fun A B f r =>
  match r with
  | Ok a => Ok (f a)
  | Throw => Throw
  end.

(* ===================================================================== *)
(** * Regular expressions of the script

    Each pattern is embedded as the backtracking matcher it denotes: a
    matcher takes the remaining input and returns the text it matched.
    Patterns are composed by passing the rest of the pattern as the
    continuation [k]. *)
(* ===================================================================== *)

Module Regex.

Definition matcher := jsstring -> option jsstring.

(** Units the dot does not match (no [s] flag): LF, CR, LS, PS. *)
Definition isLineTerminator (c : N) : bool :=
  (c =? 0x0A) || (c =? 0x0D) || (c =? 0x2028) || (c =? 0x2029).

(** End of the pattern. *)
Definition accept : matcher := fun _ => Some [].

(** One of the literal units [xs] (a literal, or an alternation of
    one-unit literals such as [(町|村)]), then [k]. *)
Definition oneOf (xs : list N) (k : matcher) : matcher := fun s =>
  match s with
  | c :: s' => if existsb (N.eqb c) xs then cons c <$> k s' else None
  | [] => None
  end.

(** [.+?] then [k]: consume one unit the dot accepts, try [k], and only
    when [k] fails consume one more. *)
Fixpoint lazyDotPlus (k : matcher) (s : jsstring) : option jsstring :=
  match s with
  | [] => None
  | c :: s' =>
      if isLineTerminator c then None
      else match k s' with
           | Some m => Some (c :: m)
           | None => cons c <$> lazyDotPlus k s'
           end
  end.

Definition shi : N := 0x5E02.    (* 市 *)
Definition ku : N := 0x533A.     (* 区 *)
Definition gun : N := 0x90E1.    (* 郡 *)
Definition machi : N := 0x753A.  (* 町 *)
Definition mura : N := 0x6751.   (* 村 *)
Definition ken : N := 0x770C.    (* 県 *)
Definition lparen : N := 0xFF08. (* （ *)
Definition rparen : N := 0xFF09. (* ） *)

(** [/^.+?市.+?区/] *)
Definition cityAndWardRe : matcher :=
  lazyDotPlus (oneOf [shi] (lazyDotPlus (oneOf [ku] accept))).

(** [/^.+?郡.+?(町|村)/] *)
Definition gunRe : matcher :=
  lazyDotPlus (oneOf [gun] (lazyDotPlus (oneOf [machi; mura] accept))).

(** [/^.+?(市|区|町|村)/] *)
Definition cityTownVillageRe : matcher :=
  lazyDotPlus (oneOf [shi; ku; machi; mura] accept).

(** [/（.+?）/] tried at the start of the input. *)
Definition parenRe : matcher :=
  oneOf [lparen] (lazyDotPlus (oneOf [rparen] accept)).

(** [s.replace(/（.+?）/g, '')]: scan left to right; where the pattern
    matches, drop the matched text and go on behind it. [skip] counts the
    units of the current match still to be dropped. *)
Fixpoint removeParens (skip : nat) (s : jsstring) : jsstring :=
  match s with
  | [] => []
  | c :: s' =>
      match skip with
      | S n => removeParens n s'
      | O =>
          match parenRe s with
          | Some m => removeParens (length m - 1) s'
          | None => c :: removeParens 0 s'
          end
      end
  end.

Definition replaceParens (s : jsstring) : jsstring := removeParens 0 s.

End Regex.

(* ===================================================================== *)
(** * KanaLookup *)
(* ===================================================================== *)

Module Kana.

(** [KANA_DICT]: the own properties of the dictionary object in the order
    [Object.keys] enumerates them, the first binding of a key being the
    property. *)
Abbreviation dictionary := (list (jsstring * jsstring)).

(** [Object.keys(KANA_DICT)] *)
Definition keys (KANA_DICT : dictionary) : list jsstring := map fst KANA_DICT.

Fixpoint ownProperty (KANA_DICT : dictionary) (key : jsstring)
  : option jsstring :=
  match KANA_DICT with
  | [] => None
  | (k, v) :: rest =>
      if bool_decide (k = key) then Some v else ownProperty rest key
  end.

(** The properties every object literal inherits from [Object.prototype];
    each is a function, and [__proto__] is the prototype object. *)
Definition objectPrototypeNames : list jsstring :=
  map u16 [ "constructor"; "hasOwnProperty"; "isPrototypeOf";
            "propertyIsEnumerable"; "toLocaleString"; "toString";
            "valueOf"; "__defineGetter__"; "__defineSetter__";
            "__lookupGetter__"; "__lookupSetter__"; "__proto__" ]%string.

(** What [KANA_DICT[name]] evaluates to. *)
Inductive property :=
| Undefined
| Str (s : jsstring)
| Inherited.

Definition getProperty (KANA_DICT : dictionary) (name : jsstring) : property :=
  match ownProperty KANA_DICT name with
  | Some v => Str v
  | None =>
      if bool_decide (name ∈ objectPrototypeNames) then Inherited
      else Undefined
  end.

Definition truthyProperty (p : property) : bool :=
  match p with
  | Undefined => false
  | Str s => truthy s
  | Inherited => true
  end.

(** [katakanaToHiragana] on a string: every unit in U+30A1..U+30F6 is
    moved down by 0x60. *)
Definition shiftKatakana (c : N) : N :=
  if (0x30A1 <=? c) && (c <=? 0x30F6) then c - 0x60 else c.

(** [katakanaToHiragana(str)]; a value without a [replace] method makes
    the call throw. *)
Definition katakanaToHiragana (str : property) : result jsstring :=
  if negb (truthyProperty str) then Ok []
  else match str with
       | Str s => Ok (map shiftKatakana s)
       | _ => Throw
       end.

(** [MANUAL_KANA_DICT]: string keys, string values. *)
Abbreviation overrides := (gmap jsstring jsstring).

(** [parts.length > 1 ? parts[1] : parts[0]] for [kanji.split('_')] *)
Definition municipalityOf (kanji : jsstring) : jsstring :=
  let parts := split underscore kanji in
  if (1 <? length parts)%nat then nth 1 parts [] else nth 0 parts [].

(** [getKana(kanji)] *)
Definition getKana (MANUAL_KANA_DICT : overrides) (KANA_DICT : dictionary)
  (kanji : jsstring) : result jsstring :=
  if negb (truthy kanji) then Ok []
  else
    (* MANUAL_KANA_DICT.hasOwnProperty: an own entry of that name is a
       string and shadows the inherited method *)
    if bool_decide (is_Some (MANUAL_KANA_DICT !! u16 "hasOwnProperty"))
    then Throw
    else
      match MANUAL_KANA_DICT !! kanji with
      | Some v => Ok v
      | None =>
          let municipality := municipalityOf kanji in
          let first := getProperty KANA_DICT municipality in
          let kana :=
            if truthyProperty first then first
            else
              let second :=
                getProperty KANA_DICT (Regex.replaceParens municipality) in
              if truthyProperty second then second else Str []
          in
          katakanaToHiragana kana
      end.

End Kana.

(* ===================================================================== *)
(** * MunicipalityResolver *)
(* ===================================================================== *)

Module Municipality.

Import Kana.

(** [keys.sort((a, b) => b.length - a.length)]: longest first, keys of
    equal length keep their order (the sort is stable). *)
Fixpoint insertByLength (x : jsstring) (l : list jsstring) : list jsstring :=
  match l with
  | [] => [x]
  | y :: l' =>
      if (length x <? length y)%nat then y :: insertByLength x l'
      else x :: y :: l'
  end.

Definition sortByLengthDesc (l : list jsstring) : list jsstring :=
  foldr insertByLength [] l.

(** The order the sort establishes. *)
Definition longer (a b : jsstring) : Prop := (length b <= length a)%nat.

(** The predicate of the first [find]: the key occurs in the address, as
    its end or followed by a space. *)
Definition directHit (addr key : jsstring) : bool :=
  includes addr key && (endsWith addr key || includes addr (key ++ [space])).

(** The four prefecture names that do not end in 県. *)
Definition prefs : list jsstring :=
  map u16 ["東京都"; "北海道"; "京都府"; "大阪府"]%string.

(** Step 1 of the function: the address without its prefecture. *)
Definition stripPrefecture (addr pref : jsstring) : jsstring :=
  if startsWith addr pref then substring (length pref) addr
  else
    let remainingAddr :=
      fold_left (fun r p => if startsWith r p then substring (length p) r
                            else r) prefs addr in
    match indexOf remainingAddr [Regex.ken] with
    | Some prefIndex => substring (prefIndex + 1) remainingAddr
    | None => remainingAddr
    end.

(** A [find] result used as a condition: [undefined] and the empty string
    are both falsy. *)
Definition found (r : option jsstring) : option jsstring :=
  match r with
  | Some k => if truthy k then Some k else None
  | None => None
  end.

Definition directMatch (KANA_DICT : dictionary) (addr : jsstring)
  : option jsstring :=
  js_find (directHit addr) (keys KANA_DICT).

Definition forwardMatch (KANA_DICT : dictionary) (remainingAddr : jsstring)
  : option jsstring :=
  js_find (fun key => startsWith remainingAddr key)
          (sortByLengthDesc (keys KANA_DICT)).

(** [getMunicipality(addr, pref)] *)
Definition getMunicipality (KANA_DICT : dictionary) (addr pref : jsstring)
  : jsstring :=
  if negb (truthy addr) || negb (truthy pref)
  then underscored (or_else pref (u16 "不明")) (or_else addr (u16 "観測点名不明"))
  else
    match found (directMatch KANA_DICT addr) with
    | Some key => underscored pref key
    | None =>
        let remainingAddr := stripPrefecture addr pref in
        match Regex.cityAndWardRe remainingAddr with
        | Some m => underscored pref m
        | None =>
            match Regex.gunRe remainingAddr with
            | Some m => underscored pref m
            | None =>
                match found (forwardMatch KANA_DICT remainingAddr) with
                | Some key => underscored pref key
                | None =>
                    match Regex.cityTownVillageRe remainingAddr with
                    | Some m => underscored pref m
                    | None => underscored pref addr
                    end
                end
            end
        end
    end.

(** None of the ordered heuristics of [getMunicipality] gives a result:
    no dictionary key found in the address, none of the three patterns
    matching the address without its prefecture, no dictionary key
    starting it. *)
Definition noHeuristicMatches (KANA_DICT : dictionary) (addr pref : jsstring)
  : Prop :=
  found (directMatch KANA_DICT addr) = None
  ∧ Regex.cityAndWardRe (stripPrefecture addr pref) = None
  ∧ Regex.gunRe (stripPrefecture addr pref) = None
  ∧ found (forwardMatch KANA_DICT (stripPrefecture addr pref)) = None
  ∧ Regex.cityTownVillageRe (stripPrefecture addr pref) = None.

End Municipality.

(* ===================================================================== *)
(** * SHA-256 and [digestMessage] *)
(* ===================================================================== *)

(** [crypto.subtle.digest('SHA-256', bytes)] is the browser's; it is
    written out here after FIPS 180-4 so that ids can be computed. *)
Module SHA256.

Definition mask32 : N := 0xFFFFFFFF.
Definition add32 (a b : N) : N := N.land (a + b) mask32.
Definition rotr (n x : N) : N :=
  N.lor (N.shiftr x n) (N.land (N.shiftl x (32 - n)) mask32).
Definition not32 (x : N) : N := N.lxor x mask32.

Definition Ch (x y z : N) : N :=
  N.lxor (N.land x y) (N.land (not32 x) z).
Definition Maj (x y z : N) : N :=
  N.lxor (N.lxor (N.land x y) (N.land x z)) (N.land y z).
Definition Sigma0 (x : N) : N :=
  N.lxor (N.lxor (rotr 2 x) (rotr 13 x)) (rotr 22 x).
Definition Sigma1 (x : N) : N :=
  N.lxor (N.lxor (rotr 6 x) (rotr 11 x)) (rotr 25 x).
Definition sigma0 (x : N) : N :=
  N.lxor (N.lxor (rotr 7 x) (rotr 18 x)) (N.shiftr x 3).
Definition sigma1 (x : N) : N :=
  N.lxor (N.lxor (rotr 17 x) (rotr 19 x)) (N.shiftr x 10).

(** The constants of the standard are fractional parts of roots of the
    first primes; they are computed rather than tabulated. *)
Definition isPrime (n : nat) : bool :=
  (1 <? n)%nat
  && forallb (fun d => negb (n mod d =? 0)%nat) (seq 2 (n - 2)).

Definition firstPrimes (n : nat) : list N :=
  map N.of_nat (take n (List.filter isPrime (seq 2 310))).

(** The integer cube root below [2 ^ bits], found bit by bit. *)
Fixpoint cubeRoot (bits : nat) (n r : N) : N :=
  match bits with
  | O => r
  | S b =>
      let r' := r + N.shiftl 1 (N.of_nat b) in
      cubeRoot b n (if r' * r' * r' <=? n then r' else r)
  end.

(** The first 32 bits of the fractional part of the cube root of [p]. *)
Definition fracCubeRoot (p : N) : N :=
  N.land (cubeRoot 36 (N.shiftl p 96) 0) mask32.

(** The first 32 bits of the fractional part of the square root of [p]. *)
Definition fracSquareRoot (p : N) : N :=
  N.land (N.sqrt (N.shiftl p 64)) mask32.

Definition K : list N :=
  Eval vm_compute in map fracCubeRoot (firstPrimes 64).

(** The eight working variables, also the intermediate hash value. *)
Record state := mkState {
  va : N; vb : N; vc : N; vd : N; ve : N; vf : N; vg : N; vh : N
}.

Definition H0 : state :=
  Eval vm_compute in
    match map fracSquareRoot (firstPrimes 8) with
    | [a; b; c; d; e; f; g; h] => mkState a b c d e f g h
    | _ => mkState 0 0 0 0 0 0 0 0
    end.

(** Big-endian bytes of a word of [n] bytes. *)
Fixpoint be_bytes (n : nat) (x : N) : list N :=
  match n with
  | O => []
  | S n' => N.land (N.shiftr x (8 * N.of_nat n')) 0xFF :: be_bytes n' x
  end.

Definition be_word (bs : list N) : N :=
  fold_left (fun acc b => N.lor (N.shiftl acc 8) b) bs 0.

(** Padding: a one bit, zeros up to 56 modulo 64, the bit length. *)
Definition pad (msg : list N) : list N :=
  let len := length msg in
  let zeros := ((64 - (len + 9) mod 64) mod 64)%nat in
  msg ++ [0x80] ++ repeat 0 zeros ++ be_bytes 8 (8 * N.of_nat len).

(** The sixteen words of a block. *)
Fixpoint words (n : nat) (block : list N) : list N :=
  match n with
  | O => []
  | S n' => be_word (take 4 block) :: words n' (drop 4 block)
  end.

(** The message schedule, extended by [n] words. *)
Fixpoint schedule (n : nat) (w : list N) : list N :=
  match n with
  | O => w
  | S n' =>
      let t := length w in
      let at_ i := nth (t - i) w 0 in
      schedule n'
        (w ++ [add32 (add32 (sigma1 (at_ 2%nat)) (at_ 7%nat))
                     (add32 (sigma0 (at_ 15%nat)) (at_ 16%nat))])
  end.

Definition round (s : state) (kw : N * N) : state :=
  let '(k, w) := kw in
  let t1 := add32 (add32 (add32 (vh s) (Sigma1 (ve s)))
                         (add32 (Ch (ve s) (vf s) (vg s)) k)) w in
  let t2 := add32 (Sigma0 (va s)) (Maj (va s) (vb s) (vc s)) in
  mkState (add32 t1 t2) (va s) (vb s) (vc s)
          (add32 (vd s) t1) (ve s) (vf s) (vg s).

Definition compress (h : state) (block : list N) : state :=
  let w := schedule 48 (words 16 block) in
  let s := fold_left round (combine K w) h in
  mkState (add32 (va h) (va s)) (add32 (vb h) (vb s))
          (add32 (vc h) (vc s)) (add32 (vd h) (vd s))
          (add32 (ve h) (ve s)) (add32 (vf h) (vf s))
          (add32 (vg h) (vg s)) (add32 (vh h) (vh s)).

(** [n] blocks of the padded message, in order. *)
Fixpoint blocks (n : nat) (bs : list N) (h : state) : state :=
  match n with
  | O => h
  | S n' => blocks n' (drop 64 bs) (compress h (take 64 bs))
  end.

Definition digest (msg : list N) : list N :=
  let padded := pad msg in
  let h := blocks (length padded / 64) padded H0 in
  flat_map (be_bytes 4)
           [va h; vb h; vc h; vd h; ve h; vf h; vg h; vh h].

End SHA256.

Module Digest.

(** UTF-8 bytes of one code point. *)
Definition utf8_of_code_point (cp : N) : list N :=
  if cp <? 0x80 then [cp]
  else if cp <? 0x800 then
    [N.lor 0xC0 (N.shiftr cp 6); N.lor 0x80 (N.land cp 0x3F)]
  else if cp <? 0x10000 then
    [N.lor 0xE0 (N.shiftr cp 12);
     N.lor 0x80 (N.land (N.shiftr cp 6) 0x3F);
     N.lor 0x80 (N.land cp 0x3F)]
  else
    [N.lor 0xF0 (N.shiftr cp 18);
     N.lor 0x80 (N.land (N.shiftr cp 12) 0x3F);
     N.lor 0x80 (N.land (N.shiftr cp 6) 0x3F);
     N.lor 0x80 (N.land cp 0x3F)].

Definition isHighSurrogate (c : N) : bool := (0xD800 <=? c) && (c <=? 0xDBFF).
Definition isLowSurrogate (c : N) : bool := (0xDC00 <=? c) && (c <=? 0xDFFF).

(** [new TextEncoder().encode(message)]: surrogate pairs are combined, a
    lone surrogate becomes U+FFFD. *)
Fixpoint textEncode (message : jsstring) : list N :=
  match message with
  | [] => []
  | c :: rest =>
      if isHighSurrogate c then
        match rest with
        | d :: rest' =>
            if isLowSurrogate d
            then utf8_of_code_point
                   (0x10000 + N.shiftl (c - 0xD800) 10 + (d - 0xDC00))
                   ++ textEncode rest'
            else utf8_of_code_point 0xFFFD ++ textEncode rest
        | [] => utf8_of_code_point 0xFFFD
        end
      else if isLowSurrogate c
      then utf8_of_code_point 0xFFFD ++ textEncode rest
      else utf8_of_code_point c ++ textEncode rest
  end.

Definition hexDigit (d : N) : N :=
  if d <? 10 then 0x30 + d else 0x61 + (d - 10).

(** [b.toString(16)] with as many digits as [b] needs, at most [n]. *)
Fixpoint toHex (n : nat) (b : N) : jsstring :=
  match n with
  | O => []
  | S n' =>
      if b <? 16 then [hexDigit b]
      else toHex n' (b / 16) ++ [hexDigit (b mod 16)]
  end.

(** [s.padStart(2, '0')] *)
Definition padStart2 (s : jsstring) : jsstring :=
  repeat 0x30 (2 - length s) ++ s.

(** [b.toString(16).padStart(2, '0')] for an element of a [Uint8Array]. *)
Definition hexByte (b : N) : jsstring := padStart2 (toHex 2 b).

(** [digestMessage(message)] *)
Definition digestMessage (message : jsstring) : jsstring :=
  let msgUint8 := textEncode message in
  let hashArray := SHA256.digest msgUint8 in
  concat (map hexByte hashArray).

(** The digits of lowercase hexadecimal. *)
Definition isLowerHex (c : N) : bool :=
  ((0x30 <=? c) && (c <=? 0x39)) || ((0x61 <=? c) && (c <=? 0x66)).

(** A byte written as two lowercase hexadecimal digits. *)
Definition twoHexDigits (b : N) : bool :=
  bool_decide (length (hexByte b) = 2%nat) && forallb isLowerHex (hexByte b).

(** ** Reading an id back

    The inverse directions, written from the formats: two lowercase
    hexadecimal digits per byte, UTF-8 after RFC 3629, and the scalar
    values of a string of code units. *)

(** The value of a lowercase hexadecimal digit. *)
Definition hexValue (c : N) : option N :=
  if (0x30 <=? c) && (c <=? 0x39) then Some (c - 0x30)
  else if (0x61 <=? c) && (c <=? 0x66) then Some (c - 0x61 + 10)
  else None.

(** The bytes a text of two-digit groups denotes. *)
Fixpoint fromHex (s : jsstring) : option (list N) :=
  match s with
  | [] => Some []
  | [_] => None
  | hi :: lo :: rest =>
      match hexValue hi, hexValue lo, fromHex rest with
      | Some h, Some l, Some bytes => Some (16 * h + l :: bytes)
      | _, _, _ => None
      end
  end.

Definition isContinuation (b : N) : bool := (0x80 <=? b) && (b <? 0xC0).

(** The code point at the head of a UTF-8 text, and the rest of the
    text. *)
Definition decodeOne (bytes : list N) : option (N * list N) :=
  match bytes with
  | [] => None
  | b0 :: r0 =>
      if b0 <? 0x80 then Some (b0, r0)
      else if b0 <? 0xC0 then None
      else if b0 <? 0xE0 then
        match r0 with
        | b1 :: r1 =>
            if isContinuation b1
            then Some (64 * (b0 - 0xC0) + (b1 - 0x80), r1)
            else None
        | _ => None
        end
      else if b0 <? 0xF0 then
        match r0 with
        | b1 :: b2 :: r2 =>
            if isContinuation b1 && isContinuation b2
            then Some (4096 * (b0 - 0xE0) + 64 * (b1 - 0x80) + (b2 - 0x80),
                       r2)
            else None
        | _ => None
        end
      else if b0 <? 0xF8 then
        match r0 with
        | b1 :: b2 :: b3 :: r3 =>
            if isContinuation b1 && isContinuation b2 && isContinuation b3
            then Some (262144 * (b0 - 0xF0) + 4096 * (b1 - 0x80)
                       + 64 * (b2 - 0x80) + (b3 - 0x80), r3)
            else None
        | _ => None
        end
      else None
  end.

(** The code points of a UTF-8 text; [fuel] bounds their number. *)
Fixpoint utf8Decode (fuel : nat) (bytes : list N) : option (list N) :=
  match bytes, fuel with
  | [], _ => Some []
  | _ :: _, O => None
  | _ :: _, S fuel' =>
      match decodeOne bytes with
      | Some (cp, rest) => cons cp <$> utf8Decode fuel' rest
      | None => None
      end
  end.

Definition textDecode (bytes : list N) : option (list N) :=
  utf8Decode (length bytes) bytes.

(** The scalar values of a string: a surrogate pair is one code point, a
    surrogate without its partner is U+FFFD, every other unit is itself. *)
Fixpoint scalarValues (s : jsstring) : list N :=
  match s with
  | [] => []
  | c :: rest =>
      if isHighSurrogate c then
        match rest with
        | d :: rest' =>
            if isLowSurrogate d
            then 0x10000 + 1024 * (c - 0xD800) + (d - 0xDC00)
                 :: scalarValues rest'
            else 0xFFFD :: scalarValues rest
        | [] => [0xFFFD]
        end
      else if isLowSurrogate c then 0xFFFD :: scalarValues rest
      else c :: scalarValues rest
  end.

(** A string of 16-bit units without surrogates. *)
Definition isPlainUnit (c : N) : bool :=
  (c <? 0x10000) && negb (isHighSurrogate c) && negb (isLowSurrogate c).

End Digest.

(* ===================================================================== *)
(** * EventAggregator *)
(* ===================================================================== *)

Module Aggregator.

(** ** Upstream reports *)

(** [forecast.grade], by what [forecastsByGrade[forecast.grade]] is: one
    of the three [Set]s of the object; for [InheritedGrade], a value that
    names a property the object inherits from [Object.prototype], such as
    "constructor" or "toString", a function or the prototype itself, which
    is truthy and has no method [add]; for [OtherGrade], any other value,
    such as "Unknown", [undefined]. *)
Inductive Grade :=
| MajorWarning
| Warning
| Advisory
| InheritedGrade
| OtherGrade.

#[global] Instance Grade_eq_dec : EqDecision Grade.
Proof. solve_decision. Defined.

(** One element of [info.tsunami.forecasts], with its [area] object;
    [area_name] is [forecast.area.name], the empty string when the name
    is absent. *)
Record Forecast := mkForecast {
  grade : Grade;
  area_name : jsstring
}.

(** A report of code 552. [event_id] is
    [String(info.issue.event_id || info.issue.eventid)]; [forecasts] is
    absent when [info.tsunami] or [info.tsunami.forecasts] is. *)
Record TsunamiInfo := mkTsunamiInfo {
  ti_event_id : jsstring;
  ti_forecasts : option (list Forecast)
}.

(** [hypocenter.magnitude]: [null], absent, or a number (in tenths). *)
Inductive Magnitude := MagNull | MagUndefined | MagNumber (tenths : Z).

#[global] Instance Magnitude_eq_dec : EqDecision Magnitude.
Proof. solve_decision. Defined.

Record Hypocenter := mkHypocenter {
  name : jsstring;
  magnitude : Magnitude;
  depth : Z
}.

(** [eq.earthquake]. An absent [time] or [name] is the empty string (both
    are falsy); [maxScale] is [None] when it is not a number. *)
Record Earthquake := mkEarthquake {
  time : jsstring;
  hypocenter : option Hypocenter;
  maxScale : option Z;
  domesticTsunami : jsstring
}.

Record Point := mkPoint {
  pref : jsstring;
  addr : jsstring;
  scale : Z;
  isArea : bool
}.

(** A report of code 551, with its [issue] and [earthquake] objects.
    [event_id] is [String(issue.event_id || issue.eventid)]. [points] is
    [None] when the field is absent or [null]; an array, even an empty
    one, is truthy. *)
Record Quake := mkQuake {
  event_id : jsstring;
  earthquake : Earthquake;
  points : option (list Point)
}.

Inductive RawReport :=
| Intensity (eq : Quake)               (* code 551 *)
| TsunamiForecast (info : TsunamiInfo) (* code 552 *)
| OtherReport (code : N).              (* 554, 556, ... *)

(** ** Tsunami forecasts (552) *)

(** A [Set] of strings: no duplicates, insertion order. *)
Definition setAdd (x : jsstring) (s : list jsstring) : list jsstring :=
  if bool_decide (x ∈ s) then s else s ++ [x].

Record ForecastsByGrade := mkForecastsByGrade {
  areasMajorWarning : list jsstring;
  areasWarning : list jsstring;
  areasAdvisory : list jsstring
}.

Definition emptyForecasts : ForecastsByGrade := mkForecastsByGrade [] [] [].

(** The [Set] under the own key [g] of [forecastsByGrade]: [None] where
    the object has no own key [g]. *)
Definition areasOf (f : ForecastsByGrade) (g : Grade)
  : option (list jsstring) :=
  match g with
  | MajorWarning => Some (areasMajorWarning f)
  | Warning => Some (areasWarning f)
  | Advisory => Some (areasAdvisory f)
  | InheritedGrade | OtherGrade => None
  end.

(** The body of [info.tsunami.forecasts.forEach]:
    [if (forecastsByGrade[forecast.grade] && forecast.area.name)
       forecastsByGrade[forecast.grade].add(forecast.area.name)].
    For an inherited property the test passes and the call of [add],
    which is [undefined], throws. *)
Definition addForecast (f : ForecastsByGrade) (forecast : Forecast)
  : result ForecastsByGrade :=
  if truthy (area_name forecast) then
    match grade forecast with
    | MajorWarning =>
        Ok (mkForecastsByGrade
              (setAdd (area_name forecast) (areasMajorWarning f))
              (areasWarning f) (areasAdvisory f))
    | Warning =>
        Ok (mkForecastsByGrade
              (areasMajorWarning f)
              (setAdd (area_name forecast) (areasWarning f))
              (areasAdvisory f))
    | Advisory =>
        Ok (mkForecastsByGrade
              (areasMajorWarning f) (areasWarning f)
              (setAdd (area_name forecast) (areasAdvisory f)))
    | InheritedGrade => Throw
    | OtherGrade => Ok f
    end
  else Ok f.

(** [info.tsunami.forecasts.forEach(...)] on a fresh [forecastsByGrade];
    an exception ends the loop. *)
Definition collectForecasts (forecasts : list Forecast)
  : result ForecastsByGrade :=
  fold_left (fun acc forecast => f ← acc; addForecast f forecast)
            forecasts (Ok emptyForecasts).

(** [Object.keys(forecastsByGrade).filter(grade => ....size > 0)] *)
Definition nonEmptyGrades (f : ForecastsByGrade) : list Grade :=
  List.filter (fun g => match areasOf f g with
                        | Some s => (0 <? length s)%nat
                        | None => false
                        end)
              [MajorWarning; Warning; Advisory].

Definition gradesInclude (grades : list Grade) (g : Grade) : bool :=
  bool_decide (g ∈ grades).

Definition highestGradeOf (f : ForecastsByGrade) : jsstring :=
  let grades := nonEmptyGrades f in
  if gradesInclude grades MajorWarning then u16 "MajorWarning"
  else if gradesInclude grades Warning then u16 "Warning"
  else if gradesInclude grades Advisory then u16 "Advisory"
  else u16 "None".

Record TsunamiDetail := mkTsunamiDetail {
  highestGrade : jsstring;
  areas : ForecastsByGrade
}.

(** What one report contributes: a fresh [forecastsByGrade] filled from
    its own forecasts, and the highest grade read off it. *)
Definition detailOf (forecasts : list Forecast) : result TsunamiDetail :=
  forecastsByGrade ← collectForecasts forecasts;
  Ok (mkTsunamiDetail (highestGradeOf forecastsByGrade) forecastsByGrade).

(** The body of [tsunamiInfos.forEach]. *)
Definition tsunamiStep (tsunamiDetailsMap : gmap jsstring TsunamiDetail)
  (info : TsunamiInfo) : result (gmap jsstring TsunamiDetail) :=
  match ti_forecasts info with
  | None => Ok tsunamiDetailsMap
  | Some forecasts =>
      detail ← detailOf forecasts;
      Ok (<[ti_event_id info := detail]> tsunamiDetailsMap)
  end.

(** [data.filter(d => d.code === 552)] *)
Definition tsunamiInfos (data : list RawReport) : list TsunamiInfo :=
  flat_map (fun d => match d with TsunamiForecast info => [info] | _ => [] end)
           data.

(** [tsunamiInfos.forEach(...)] on a fresh [Map]; an exception of a
    report's loop ends this loop as well. *)
Definition tsunamiDetailsMap (data : list RawReport)
  : result (gmap jsstring TsunamiDetail) :=
  fold_left (fun acc info => m ← acc; tsunamiStep m info)
            (tsunamiInfos data) (Ok ∅).

(** ** The forecast loops read on values *)

(** A forecast at which [add] is called on a value that is no [Set]. *)
Definition addFails (forecast : Forecast) : bool :=
  bool_decide (grade forecast = InheritedGrade)
  && truthy (area_name forecast).

(** A report whose loop ends in the exception, and a poll with such a
    report. *)
Definition reportFails (info : TsunamiInfo) : bool :=
  match ti_forecasts info with
  | Some forecasts => existsb addFails forecasts
  | None => false
  end.

Definition pollFails (data : list RawReport) : bool :=
  existsb reportFails (tsunamiInfos data).

(** What the loops hold when no [add] fails. *)
Definition added (f : ForecastsByGrade) (forecast : Forecast)
  : ForecastsByGrade :=
  match addForecast f forecast with
  | Ok f' => f'
  | Throw => f
  end.

Definition collected (forecasts : list Forecast) : ForecastsByGrade :=
  fold_left added forecasts emptyForecasts.

Definition detailValue (forecasts : list Forecast) : TsunamiDetail :=
  mkTsunamiDetail (highestGradeOf (collected forecasts)) (collected forecasts).

Definition stepValue (m : gmap jsstring TsunamiDetail) (info : TsunamiInfo)
  : gmap jsstring TsunamiDetail :=
  match ti_forecasts info with
  | None => m
  | Some forecasts => <[ti_event_id info := detailValue forecasts]> m
  end.

Definition detailValues (data : list RawReport)
  : gmap jsstring TsunamiDetail :=
  fold_left stepValue (tsunamiInfos data) ∅.

(** A result as an option. *)
Definition okValue {A} (r : result A) : option A :=
  match r with
  | Ok a => Some a
  | Throw => None
  end.

(** [forecastsByGrade[g]] as a list, empty where there is no such key. *)
Definition areasAt (f : ForecastsByGrade) (g : Grade) : list jsstring :=
  match areasOf f g with
  | Some s => s
  | None => []
  end.

(** The forecast lists of the reports with correlation id [id], in fetch
    order; reports without forecasts leave no trace. *)
Definition forecastsFor (id : jsstring) (infos : list TsunamiInfo)
  : list (list Forecast) :=
  omap (fun info => if bool_decide (ti_event_id info = id)
                    then ti_forecasts info else None) infos.

(** The forecasts of the last such report. *)
Definition latestForecasts (id : jsstring) (infos : list TsunamiInfo)
  : option (list Forecast) :=
  last (forecastsFor id infos).

(** The first grade with areas, in the order of severity. *)
Definition firstNonEmptyGrade (f : ForecastsByGrade) : jsstring :=
  match areasMajorWarning f, areasWarning f, areasAdvisory f with
  | _ :: _, _, _ => u16 "MajorWarning"
  | [], _ :: _, _ => u16 "Warning"
  | [], [], _ :: _ => u16 "Advisory"
  | [], [], [] => u16 "None"
  end.

(** ** Intensity reports (551) *)

Definition MIN_LIST_SCALE : Z := 30.

(** The predicate of [filteredEarthquakes]. *)
Definition listed (eq : Quake) : bool :=
  match maxScale (earthquake eq) with
  | Some s => (MIN_LIST_SCALE <=? s)%Z
  | None => false
  end.

Definition filteredEarthquakes (data : list RawReport) : list Quake :=
  flat_map (fun d => match d with
                     | Intensity eq => if listed eq then [eq] else []
                     | _ => []
                     end) data.

(** A [Map] with string keys: [get], and [set], which keeps the position
    of a key already present and appends a new one. *)
Fixpoint mapGet {V} (k : jsstring) (m : list (jsstring * V)) : option V :=
  match m with
  | [] => None
  | (k', v) :: m' => if bool_decide (k' = k) then Some v else mapGet k m'
  end.

Fixpoint mapSet {V} (k : jsstring) (v : V) (m : list (jsstring * V))
  : list (jsstring * V) :=
  match m with
  | [] => [(k, v)]
  | (k', v') :: m' =>
      if bool_decide (k' = k) then (k, v) :: m'
      else (k', v') :: mapSet k v m'
  end.

(** [eq.earthquake?.hypocenter?.name] *)
Definition epicenterNameOf (eq : Quake) : jsstring :=
  match hypocenter (earthquake eq) with
  | Some h => name h
  | None => []
  end.

Definition eventKeyOf (eq : Quake) : jsstring :=
  underscored (time (earthquake eq)) (epicenterNameOf eq).

(** Reports the loop does not skip. *)
Definition keyed (eq : Quake) : bool :=
  truthy (time (earthquake eq)) && truthy (epicenterNameOf eq).

Definition isSet {A} (o : option A) : bool :=
  match o with Some _ => true | None => false end.

(** [m === -1 || m === null] *)
Definition magnitudeMissing (m : Magnitude) : bool :=
  bool_decide (m = MagNumber (-10)) || bool_decide (m = MagNull).

(** [a > b] on values that may not be numbers. *)
Definition greater (a b : option Z) : bool :=
  match a, b with
  | Some x, Some y => (y <? x)%Z
  | _, _ => false
  end.

Definition setHypocenter (q : Quake) (h : option Hypocenter) : Quake :=
  mkQuake (event_id q)
          (mkEarthquake (time (earthquake q)) h (maxScale (earthquake q))
                        (domesticTsunami (earthquake q)))
          (points q).

Definition setMaxScale (q : Quake) (s : option Z) : Quake :=
  mkQuake (event_id q)
          (mkEarthquake (time (earthquake q)) (hypocenter (earthquake q)) s
                        (domesticTsunami (earthquake q)))
          (points q).

Definition setPoints (q : Quake) (ps : option (list Point)) : Quake :=
  mkQuake (event_id q) (earthquake q) ps.

Definition setDomesticTsunami (q : Quake) (t : jsstring) : Quake :=
  mkQuake (event_id q)
          (mkEarthquake (time (earthquake q)) (hypocenter (earthquake q))
                        (maxScale (earthquake q)) t)
          (points q).

(** The three assignments to fields of [existingEq], in order; reading
    [existingEq.earthquake.hypocenter.magnitude] of an absent hypocenter
    throws. *)
Definition updateExisting (existingEq eq : Quake) : result Quake :=
  e1 ← match hypocenter (earthquake eq) with
       | None => Ok existingEq
       | Some h =>
           match hypocenter (earthquake existingEq) with
           | None => Throw
           | Some hx =>
               if magnitudeMissing (magnitude hx)
                  && negb (magnitudeMissing (magnitude h))
               then Ok (setHypocenter existingEq (Some h))
               else Ok existingEq
           end
       end;
  let e2 :=
    if greater (maxScale (earthquake eq)) (maxScale (earthquake e1))
    then setMaxScale e1 (maxScale (earthquake eq)) else e1 in
  let e3 :=
    if bool_decide (domesticTsunami (earthquake eq)
                    ≠ domesticTsunami (earthquake e2))
    then setDomesticTsunami e2 (domesticTsunami (earthquake eq)) else e2 in
  Ok e3.

(** The objects of [filteredEarthquakes] live in [heap], addressed by
    their position; [uniqueEarthquakesMap] holds references to them, so
    an assignment through [existingEq] reaches the map only while the map
    still refers to that object. *)
Record MergeState := mkMergeState {
  heap : list Quake;
  uniqueEarthquakesMap : list (jsstring * nat)
}.

(** The object a reference points to. The references of the loop are
    positions of [filteredEarthquakes]; the branch for a position outside
    the heap is never taken. *)
Definition deref (h : list Quake) (r : nat) : result Quake :=
  match h !! r with
  | Some q => Ok q
  | None => Throw
  end.

(** One iteration of [for (const eq of filteredEarthquakes)], [i] being
    the position of [eq]. *)
Definition mergeStep (st : MergeState) (i : nat) : result MergeState :=
  eq ← deref (heap st) i;
  let eventTime := time (earthquake eq) in
  let epicenterName := epicenterNameOf eq in
  if negb (truthy eventTime) || negb (truthy epicenterName) then Ok st
  else
    let eventKey := underscored eventTime epicenterName in
    match mapGet eventKey (uniqueEarthquakesMap st) with
    | Some r =>
        existingEq ← deref (heap st) r;
        let map1 :=
          if negb (isSet (points existingEq)) && isSet (points eq)
          then mapSet eventKey i (uniqueEarthquakesMap st)
          else uniqueEarthquakesMap st in
        existingEq' ← updateExisting existingEq eq;
        Ok (mkMergeState (<[r := existingEq']> (heap st)) map1)
    | None =>
        Ok (mkMergeState (heap st)
                         (mapSet eventKey i (uniqueEarthquakesMap st)))
    end.

Fixpoint mergeLoop (st : MergeState) (indices : list nat) : result MergeState :=
  match indices with
  | [] => Ok st
  | i :: rest => st' ← mergeStep st i; mergeLoop st' rest
  end.

(** [Array.from(uniqueEarthquakesMap.values())] *)
Fixpoint mapValues (h : list Quake) (m : list (jsstring * nat))
  : result (list Quake) :=
  match m with
  | [] => Ok []
  | (_, r) :: m' => q ← deref h r; qs ← mapValues h m'; Ok (q :: qs)
  end.

(** [Array.from(uniqueEarthquakesMap.entries())], the keys kept with the
    objects. *)
Fixpoint mapEntries (h : list Quake) (m : list (jsstring * nat))
  : result (list (jsstring * Quake)) :=
  match m with
  | [] => Ok []
  | (k, r) :: m' => q ← deref h r; es ← mapEntries h m'; Ok ((k, q) :: es)
  end.

(** The deduplication of a list of filtered reports. *)
Definition mergeAll (filtered : list Quake) : result MergeState :=
  mergeLoop (mkMergeState filtered []) (seq 0 (length filtered)).

Definition uniqueEarthquakesOf (filtered : list Quake) : result (list Quake) :=
  st ← mergeAll filtered;
  mapValues (heap st) (uniqueEarthquakesMap st).

Definition uniqueEarthquakes (data : list RawReport) : result (list Quake) :=
  uniqueEarthquakesOf (filteredEarthquakes data).

(** The map the loop leaves behind, each key with the object it refers
    to. *)
Definition uniqueEntriesOf (filtered : list Quake)
  : result (list (jsstring * Quake)) :=
  st ← mergeAll filtered;
  mapEntries (heap st) (uniqueEarthquakesMap st).

Definition uniqueEntries (data : list RawReport)
  : result (list (jsstring * Quake)) :=
  uniqueEntriesOf (filteredEarthquakes data).

(** ** The loop read on values

    What the map refers to after each iteration, without the heap: an
    object put into the map by [set] is not assigned to in that
    iteration, an object that stays receives the three assignments. The
    loop is shown below to compute exactly this. *)

Definition updated (existingEq eq : Quake) : Quake :=
  match updateExisting existingEq eq with
  | Ok q => q
  | Throw => existingEq
  end.

Definition mergedValue (existingEq eq : Quake) : Quake :=
  if negb (isSet (points existingEq)) && isSet (points eq) then eq
  else updated existingEq eq.

Definition stepValues (vals : list (jsstring * Quake)) (eq : Quake)
  : list (jsstring * Quake) :=
  if keyed eq then
    mapSet (eventKeyOf eq)
           (match mapGet (eventKeyOf eq) vals with
            | Some existingEq => mergedValue existingEq eq
            | None => eq
            end) vals
  else vals.

Definition mergeValues (filtered : list Quake) : list (jsstring * Quake) :=
  fold_left stepValues filtered [].

(** The reports of one merge key, in fetch order. *)
Definition group (k : jsstring) (filtered : list Quake) : list Quake :=
  List.filter (fun eq => keyed eq && bool_decide (eventKeyOf eq = k)) filtered.

(** What the reports of one key merge to. *)
Definition mergeGroup (acc : option Quake) (eqs : list Quake) : option Quake :=
  fold_left (fun acc eq => Some (match acc with
                                 | Some existingEq => mergedValue existingEq eq
                                 | None => eq
                                 end)) eqs acc.

(** The [points] of the first report of a list that has the field: an
    array of any length, also an empty one. *)
Definition firstPoints (eqs : list Quake) : option (list Point) :=
  head (omap points eqs).

(** Two reports select the same entry of the map. *)
Definition sameEvent (entries : list (jsstring * Quake)) (eq1 eq2 : Quake)
  : Prop :=
  ∃ i entry, entries !! i = Some entry
             ∧ entry.1 = eventKeyOf eq1 ∧ entry.1 = eventKeyOf eq2.

(** The pair the specification names as the merge key. *)
Definition keyPair (eq : Quake) : jsstring * jsstring :=
  (time (earthquake eq), epicenterNameOf eq).

(** The upstream event id replaced. *)
Definition withEventId (f : jsstring -> jsstring) (eq : Quake) : Quake :=
  mkQuake (f (event_id eq)) (earthquake eq) (points eq).

Definition retag (f : jsstring -> jsstring) (d : RawReport) : RawReport :=
  match d with
  | Intensity eq => Intensity (withEventId f eq)
  | other => other
  end.

Definition retagged (f : jsstring -> jsstring)
  (vals : list (jsstring * Quake)) : list (jsstring * Quake) :=
  map (fun kq => (kq.1, withEventId f kq.2)) vals.

(** [maxScale] of a listed report. *)
Definition scaleOf (eq : Quake) : Z :=
  match maxScale (earthquake eq) with
  | Some s => s
  | None => 0
  end.

(** A map entry refers to the object of a value entry. *)
Abbreviation refersTo h :=
  (fun (kr : jsstring * nat) (kq : jsstring * Quake) =>
     kr.1 = kq.1 ∧ h !! kr.2 = Some kq.2).

(** The invariant of the loop after [n] iterations over [filtered]:
    [vals] is what the map refers to. *)
Record mergeInvariant (filtered : list Quake) (n : nat) (st : MergeState)
  (vals : list (jsstring * Quake)) : Prop := mkMergeInvariant {
  inv_length : length (heap st) = length filtered;
  inv_untouched : ∀ j, (n <= j)%nat → heap st !! j = filtered !! j;
  inv_values :
    Forall2 (fun kr kq => kr.1 = kq.1 ∧ heap st !! kr.2 = Some kq.2)
            (uniqueEarthquakesMap st) vals;
  inv_keys : NoDup (map fst (uniqueEarthquakesMap st));
  inv_refs : NoDup (map snd (uniqueEarthquakesMap st));
  inv_earlier : Forall (fun kr => (kr.2 < n)%nat) (uniqueEarthquakesMap st);
  inv_keyed : Forall (fun kq => keyed kq.2 = true) vals
}.

(** ** [processEarthquake] *)

(** [{...point, originalAddr: point.addr}] *)
Record ProcessedPoint := mkProcessedPoint {
  point : Point;
  originalAddr : jsstring
}.

Definition processPoint (p : Point) : ProcessedPoint :=
  mkProcessedPoint p (addr p).

(** The fields of the returned object that carry merged data; badges,
    labels and formatted texts are display only. *)
Record Event := mkEvent {
  id : jsstring;
  epicenter : jsstring;
  tsunami : jsstring;
  tsunamiGrade : jsstring;                       (* detailedTsunamiGrade *)
  tsunamiForecastAreas : option ForecastsByGrade;
  eventMaxScale : option Z;
  eventPoints : list ProcessedPoint
}.

(** [`${eqData.time}_${eqData.hypocenter?.name || '不明'}`] *)
Definition idSource (eq : Quake) : jsstring :=
  underscored (time (earthquake eq)) (or_else (epicenterNameOf eq) (u16 "不明")).

Definition processEarthquake (tsunamiDetailsMap : gmap jsstring TsunamiDetail)
  (eq : Quake) : Event :=
  let epicenterName := or_else (epicenterNameOf eq) (u16 "不明") in
  let syntheticId := Digest.digestMessage (idSource eq) in
  let tsunamiData := tsunamiDetailsMap !! event_id eq in
  mkEvent syntheticId epicenterName
          (domesticTsunami (earthquake eq))
          (match tsunamiData with
           | Some d => highestGrade d
           | None => domesticTsunami (earthquake eq)
           end)
          (areas <$> tsunamiData)
          (maxScale (earthquake eq))
          (match points eq with
           | Some ps => map processPoint ps
           | None => []
           end).

(** [fetchEarthquakeData] from the fetched [data] on: the loop over the
    reports of code 552, then the filter and the merge loop, then
    [processEarthquake] on every merged report. An exception ends in the
    [catch] block, which returns the empty list. *)
Definition processedEarthquakes (data : list RawReport) : result (list Event) :=
  tsunamiDetailsMap ← tsunamiDetailsMap data;
  unique ← uniqueEarthquakes data;
  Ok (map (processEarthquake tsunamiDetailsMap) unique).

Definition fetchEarthquakeData (data : list RawReport) : list Event :=
  match processedEarthquakes data with
  | Ok events => events
  | Throw => []
  end.

End Aggregator.

(** Reports used as concrete inputs below. *)
Module Scenario.

Import Aggregator.

Definition quake (id t n : string) (m : Magnitude) (s : Z) (tsunami : string)
  (ps : option (list Point)) : Quake :=
  mkQuake (u16 id)
          (mkEarthquake (u16 t) (Some (mkHypocenter (u16 n) m 10)) (Some s)
                        (u16 tsunami))
          ps.

Definition miyagi : Point := mkPoint (u16 "宮城県") (u16 "栗原市築館") 70 false.
Definition iwate : Point := mkPoint (u16 "岩手県") (u16 "大船渡市大船渡町") 60 false.

(** The two revisions of the specification's scenario: one of scale 60
    without points, one of scale 70 with points. *)
Definition sanrikuPlain : Quake :=
  quake "20110311144600" "2011-03-11T14:46:00+09:00" "三陸沖"
        MagNull 60 "Checking" None.
Definition sanrikuDetailed : Quake :=
  quake "20110311144601" "2011-03-11T14:46:00+09:00" "三陸沖"
        (MagNumber 90) 70 "MajorWarning" (Some [miyagi; iwate]).

(** The same two revisions with the scales exchanged. *)
Definition strongPlain : Quake :=
  quake "20110311144600" "2011-03-11T14:46:00+09:00" "三陸沖"
        MagNull 70 "Checking" None.
Definition weakDetailed : Quake :=
  quake "20110311144601" "2011-03-11T14:46:00+09:00" "三陸沖"
        (MagNumber 90) 60 "MajorWarning" (Some [miyagi; iwate]).

(** Two reports whose (time, name) pairs differ and whose key strings
    coincide. *)
Definition notoA : Quake :=
  quake "1" "2024/01/01 16:10:00" "能登_半島沖" (MagNumber 76) 70 "Warning"
        None.
Definition notoB : Quake :=
  quake "2" "2024/01/01 16:10:00_能登" "半島沖" (MagNumber 76) 70 "Warning"
        None.

End Scenario.

(* ===================================================================== *)
(** * PaginationEngine: the page loop of [updateFixedShindoBar] *)
(* ===================================================================== *)

Module Pagination.

(** [`<span class="inline-block">${c}</span>`] *)
Definition span (c : jsstring) : jsstring :=
  u16 "<span class=" ++ [dquote] ++ u16 "inline-block" ++ [dquote]
      ++ u16 ">" ++ c ++ u16 "</span>".

(** The separator of the joined page text, an ideographic space. *)
Definition wideSpace : jsstring := [0x3000].

(** [list.map(c => span).join('　')], used both for [testHtml] and for
    the [pageHtml] stored in the view. *)
Definition pageHtml (pageCities : list jsstring) : jsstring :=
  join wideSpace (map span pageCities).

(** [cities[i].includes('_') ? cities[i].split('_')[1] : cities[i]] *)
Definition cityName (city : jsstring) : jsstring :=
  if includes city [underscore]
  then nth 1 (split underscore city) []
  else city.

(** One entry of [FIXED_BAR_VIEWS] pushed by the loop. *)
Record View := mkView {
  view_type : jsstring;
  view_shindo : jsstring;
  view_line1 : jsstring;
  view_line2 : jsstring
}.

Section Loop.

(** [doesTextFitInTwoLines(html, contentLine1)]: the DOM measurement is
    the rendering surface's; the loop only uses its boolean answer. *)
Variable doesTextFitInTwoLines : jsstring -> bool.

(** The [for] loop over [cities] with its buffer [pageCities]; the result
    lists the buffers in the order they are pushed, the last one by the
    flush after the loop. *)
Fixpoint pageLoop (cities : list jsstring) (pageCities : list jsstring)
  : list (list jsstring) :=
  match cities with
  | [] =>
      if (0 <? length pageCities)%nat then [pageCities] else []
  | city :: rest =>
      let name := cityName city in
      let testCities := pageCities ++ [name] in
      let testHtml := pageHtml testCities in
      if negb (doesTextFitInTwoLines testHtml)
         && (0 <? length pageCities)%nat
      then pageCities :: pageLoop rest [name]
      else pageLoop rest (pageCities ++ [name])
  end.

Definition paginate (cities : list jsstring) : list (list jsstring) :=
  pageLoop cities [].

(** The views pushed for one intensity group. *)
Definition groupViews (shindo : jsstring) (cities : list jsstring)
  : list View :=
  map (fun page => mkView (u16 "shindo") shindo (pageHtml page) [])
      (paginate cities).

(** Whether a page passes the measurement it was built with. *)
Definition fits (page : list jsstring) : bool :=
  doesTextFitInTwoLines (pageHtml page).

(** What the loop keeps in its buffer: a page that fits, or a single item
    that does not fit alone. *)
Definition acceptable (page : list jsstring) : Prop :=
  fits page = true ∨ ∃ item, page = [item] ∧ fits [item] = false.

End Loop.

End Pagination.

(* ===================================================================== *)
(** * EventAggregator: tsunami observations (556) and tsunami badges *)
(* ===================================================================== *)

Module Observation.

Import Aggregator.

(** One element of [area.stations]. [height] is [None] when the field is
    absent or [null]; a number is the rational it denotes, on which [>]
    is the comparison of the script. *)
Record Station := mkStation {
  station_name : jsstring;
  height : option Q;
  station_time : jsstring
}.

(** One element of [info.areas]; [area_stations] is [None] when
    [area.stations] is absent or [null]. *)
Record ObservationArea := mkObservationArea {
  area_stations : option (list Station)
}.

(** A report of code 556. [oi_event_id] is
    [String(info.issue.event_id || info.issue.eventid)]. *)
Record ObservationInfo := mkObservationInfo {
  oi_event_id : jsstring;
  cancelled : bool;
  oi_areas : option (list ObservationArea)
}.

Record ObservationDetail := mkObservationDetail {
  maxObservedHeight : Q;
  stations : list Station
}.

(** [station.height > maxObservedHeight] *)
Definition exceeds (h : option Q) (m : Q) : bool :=
  match h with
  | Some x => negb (Qle_bool x m)
  | None => false
  end.

(** The body of [area.stations?.forEach]. *)
Definition stationStep (acc : ObservationDetail) (station : Station)
  : ObservationDetail :=
  mkObservationDetail
    (match height station with
     | Some x => if exceeds (Some x) (maxObservedHeight acc) then x
                 else maxObservedHeight acc
     | None => maxObservedHeight acc
     end)
    (stations acc ++ [station]).

(** The body of [info.areas.forEach]. *)
Definition areaStep (acc : ObservationDetail) (area : ObservationArea)
  : ObservationDetail :=
  match area_stations area with
  | Some sts => fold_left stationStep sts acc
  | None => acc
  end.

(** What one report contributes: [maxObservedHeight] starts at 0 and
    [stations] empty. *)
Definition observationOf (areas : list ObservationArea) : ObservationDetail :=
  fold_left areaStep areas (mkObservationDetail 0 []).

(** The body of [observationInfos.forEach]. *)
Definition observationStep (m : gmap jsstring ObservationDetail)
  (info : ObservationInfo) : gmap jsstring ObservationDetail :=
  match oi_areas info with
  | None => m
  | Some areas => <[oi_event_id info := observationOf areas]> m
  end.

(** [data.filter(d => d.code === 556 && !d.cancelled)], from the reports
    of code 556. *)
Definition observationInfos (reports : list ObservationInfo)
  : list ObservationInfo :=
  List.filter (fun d => negb (cancelled d)) reports.

Definition tsunamiObservationMap (reports : list ObservationInfo)
  : gmap jsstring ObservationDetail :=
  fold_left observationStep (observationInfos reports) ∅.

(** The areas of the reports that count for [id], in fetch order. *)
Definition areasFor (id : jsstring) (reports : list ObservationInfo)
  : list (list ObservationArea) :=
  omap (fun info => if negb (cancelled info)
                       && bool_decide (oi_event_id info = id)
                    then oi_areas info else None) reports.

(** All stations of a list of areas, in order. *)
Definition allStations (areas : list ObservationArea) : list Station :=
  flat_map (fun area => match area_stations area with
                        | Some sts => sts
                        | None => []
                        end) areas.

End Observation.

Module Badges.

Import Aggregator Observation.

Record Badge := mkBadge {
  label : jsstring;
  badge_class : jsstring
}.

#[global] Instance Badge_eq_dec : EqDecision Badge.
Proof. solve_decision. Defined.

Definition majorWarningBadge : Badge :=
  mkBadge (u16 "大津波警報") (u16 "tsunami-major-warning").
Definition warningBadge : Badge :=
  mkBadge (u16 "津波警報") (u16 "tsunami-warning-detailed").
Definition advisoryBadge : Badge :=
  mkBadge (u16 "津波注意報") (u16 "tsunami-advisory").
Definition observedBadge : Badge :=
  mkBadge (u16 "津波観測中") (u16 "tsunami-observed").
Definition noneBadge : Badge := mkBadge (u16 "津波なし") (u16 "tsunami-none").
Definition checkingBadge : Badge :=
  mkBadge (u16 "調査中") (u16 "tsunami-checking").

(** [tsunamiData ? tsunamiData.highestGrade : domesticTsunami] *)
Definition detailedTsunamiGrade (tsunamiData : option TsunamiDetail)
  (domesticTsunami : jsstring) : jsstring :=
  match tsunamiData with
  | Some d => highestGrade d
  | None => domesticTsunami
  end.

(** [if (cond) tsunamiBadges.push(badge)] *)
Definition pushIf (cond : bool) (badge : Badge) (badges : list Badge)
  : list Badge :=
  if cond then badges ++ [badge] else badges.

(** [tsunamiBadges] of [processEarthquake]: the pushes in the order of
    the statements. *)
Definition tsunamiBadges (tsunamiData : option TsunamiDetail)
  (tsunamiObservationData : option ObservationDetail)
  (domesticTsunami : jsstring) : list Badge :=
  let grade := detailedTsunamiGrade tsunamiData domesticTsunami in
  let b0 : list Badge := [] in
  let b3 :=
    match tsunamiData with
    | Some d =>
        let b1 := pushIf (0 <? length (areasMajorWarning (areas d)))%nat
                         majorWarningBadge b0 in
        let b2 := pushIf (0 <? length (areasWarning (areas d)))%nat
                         warningBadge b1 in
        pushIf (0 <? length (areasAdvisory (areas d)))%nat advisoryBadge b2
    | None => b0
    end in
  let b4 :=
    match tsunamiObservationData with
    | Some o => pushIf (negb (Qle_bool (maxObservedHeight o) 0))
                       observedBadge b3
    | None => b3
    end in
  if (length b4 =? 0)%nat then
    if bool_decide (grade = u16 "None") then b4 ++ [noneBadge]
    else if bool_decide (grade = u16 "Checking") then b4 ++ [checkingBadge]
    else b4
  else b4.

(** [tsunamiLabelForGas] *)
Definition tsunamiLabelForGas (tsunamiData : option TsunamiDetail)
  (tsunamiObservationData : option ObservationDetail)
  (domesticTsunami : jsstring) : jsstring :=
  let grade := detailedTsunamiGrade tsunamiData domesticTsunami in
  match tsunamiBadges tsunamiData tsunamiObservationData domesticTsunami with
  | badge :: _ => label badge
  | [] =>
      if bool_decide (grade = u16 "None") then u16 "津波なし"
      else if bool_decide (grade = u16 "Checking") then u16 "調査中"
      else u16 "不明"
  end.

(** The labels [displayEarthquakeDetails] counts as a warning. *)
Definition warningLabels : list jsstring :=
  map u16 ["大津波警報"; "津波警報"; "津波注意報"; "津波観測中"]%string.

(** [eq.tsunamiBadges.some(b => [...].includes(b.label))] *)
Definition hasTsunamiWarning (badges : list Badge) : bool :=
  existsb (fun b => bool_decide (label b ∈ warningLabels)) badges.

(** [detailTitle.textContent] *)
Definition detailTitle (badges : list Badge) : jsstring :=
  if hasTsunamiWarning badges then u16 "地震・津波詳細" else u16 "地震詳細".

(** The outcome of the [switch] on [(eq.tsunamiBadges[0] || {}).label]
    in the detail panel. *)
Inductive TsunamiLine :=
| MajorWarningIssued
| WarningIssued
| AdvisoryIssued
| Observing
| NoTsunami
| UnderInvestigation
| UnknownLine.

Definition tsunamiLine (badges : list Badge) : TsunamiLine :=
  match badges with
  | [] => UnknownLine
  | b :: _ =>
      if bool_decide (label b = u16 "大津波警報") then MajorWarningIssued
      else if bool_decide (label b = u16 "津波警報") then WarningIssued
      else if bool_decide (label b = u16 "津波注意報") then AdvisoryIssued
      else if bool_decide (label b = u16 "津波観測中") then Observing
      else if bool_decide (label b = u16 "津波なし") then NoTsunami
      else if bool_decide (label b = u16 "調査中") then UnderInvestigation
      else UnknownLine
  end.

(** The keys of a list in the order of their first occurrence, as a
    [Map] or [Set] keeps them. *)
Definition distinctInOrder (l : list jsstring) : list jsstring :=
  fold_left (fun seen k => setAdd k seen) l [].

End Badges.

(* ===================================================================== *)
(** * Intensity classes and the grouping of observation points *)
(* ===================================================================== *)

Module Shindo.

Import Kana Municipality Aggregator.

Record ShindoInfo := mkShindoInfo {
  shindo_label : jsstring;
  shindo_class : jsstring
}.

(** [scaleToShindo(scale)] *)
Definition scaleToShindo (scale : Z) : ShindoInfo :=
  if (scale =? 10)%Z then mkShindoInfo (u16 "震度1") (u16 "shindo-1")
  else if (scale =? 20)%Z then mkShindoInfo (u16 "震度2") (u16 "shindo-2")
  else if (scale =? 30)%Z then mkShindoInfo (u16 "震度3") (u16 "shindo-3")
  else if (scale =? 40)%Z then mkShindoInfo (u16 "震度4") (u16 "shindo-4")
  else if (scale =? 45)%Z
  then mkShindoInfo (u16 "震度5弱") (u16 "shindo-5-minus")
  else if (scale =? 50)%Z
  then mkShindoInfo (u16 "震度5強") (u16 "shindo-5-plus")
  else if (scale =? 55)%Z
  then mkShindoInfo (u16 "震度6弱") (u16 "shindo-6-minus")
  else if (scale =? 60)%Z
  then mkShindoInfo (u16 "震度6強") (u16 "shindo-6-plus")
  else if (scale =? 70)%Z then mkShindoInfo (u16 "震度7") (u16 "shindo-7")
  else mkShindoInfo (u16 "震度不明") (u16 "bg-gray-400 text-white").

(** The scales [scaleToShindo] has a case for. *)
Definition knownScales : list Z := [10; 20; 30; 40; 45; 50; 55; 60; 70]%Z.

(** [SHINDO_SORT_ORDER] *)
Definition SHINDO_SORT_ORDER : list (jsstring * Z) :=
  [ (u16 "震度7", 9); (u16 "震度6強", 8); (u16 "震度6弱", 7);
    (u16 "震度5強", 6); (u16 "震度5弱", 5); (u16 "震度4", 4);
    (u16 "震度3", 3); (u16 "震度2", 2); (u16 "震度1", 1) ]%Z.

(** [SHINDO_SORT_ORDER[label] || 0], for a label that is not the name of
    a property of [Object.prototype]; the labels the script sorts are
    those of [scaleToShindo]. *)
Definition sortOrder (label : jsstring) : Z :=
  match mapGet label SHINDO_SORT_ORDER with
  | Some n => if (n =? 0)%Z then 0%Z else n
  | None => 0%Z
  end.

(** [classMap] of [shindoLabelToClass] *)
Definition classMap : list (jsstring * jsstring) :=
  [ (u16 "震度7", u16 "shindo-7"); (u16 "震度6強", u16 "shindo-6-plus");
    (u16 "震度6弱", u16 "shindo-6-minus");
    (u16 "震度5強", u16 "shindo-5-plus");
    (u16 "震度5弱", u16 "shindo-5-minus"); (u16 "震度4", u16 "shindo-4");
    (u16 "震度3", u16 "shindo-3"); (u16 "震度2", u16 "shindo-2");
    (u16 "震度1", u16 "shindo-1");
    (u16 "概況", u16 "bg-gray-500 text-white");
    (u16 "情報なし", u16 "bg-gray-600 text-white");
    (u16 "不明", u16 "bg-gray-400 text-white") ].

(** [shindoLabelToClass(label)], for a label that is not the name of a
    property of [Object.prototype]. *)
Definition shindoLabelToClass (label : jsstring) : jsstring :=
  match mapGet label classMap with
  | Some c => or_else c (u16 "bg-gray-400 text-white")
  | None => u16 "bg-gray-400 text-white"
  end.

(** ** [groupPointsByShindoAndMode] *)

(** The name a point is listed under. *)
Definition nameOf (KANA_DICT : dictionary) (mode : jsstring) (p : Point)
  : jsstring :=
  if bool_decide (mode = u16 "municipality")
  then getMunicipality KANA_DICT (addr p) (pref p)
  else or_else (addr p) (u16 "観測点名不明").

(** [shindoGroup[label]] where the key exists, an empty [Set] where the
    loop creates it. *)
Definition setAt (shindoGroup : list (jsstring * list jsstring))
  (label : jsstring) : list jsstring :=
  match mapGet label shindoGroup with
  | Some s => s
  | None => []
  end.

(** The body of [rawPoints.forEach]. [shindoGroup] is the object with
    its keys in insertion order, each key with its [Set]. *)
Definition groupStep (KANA_DICT : dictionary) (mode : jsstring) (minScale : Z)
  (shindoGroup : list (jsstring * list jsstring)) (p : Point)
  : list (jsstring * list jsstring) :=
  if (minScale <=? scale p)%Z then
    let shindoLabel := shindo_label (scaleToShindo (scale p)) in
    let name := nameOf KANA_DICT mode p in
    mapSet shindoLabel (setAdd name (setAt shindoGroup shindoLabel))
           shindoGroup
  else shindoGroup.

(** [keys.sort((a, b) => (SHINDO_SORT_ORDER[b] || 0)
                         - (SHINDO_SORT_ORDER[a] || 0))]:
    highest order first, keys of equal order keep their order. *)
Fixpoint insertByOrder (x : jsstring) (l : list jsstring) : list jsstring :=
  match l with
  | [] => [x]
  | y :: l' =>
      if (sortOrder x <? sortOrder y)%Z then y :: insertByOrder x l'
      else x :: y :: l'
  end.

Definition sortByOrderDesc (l : list jsstring) : list jsstring :=
  foldr insertByOrder [] l.

Record ShindoGroup := mkShindoGroup {
  shindo : jsstring;
  cities : list jsstring
}.

(** [groupPointsByShindoAndMode(rawPoints, mode, minScale)]; [rawPoints]
    is [None] when it is not an array. *)
Definition groupPointsByShindoAndMode (KANA_DICT : dictionary)
  (rawPoints : option (list Point)) (mode : jsstring) (minScale : Z)
  : list ShindoGroup :=
  match rawPoints with
  | None => []
  | Some rawPoints =>
      let shindoGroup :=
        fold_left (groupStep KANA_DICT mode minScale) rawPoints [] in
      let sortedShindoKeys := sortByOrderDesc (map fst shindoGroup) in
      map (fun key => mkShindoGroup key (setAt shindoGroup key))
          sortedShindoKeys
  end.

(** The points a group is made from, in input order. *)
Definition pointsAt (minScale : Z) (label : jsstring) (rawPoints : list Point)
  : list Point :=
  List.filter (fun p => (minScale <=? scale p)%Z
                        && bool_decide (shindo_label (scaleToShindo (scale p))
                                        = label)) rawPoints.

(** ** The observation points sent to the spreadsheet *)

(** [points.sort((a, b) => b.scale - a.scale)]: strongest first, points
    of equal scale keep their order. *)
Fixpoint insertByScale (x : ProcessedPoint) (l : list ProcessedPoint)
  : list ProcessedPoint :=
  match l with
  | [] => [x]
  | y :: l' =>
      if (scale (point x) <? scale (point y))%Z then y :: insertByScale x l'
      else x :: y :: l'
  end.

Definition sortByScaleDesc (l : list ProcessedPoint) : list ProcessedPoint :=
  foldr insertByScale [] l.

(** [{...point, addr: `${point.pref}_${point.addr}`, earthquakeId}] *)
Record PayloadPoint := mkPayloadPoint {
  sent_point : ProcessedPoint;
  sent_addr : jsstring;
  earthquakeId : jsstring
}.

(** [allPoints] of [logPointsToSpreadsheet] *)
Definition allPoints (ev : Event) : list ProcessedPoint :=
  List.filter (fun p => (10 <=? scale (point p))%Z) (eventPoints ev).

(** The body posted for one Event; [None] when nothing is posted. *)
Definition pointsPayload (ev : Event) : option (list PayloadPoint) :=
  if (0 <? length (allPoints ev))%nat then
    let sortedAndLimitedPoints := take 40 (sortByScaleDesc (allPoints ev)) in
    Some (map (fun p => mkPayloadPoint
                          p (underscored (pref (point p)) (addr (point p)))
                          (id ev))
              sortedAndLimitedPoints)
  else None.

End Shindo.

(* ===================================================================== *)
(** * Maintenance of the override table *)
(* ===================================================================== *)

Module KanaRegistry.

Import Kana Shindo.

(** What [MANUAL_KANA_DICT[key]] evaluates to. *)
Definition overrideProperty (MANUAL_KANA_DICT : overrides) (key : jsstring)
  : property :=
  match MANUAL_KANA_DICT !! key with
  | Some v => Str v
  | None =>
      if bool_decide (key ∈ objectPrototypeNames) then Inherited
      else Undefined
  end.

(** [MANUAL_KANA_DICT[key] = value] for a string [value]: the table gets
    or changes an own entry, except that without an own entry of that
    name [__proto__] is the accessor of [Object.prototype], which ignores
    a string. *)
Definition assign (MANUAL_KANA_DICT : overrides) (key value : jsstring)
  : overrides :=
  if bool_decide (key = u16 "__proto__")
     && negb (bool_decide (is_Some (MANUAL_KANA_DICT !! key)))
  then MANUAL_KANA_DICT
  else <[key := value]> MANUAL_KANA_DICT.

(** [v === undefined || v === ''] *)
Definition undefinedOrEmpty (v : property) : bool :=
  match v with
  | Undefined => true
  | Str [] => true
  | _ => false
  end.

(** The test of the automatic registration in
    [displayEarthquakeDetails]. *)
Definition needsEntry (MANUAL_KANA_DICT : overrides) (kana cityKey : jsstring)
  : bool :=
  negb (truthy kana)
  && undefinedOrEmpty (overrideProperty MANUAL_KANA_DICT cityKey)
  && negb (includes cityKey (u16 "不明")).

(** The body of [item.cities.forEach]; the state is the table and
    [dictionaryUpdated]. *)
Definition registerStep (KANA_DICT : dictionary) (st : overrides * bool)
  (cityKey : jsstring) : result (overrides * bool) :=
  kana ← getKana st.1 KANA_DICT cityKey;
  if needsEntry st.1 kana cityKey
  then Ok (assign st.1 cityKey [], true)
  else Ok st.

(** The two nested [forEach] loops over the keys of all groups. An
    exception of [getKana] leaves the loops; what was registered before
    stays in the table. The result is the state reached and whether the
    loops ran to their end. *)
Fixpoint registerAll (KANA_DICT : dictionary) (st : overrides * bool)
  (cityKeys : list jsstring) : (overrides * bool) * result unit :=
  match cityKeys with
  | [] => (st, Ok tt)
  | cityKey :: rest =>
      match registerStep KANA_DICT st cityKey with
      | Ok st' => registerAll KANA_DICT st' rest
      | Throw => (st, Throw)
      end
  end.

(** The automatic registration over the groups of the detail panel. *)
Definition autoRegister (KANA_DICT : dictionary) (MANUAL_KANA_DICT : overrides)
  (shindoByMode : list ShindoGroup) : (overrides * bool) * result unit :=
  registerAll KANA_DICT (MANUAL_KANA_DICT, false)
              (flat_map cities shindoByMode).

(** ** The dialog *)

(** The units [trim] removes: white space and line terminators. *)
Definition isWhiteSpace (c : N) : bool :=
  (c =? 0x09) || (c =? 0x0A) || (c =? 0x0B) || (c =? 0x0C) || (c =? 0x0D)
  || (c =? 0x20) || (c =? 0xA0) || (c =? 0x1680)
  || ((0x2000 <=? c) && (c <=? 0x200A))
  || (c =? 0x2028) || (c =? 0x2029) || (c =? 0x202F) || (c =? 0x205F)
  || (c =? 0x3000) || (c =? 0xFEFF).

Fixpoint trimStart (s : jsstring) : jsstring :=
  match s with
  | c :: s' => if isWhiteSpace c then trimStart s' else s
  | [] => []
  end.

Definition trimEnd (s : jsstring) : jsstring := rev (trimStart (rev s)).

(** [s.trim()] *)
Definition trim (s : jsstring) : jsstring := trimEnd (trimStart s).

(** The click on the add button with the two input values. *)
Definition addEntry (MANUAL_KANA_DICT : overrides)
  (keyInput valueInput : jsstring) : overrides :=
  let key := trim keyInput in
  let value := trim valueInput in
  if truthy key && truthy value then assign MANUAL_KANA_DICT key value
  else MANUAL_KANA_DICT.

(** [delete MANUAL_KANA_DICT[key]] *)
Definition deleteEntry (MANUAL_KANA_DICT : overrides) (key : jsstring)
  : overrides :=
  delete key MANUAL_KANA_DICT.

(** A unit of the range [katakanaToHiragana] replaces. *)
Definition isKatakana (c : N) : bool := (0x30A1 <=? c) && (c <=? 0x30F6).

End KanaRegistry.

(* ===================================================================== *)
(** * The tsunami pages of [updateFixedShindoBar] *)
(* ===================================================================== *)

Module FixedBar.

Import Aggregator Badges Pagination.

(** One entry of [FIXED_BAR_VIEWS], before the page numbers are set. *)
Record BarView := mkBarView {
  bar_type : jsstring;
  bar_shindo : jsstring;
  bar_line1 : jsstring;
  bar_line2 : jsstring;
  bar_shindoClass : jsstring
}.

(** A value in a template literal: [undefined] is written out. *)
Definition templateOf (v : option jsstring) : jsstring :=
  match v with
  | Some s => s
  | None => u16 "undefined"
  end.

(** The [switch] on [eq.tsunamiLabel]; the empty string where no case
    applies. *)
Definition tsunamiMessage (tsunamiLabel : jsstring) : jsstring :=
  if bool_decide (tsunamiLabel = u16 "大津波警報")
  then u16 "この地震で 大津波警報 が発表されています"
  else if bool_decide (tsunamiLabel = u16 "津波警報")
  then u16 "この地震で 津波警報 が発表されています"
  else if bool_decide (tsunamiLabel = u16 "津波注意報")
  then u16 "この地震で 津波注意報 が発表されています"
  else if bool_decide (tsunamiLabel = u16 "調査中")
  then u16 "現在 気象庁が調査中です"
  else if bool_decide (tsunamiLabel = u16 "津波なし")
  then u16 "この地震による津波の心配はありません"
  else [].

(** [eq.tsunamiClass]: the object [processEarthquake] returns has no
    property of this name, and nothing assigns one. *)
Definition eventTsunamiClass : option jsstring := None.

(** The tsunami page pushed after the summary pages, from
    [eq.tsunamiLabel] and [eq.tsunamiClass]. *)
Definition tsunamiSummaryViews (tsunamiLabel : jsstring)
  (tsunamiClass : option jsstring) : list BarView :=
  if truthy tsunamiLabel then
    let tsunamiMessage := tsunamiMessage tsunamiLabel in
    if truthy tsunamiMessage then
      let badge :=
        if bool_decide (tsunamiLabel = u16 "津波なし")
           || bool_decide (tsunamiLabel = u16 "調査中")
        then (u16 "津 波", u16 "tsunami-none")
        else (tsunamiLabel,
              templateOf tsunamiClass ++ u16 " tsunami-telop-badge") in
      [mkBarView (u16 "summary") badge.1 tsunamiMessage []
                 (or_else badge.2 (u16 "bg-gray-500 text-white"))]
    else []
  else [].

Section Areas.

Variable doesTextFitInTwoLines : jsstring -> bool.

(** The [for] loop of [createTsunamiAreaViews] with its buffer
    [pageAreas]; the result lists the buffers in the order they are
    pushed, the last one by the flush after the loop. *)
Fixpoint areaLoop (areas : list jsstring) (pageAreas : list jsstring)
  : list (list jsstring) :=
  match areas with
  | [] =>
      if (0 <? length pageAreas)%nat then [pageAreas] else []
  | area :: rest =>
      let testAreas := pageAreas ++ [area] in
      let testHtml := join wideSpace testAreas in
      if negb (doesTextFitInTwoLines testHtml)
         && (0 <? length pageAreas)%nat
      then pageAreas :: areaLoop rest [area]
      else areaLoop rest (pageAreas ++ [area])
  end.

(** [createTsunamiAreaViews(areas, title, badgeClass)]: the views it
    pushes. *)
Definition createTsunamiAreaViews (areas : list jsstring)
  (title badgeClass : jsstring) : list BarView :=
  if (length areas =? 0)%nat then []
  else
    map (fun pageAreas =>
           mkBarView (u16 "summary") title (join wideSpace pageAreas) []
                     (badgeClass ++ u16 " tsunami-telop-badge"))
        (areaLoop areas []).

(** The three calls, in the order of the statements. *)
Definition tsunamiAreaViews (tsunamiForecastAreas : option ForecastsByGrade)
  : list BarView :=
  match tsunamiForecastAreas with
  | None => []
  | Some f =>
      createTsunamiAreaViews (areasMajorWarning f) (u16 "大津波警報")
                             (u16 "tsunami-major-warning")
      ++ createTsunamiAreaViews (areasWarning f) (u16 "津波警報")
                                (u16 "tsunami-warning-detailed")
      ++ createTsunamiAreaViews (areasAdvisory f) (u16 "津波注意報")
                                (u16 "tsunami-advisory")
  end.

(** Whether a page of areas passes the measurement it was built with. *)
Definition areasFit (page : list jsstring) : bool :=
  doesTextFitInTwoLines (join wideSpace page).

End Areas.

End FixedBar.

(* ===================================================================== *)
(** * The page cycle of [startAutoplay] *)
(* ===================================================================== *)

Module Autoplay.

(** The variables the interval callback reads and writes;
    [autoplayIntervalId] is kept as whether the interval is set. *)
Record PlayState := mkPlayState {
  isAutoplaying : bool;
  CURRENT_SHINDO_INDEX : Z;
  autoplayLoopCounter : Z;
  autoplayIntervalId : bool
}.

(** What a run of the callback puts on the bar:
    [FIXED_BAR_VIEWS[CURRENT_SHINDO_INDEX]] or the end view. *)
Inductive Shown :=
| ShowView (index : Z)
| ShowEnd.

(** [totalLoops !== Infinity && autoplayLoopCounter >= totalLoops];
    [totalLoops] is [None] for [Infinity] and for [NaN]. *)
Definition loopsDone (totalLoops : option Z) (autoplayLoopCounter : Z) : bool :=
  match totalLoops with
  | Some n => (n <=? autoplayLoopCounter)%Z
  | None => false
  end.

(** One run of the interval callback, [views] being
    [FIXED_BAR_VIEWS.length]. *)
Definition tick (views : nat) (totalLoops : option Z) (st : PlayState)
  : PlayState * option Shown :=
  if negb (isAutoplaying st) then (st, None)
  else if (CURRENT_SHINDO_INDEX st <? Z.of_nat views - 1)%Z then
    let index := (CURRENT_SHINDO_INDEX st + 1)%Z in
    (mkPlayState (isAutoplaying st) index (autoplayLoopCounter st)
                 (autoplayIntervalId st),
     Some (ShowView index))
  else
    let counter := (autoplayLoopCounter st + 1)%Z in
    if loopsDone totalLoops counter then
      (mkPlayState (isAutoplaying st) (CURRENT_SHINDO_INDEX st) counter false,
       Some ShowEnd)
    else
      (mkPlayState (isAutoplaying st) 0 counter (autoplayIntervalId st),
       Some (ShowView 0)).

(** [startAutoplay]: the state when the interval is set, [None] when
    the guard returns. *)
Definition startAutoplay (views : nat) (st : PlayState) : option PlayState :=
  if isAutoplaying st || (views <=? 1)%nat then None
  else Some (mkPlayState true (-1) 0 true).

(** What the first [n] firings of the timer show; a cleared interval
    fires no more. *)
Fixpoint firings (views : nat) (totalLoops : option Z) (n : nat)
  (st : PlayState) : list Shown :=
  match n with
  | O => []
  | S n' =>
      if autoplayIntervalId st then
        let (st', shown) := tick views totalLoops st in
        match shown with
        | Some s => s :: firings views totalLoops n' st'
        | None => firings views totalLoops n' st'
        end
      else []
  end.

(** The pages of one pass, first to last. *)
Definition pass (views : nat) : list Shown :=
  map (fun i => ShowView (Z.of_nat i)) (seq 0 views).

(** What autoplay shows in its first [n] firings, started from a stopped
    player. *)
Definition autoplay (views : nat) (totalLoops : option Z) (n : nat)
  : list Shown :=
  match startAutoplay views (mkPlayState false 0 0 false) with
  | Some st => firings views totalLoops n st
  | None => []
  end.

End Autoplay.

(* ===================================================================== *)
(** * The change test of [refreshData] *)
(* ===================================================================== *)

Module Refresh.

Import Digest Aggregator.

(** [a < b] on strings: by code units, a proper prefix first. *)
Fixpoint lessThan (a b : jsstring) : bool :=
  match a, b with
  | _, [] => false
  | [], _ :: _ => true
  | x :: a', y :: b' =>
      if x <? y then true
      else if y <? x then false
      else lessThan a' b'
  end.

(** [ids.sort()]: ascending by code units, equal strings keep their
    order. *)
Fixpoint insertAscending (x : jsstring) (l : list jsstring) : list jsstring :=
  match l with
  | [] => [x]
  | y :: l' =>
      if lessThan y x then y :: insertAscending x l'
      else x :: y :: l'
  end.

Definition sortAscending (l : list jsstring) : list jsstring :=
  foldr insertAscending [] l.

Definition backslash : N := 0x5C.

(** [\uXXXX] with four lowercase hexadecimal digits. *)
Definition unicodeEscape (c : N) : jsstring :=
  [backslash; 0x75]
    ++ map hexDigit [c / 4096; (c / 256) mod 16; (c / 16) mod 16; c mod 16].

(** The text between the quotes of a JSON string: the short escapes,
    [\u] escapes for the other control characters and for surrogates
    without a partner, everything else as it is. *)
Fixpoint quoteUnits (s : jsstring) : jsstring :=
  match s with
  | [] => []
  | c :: rest =>
      if c =? 0x08 then [backslash; 0x62] ++ quoteUnits rest
      else if c =? 0x09 then [backslash; 0x74] ++ quoteUnits rest
      else if c =? 0x0A then [backslash; 0x6E] ++ quoteUnits rest
      else if c =? 0x0C then [backslash; 0x66] ++ quoteUnits rest
      else if c =? 0x0D then [backslash; 0x72] ++ quoteUnits rest
      else if c =? dquote then [backslash; dquote] ++ quoteUnits rest
      else if c =? backslash then [backslash; backslash] ++ quoteUnits rest
      else if c <? 0x20 then unicodeEscape c ++ quoteUnits rest
      else if isHighSurrogate c then
        match rest with
        | d :: rest' =>
            if isLowSurrogate d then c :: d :: quoteUnits rest'
            else unicodeEscape c ++ quoteUnits rest
        | [] => unicodeEscape c
        end
      else if isLowSurrogate c then unicodeEscape c ++ quoteUnits rest
      else c :: quoteUnits rest
  end.

(** [JSON.stringify(s)] for a string. *)
Definition quoteJSON (s : jsstring) : jsstring :=
  [dquote] ++ quoteUnits s ++ [dquote].

(** [JSON.stringify(ids)] for an array of strings. *)
Definition stringify (ids : list jsstring) : jsstring :=
  u16 "[" ++ join (u16 ",") (map quoteJSON ids) ++ u16 "]".

(** [hasChanged] of [refreshData]. *)
Definition hasChanged (PROCESSED_EARTHQUAKES earthquakes : list Event) : bool :=
  let idsBefore := sortAscending (map id PROCESSED_EARTHQUAKES) in
  let idsAfter := sortAscending (map id earthquakes) in
  negb (bool_decide (stringify idsBefore = stringify idsAfter)).

(** Whether [refreshData] schedules autoplay, [isAutoplaying] being the
    flag when the test runs. *)
Definition schedulesAutoplay (isAutoplaying : bool)
  (PROCESSED_EARTHQUAKES earthquakes : list Event) : bool :=
  hasChanged PROCESSED_EARTHQUAKES earthquakes && negb isAutoplaying
  && (0 <? length earthquakes)%nat.

End Refresh.

(* ===================================================================== *)
(** * The magnitude text of [processEarthquake] *)
(* ===================================================================== *)

Module Display.

Import Aggregator.



(** The number a string of decimal digits denotes. *)
Definition valueOf (digits : jsstring) : N :=
  fold_left (fun v c => 10 * v + (c - 0x30)) digits 0.





End Display.

(* ===================================================================== *)
(** * The queue of early warnings *)
(* ===================================================================== *)

Module Eew.

(** A report of code 554, as far as the queue reads it: its [id]
    ([None] when absent) and whether it has an [earthquake] object. *)
Record EewData := mkEewData {
  eew_id : option jsstring;
  has_earthquake : bool
}.

(** The variables of the display cycle. [eewDisplayIntervalId] is the
    variable, which keeps its value when the interval is cleared;
    [intervalRunning] is whether that interval still fires.
    [alertShown] is the entry whose text the alert shows, [None] while
    the alert is hidden. *)
Record EewState := mkEewState {
  eewQueue : list EewData;
  currentEewIndex : nat;
  eewDisplayIntervalId : bool;
  intervalRunning : bool;
  clearTimeoutPending : bool;
  alertShown : option EewData
}.

Definition initialEewState : EewState :=
  mkEewState [] 0 false false false None.

(** [startEewDisplayCycle], with both elements of the alert present. *)
Definition startEewDisplayCycle (st : EewState) : EewState :=
  (* clearInterval, the variable is left as it is *)
  let running1 :=
    if (1 <? length (eewQueue st))%nat && eewDisplayIntervalId st
    then false else intervalRunning st in
  (* the first entry is shown at once *)
  let shown :=
    match eewQueue st with
    | first :: _ => Some first
    | [] => alertShown st
    end in
  (* setInterval, only while the variable is empty *)
  let started := negb (eewDisplayIntervalId st) in
  mkEewState (eewQueue st) 0
             (if started then true else eewDisplayIntervalId st)
             (if started then true else running1)
             true shown.

(** [handleEew(eewData)]: the state after the call and whether the
    notification sound is started, [soundOn] being
    [playEewSound && eewAudioObject]. *)
Definition handleEew (soundOn : bool) (st : EewState) (eewData : EewData)
  : EewState * bool :=
  if negb (has_earthquake eewData) then (st, false)
  else if existsb (fun e => bool_decide (eew_id e = eew_id eewData))
                  (eewQueue st)
  then (st, soundOn)
  else
    (startEewDisplayCycle
       (mkEewState (eewQueue st ++ [eewData]) (currentEewIndex st)
                   (eewDisplayIntervalId st) (intervalRunning st)
                   (clearTimeoutPending st) (alertShown st)),
     soundOn).

(** The callback of the ten-second interval. *)
Definition rotate (st : EewState) : EewState :=
  if (1 <? length (eewQueue st))%nat then
    let index := (S (currentEewIndex st) mod length (eewQueue st))%nat in
    mkEewState (eewQueue st) index (eewDisplayIntervalId st)
               (intervalRunning st) (clearTimeoutPending st)
               (eewQueue st !! index)
  else st.

(** [stopEewDisplayCycle] *)
Definition stopEewDisplayCycle (st : EewState) : EewState :=
  mkEewState [] (currentEewIndex st) false false false None.

(** What can happen to the cycle: a fetch hands over a warning, the
    interval fires, the sixty-second timeout fires. A timer that is not
    set does not fire. *)
Inductive EewEvent :=
| Warned (soundOn : bool) (eewData : EewData)
| IntervalFired
| TimeoutFired.

Definition eewStep (st : EewState) (ev : EewEvent) : EewState :=
  match ev with
  | Warned soundOn eewData => (handleEew soundOn st eewData).1
  | IntervalFired => if intervalRunning st then rotate st else st
  | TimeoutFired => if clearTimeoutPending st then stopEewDisplayCycle st
                    else st
  end.

Definition eewRun (events : list EewEvent) : EewState :=
  fold_left eewStep events initialEewState.

End Eew.

(* ===================================================================== *)
(** * [buildKanaDictionary] *)
(* ===================================================================== *)

Module KanaBuild.

Import Kana Aggregator Display.

(** An object as the list of its own properties in creation order, the
    keys without repetition. *)
Abbreviation store V := (list (jsstring * V)).

Definition isDigit (c : N) : bool := (0x30 <=? c) && (c <=? 0x39).

(** The index a key is, for the keys that are array indices: the
    decimal numerals without a leading zero up to 2^32 - 2. *)
Definition arrayIndex (key : jsstring) : option N :=
  match key with
  | [] => None
  | c :: rest =>
      if forallb isDigit key
         && (negb (c =? 0x30) || (length rest =? 0)%nat)
         && (valueOf key <=? 4294967294)
      then Some (valueOf key) else None
  end.

Definition isIndex (key : jsstring) : bool :=
  match arrayIndex key with Some _ => true | None => false end.

Definition indexValue (key : jsstring) : N :=
  match arrayIndex key with Some n => n | None => 0 end.

(** Ascending by index; used on keys that are indices. *)
Fixpoint insertByIndex {V} (x : jsstring * V) (l : store V) : store V :=
  match l with
  | [] => [x]
  | y :: l' =>
      if indexValue y.1 <? indexValue x.1 then y :: insertByIndex x l'
      else x :: y :: l'
  end.

(** The own properties in the order every enumeration of an object
    visits them: the array indices ascending, then the other keys in
    creation order. *)
Definition ownProperties {V} (o : store V) : store V :=
  foldr insertByIndex [] (List.filter (fun kv => isIndex kv.1) o)
  ++ List.filter (fun kv => negb (isIndex kv.1)) o.

(** An object read from JSON text: the members in text order, a repeated
    key replacing the value of its first occurrence. *)
Definition parsed {V} (members : list (jsstring * V)) : store V :=
  fold_left (fun o kv => mapSet kv.1 kv.2 o) members [].

(** [{...target, ...source}]: the properties of [source] are copied in
    their enumeration order. *)
Definition spread {V} (target source : store V) : store V :=
  fold_left (fun o kv => mapSet kv.1 kv.2 o) (ownProperties source) target.

(** A value of [centers], [offices] or [class20s]; [name] and [kana] are
    strings, empty when absent. *)
Record Area := mkArea {
  area_label : jsstring;   (* area.name *)
  area_kana : jsstring
}.

#[global] Instance Area_eq_dec : EqDecision Area.
Proof. solve_decision. Defined.

(** The three sections of [area.json], each the members of its object
    in text order; a member whose value is [null] is [None]. *)
Record AreaFile := mkAreaFile {
  centers : list (jsstring * option Area);
  offices : list (jsstring * option Area);
  class20s : list (jsstring * option Area)
}.

(** [areasToParse] *)
Definition areasToParse (data : AreaFile) : store (option Area) :=
  spread (spread (spread [] (parsed (centers data))) (parsed (offices data)))
         (parsed (class20s data)).

Definition protoName : jsstring := u16 "__proto__".

(** [newDict[key] = value] for a string [value]: the object gets or
    changes an own property, except that without an own property of that
    name [__proto__] is the accessor of [Object.prototype], which ignores
    a string. *)
Definition assignTo (newDict : store jsstring) (key value : jsstring)
  : store jsstring :=
  if bool_decide (key = protoName) && negb (isSet (mapGet key newDict))
  then newDict
  else mapSet key value newDict.

(** The body of [Object.values(areasToParse).forEach]; reading a
    property of [null] throws. *)
Definition addArea (newDict : result (store jsstring)) (area : option Area)
  : result (store jsstring) :=
  d ← newDict;
  match area with
  | None => Throw
  | Some a =>
      if truthy (area_label a) && truthy (area_kana a)
      then Ok (assignTo d (area_label a) (area_kana a))
      else Ok d
  end.

Definition newDictOf (data : AreaFile) : result (store jsstring) :=
  fold_left addArea (map snd (ownProperties (areasToParse data))) (Ok []).

(** [buildKanaDictionary]: the dictionary after the call. [response]
    is [None] when the request fails or its body is not the expected
    JSON; every failure is caught and leaves [KANA_DICT] as it was. *)
Definition buildKanaDictionary (KANA_DICT : dictionary)
  (response : option AreaFile) : dictionary :=
  match response with
  | None => KANA_DICT
  | Some data =>
      match newDictOf data with
      | Ok newDict => ownProperties newDict
      | Throw => KANA_DICT
      end
  end.

(** The areas in the order the loop visits them. *)
Definition visited (data : AreaFile) : list (option Area) :=
  map snd (ownProperties (areasToParse data)).

(** The areas that give an entry: those with a name and a reading,
    the name [__proto__] apart. *)
Definition givesEntry (a : Area) : bool :=
  truthy (area_label a) && truthy (area_kana a)
  && negb (bool_decide (area_label a = protoName)).

Definition named (areas : list (option Area)) : list Area :=
  omap (fun area => match area with
                    | Some a => if givesEntry a then Some a else None
                    | None => None
                    end) areas.

End KanaBuild.

(* ===================================================================== *)
(** * Properties of the page loop *)
(* ===================================================================== *)

Module PaginationSpec.

Import Pagination.

Section Loop.

Variable doesTextFitInTwoLines : jsstring -> bool.

Local Abbreviation pageLoop := (pageLoop doesTextFitInTwoLines).
Local Abbreviation paginate := (paginate doesTextFitInTwoLines).
Local Abbreviation fits := (fits doesTextFitInTwoLines).

Lemma includes_unit (s : jsstring) (c : N) :
  includes s [c] = true → c ∈ s.
Proof.
  unfold includes. induction s as [|d s IH]; simpl; [done|].
  destruct (c =? d) eqn:Hc; simpl.
  - apply N.eqb_eq in Hc as ->. intros _. left.
  - destruct (indexOf s [c]); simpl; [|done]. intros _. right. by apply IH.
Qed.

Lemma cityName_plain (city : jsstring) :
  underscore ∉ city → cityName city = city.
Proof.
  intros Hplain. unfold cityName.
  destruct (includes city [underscore]) eqn:Hinc; [|done].
  by apply includes_unit in Hinc.
Qed.

Lemma pageLoop_concat (cities pageCities : list jsstring) :
  concat (pageLoop cities pageCities) = pageCities ++ map cityName cities.
Proof.
  revert pageCities.
  induction cities as [|city rest IH]; intros pageCities; simpl.
  - destruct pageCities; simpl; by rewrite ?app_nil_r.
  - destruct (negb _ && _); simpl; rewrite IH; simpl; [done|].
    by rewrite <- app_assoc.
Qed.

Lemma pageLoop_pages_nonempty (cities pageCities : list jsstring) :
  Forall (fun page => (0 < length page)%nat) (pageLoop cities pageCities).
Proof.
  revert pageCities.
  induction cities as [|city rest IH]; intros pageCities; simpl.
  - destruct pageCities; simpl; [constructor|].
    constructor; [simpl; lia|constructor].
  - destruct (doesTextFitInTwoLines _); simpl; [apply IH|].
    destruct pageCities as [|c cs]; simpl; [apply IH|].
    constructor; [simpl; lia|apply IH].
Qed.

Local Abbreviation acceptable := (acceptable doesTextFitInTwoLines).

Lemma acceptable_singleton (item : jsstring) : acceptable [item].
Proof.
  unfold acceptable. destruct (fits [item]) eqn:E; [by left|right; eauto].
Qed.

Lemma pageLoop_acceptable (cities pageCities : list jsstring) :
  pageCities = [] ∨ acceptable pageCities →
  Forall acceptable (pageLoop cities pageCities).
Proof.
  revert pageCities.
  induction cities as [|city rest IH]; intros pageCities Hbuf; simpl.
  - destruct pageCities; simpl; [constructor|].
    constructor; [|constructor]. by destruct Hbuf.
  - destruct (doesTextFitInTwoLines (pageHtml (pageCities ++ [cityName city])))
      eqn:Efit; simpl.
    + apply IH. right. by left.
    + destruct pageCities as [|c cs]; simpl.
      * apply IH. right. apply acceptable_singleton.
      * constructor.
        -- by destruct Hbuf.
        -- apply IH. right. apply acceptable_singleton.
Qed.

Lemma length_concat_pages (pages : list (list jsstring)) :
  Forall (fun page => (0 < length page)%nat) pages →
  (length pages <= length (concat pages))%nat.
Proof.
  induction 1 as [|page pages Hpage _ IH]; simpl; [lia|].
  rewrite length_app. lia.
Qed.

(** C9, as the script has it. For every list of entries and every
    measurement, the pages are made of whole items: the page texts are
    the joined spans of the pages' items, every page holds at least one
    item, and the empty list gives no page. The items are the displayed
    names of the entries, not the entries: the pages concatenated in
    order are exactly the displayed names of the input in input order,
    which is the input itself only where its entries have no key
    prefix. *)
Theorem paginate_keeps_items (shindo : jsstring) (cities : list jsstring) :
  concat (paginate cities) = map cityName cities
  ∧ (Forall (fun city => underscore ∉ city) cities →
     concat (paginate cities) = cities)
  ∧ Forall (fun page => (0 < length page)%nat) (paginate cities)
  ∧ map view_line1 (groupViews doesTextFitInTwoLines shindo cities)
    = map pageHtml (paginate cities)
  ∧ paginate [] = [].
Proof.
  split; [apply (pageLoop_concat cities [])|].
  split.
  { intros Hplain. unfold Pagination.paginate.
    rewrite (pageLoop_concat cities []). simpl.
    induction Hplain as [|city rest Hcity _ IH]; simpl; [done|].
    by rewrite IH, cityName_plain. }
  split; [apply pageLoop_pages_nonempty|].
  split; [|done].
  unfold groupViews. rewrite map_map. by apply map_ext.
Qed.

(** C10. Every page produced by the greedy loop passes the measurement,
    except possibly a page of exactly one item that does not pass alone;
    a single item always gets a page of its own whatever the measurement
    says, and the loop ends with at most one page per item. *)
Theorem paginate_pages_fit (cities : list jsstring) :
  Forall (fun page =>
            fits page = true ∨ ∃ item, page = [item] ∧ fits [item] = false)
         (paginate cities)
  ∧ (∀ city, paginate [city] = [[cityName city]])
  ∧ (length (paginate cities) <= length cities)%nat.
Proof.
  split; [apply pageLoop_acceptable; by left|].
  split.
  - intros city. unfold Pagination.paginate. simpl.
    by rewrite andb_false_r.
  - pose proof (pageLoop_concat cities []) as Hconcat. simpl in Hconcat.
    rewrite <- (length_map cityName cities), <- Hconcat.
    apply length_concat_pages, pageLoop_pages_nonempty.
Qed.

End Loop.

(** C9 as stated fails for the keys the loop is run on: an entry
    "prefecture_municipality" is shown by its municipality part, so the
    pages put together are not the input list, whatever the measurement
    says. *)
Lemma paginate_shows_names_not_keys :
  let key := u16 "宮城県_仙台市青葉区" in
  concat (Pagination.paginate (fun _ => true) [key]) = [u16 "仙台市青葉区"]
  ∧ concat (Pagination.paginate (fun _ => false) [key]) = [u16 "仙台市青葉区"]
  ∧ concat (Pagination.paginate (fun _ => true) [key]) ≠ [key]
  ∧ ¬ (∀ (doesTextFitInTwoLines : jsstring → bool) (cities : list jsstring),
         concat (Pagination.paginate doesTextFitInTwoLines cities) = cities).
Proof.
  assert (concat (Pagination.paginate (fun _ => true)
                    [u16 "宮城県_仙台市青葉区"])
          ≠ [u16 "宮城県_仙台市青葉区"]) as Hne.
  { vm_compute. discriminate. }
  cbv zeta. split; [by vm_compute|]. split; [by vm_compute|].
  split; [exact Hne|]. intros Hall. by apply Hne, Hall.
Qed.

End PaginationSpec.

(* ===================================================================== *)
(** * Properties of the reading lookup *)
(* ===================================================================== *)

Module KanaSpec.

Import Kana.

Lemma truthy_nonempty (s : jsstring) : s ≠ [] → truthy s = true.
Proof. by destruct s. Qed.

Lemma getProperty_undefined (KANA_DICT : dictionary) (name : jsstring) :
  ownProperty KANA_DICT name = None →
  name ∉ objectPrototypeNames →
  getProperty KANA_DICT name = Undefined.
Proof.
  intros Hown Hproto. unfold getProperty. rewrite Hown.
  by rewrite bool_decide_eq_false_2.
Qed.

(** C6, as the script has it. For every non-empty key, and an override
    table without an entry named hasOwnProperty: an entry for the exact
    key is returned as it is, the empty string included, whatever the base
    dictionary holds; without an entry, when neither the looked-up name
    nor that name without its full-width parenthesised parts is a key of
    the base dictionary (nor the name of a property every object
    inherits), the result is the empty string and nothing is thrown. For
    the empty key the result is the empty string whatever the two tables
    hold. *)
Theorem getKana_override_first (MANUAL_KANA_DICT : overrides)
  (KANA_DICT : dictionary) (kanji : jsstring) :
  kanji ≠ [] →
  MANUAL_KANA_DICT !! u16 "hasOwnProperty" = None →
  (∀ reading, MANUAL_KANA_DICT !! kanji = Some reading →
              getKana MANUAL_KANA_DICT KANA_DICT kanji = Ok reading)
  ∧ (MANUAL_KANA_DICT !! kanji = None →
     ownProperty KANA_DICT (municipalityOf kanji) = None →
     ownProperty KANA_DICT (Regex.replaceParens (municipalityOf kanji)) = None →
     municipalityOf kanji ∉ objectPrototypeNames →
     Regex.replaceParens (municipalityOf kanji) ∉ objectPrototypeNames →
     getKana MANUAL_KANA_DICT KANA_DICT kanji = Ok [])
  ∧ (∀ (overridden : overrides) (dict : dictionary),
       getKana overridden dict [] = Ok []).
Proof.
  intros Hkey Hshadow. unfold getKana.
  rewrite (truthy_nonempty _ Hkey), Hshadow. simpl.
  split; [|split].
  - intros reading ->. done.
  - intros -> Hown1 Hown2 Hproto1 Hproto2.
    rewrite (getProperty_undefined _ _ Hown1 Hproto1).
    rewrite (getProperty_undefined _ _ Hown2 Hproto2). done.
  - done.
Qed.

(** The override of the specification's example: an empty reading for
    福岡県_福岡市早良区 wins over the dictionary's reading of 福岡市早良区. *)
Lemma getKana_override_first_witness :
  getKana {[ u16 "福岡県_福岡市早良区" := [] ]}
          [(u16 "福岡市早良区", u16 "フクオカシサワラク")]
          (u16 "福岡県_福岡市早良区") = Ok []
  ∧ getKana ∅ [(u16 "福岡市早良区", u16 "フクオカシサワラク")]
            (u16 "福岡県_福岡市（旧）") = Ok [].
Proof.
  split.
  - apply (proj1 (getKana_override_first
                    {[ u16 "福岡県_福岡市早良区" := [] ]}
                    [(u16 "福岡市早良区", u16 "フクオカシサワラク")]
                    (u16 "福岡県_福岡市早良区")
                    ltac:(vm_compute; discriminate)
                    ltac:(vm_compute; reflexivity))).
    vm_compute; reflexivity.
  - apply (proj1 (proj2 (getKana_override_first
                             ∅ [(u16 "福岡市早良区", u16 "フクオカシサワラク")]
                             (u16 "福岡県_福岡市（旧）")
                             ltac:(vm_compute; discriminate)
                             ltac:(vm_compute; reflexivity)))).
    + vm_compute; reflexivity.
    + vm_compute; reflexivity.
    + vm_compute; reflexivity.
    + apply (bool_decide_eq_false_1 _). vm_compute; reflexivity.
    + apply (bool_decide_eq_false_1 _). vm_compute; reflexivity.
Defined.

(** C6 as stated fails at the empty key: the guard at the top of
    [getKana] answers before the override table is read. *)
Lemma getKana_empty_key_ignores_override :
  let MANUAL_KANA_DICT : overrides := {[ [] := u16 "から" ]} in
  MANUAL_KANA_DICT !! [] = Some (u16 "から")
  ∧ getKana MANUAL_KANA_DICT [] [] = Ok []
  ∧ getKana MANUAL_KANA_DICT [] [] ≠ Ok (u16 "から").
Proof. vm_compute. split; [done|]. split; [done|]. discriminate. Qed.

(** A looked-up name that is an inherited property of the dictionary
    object reaches [katakanaToHiragana] as a non-string and throws. *)
Lemma getKana_inherited_name_throws :
  getKana ∅ [] (u16 "福岡県_constructor") = Throw.
Proof. vm_compute. reflexivity. Qed.

(** An override entry named hasOwnProperty shadows the method the first
    test calls. *)
Lemma getKana_shadowed_method_throws :
  getKana {[ u16 "hasOwnProperty" := u16 "x" ]} [] (u16 "福岡県_福岡市") = Throw.
Proof. vm_compute. reflexivity. Qed.

Lemma getKana_reads_dictionary :
  getKana ∅ [(u16 "釧路市", u16 "クシロシ")] (u16 "北海道_釧路市（旧）")
  = Ok (u16 "くしろし").
Proof. vm_compute. reflexivity. Qed.

End KanaSpec.

(* ===================================================================== *)
(** * Properties of the municipality resolver *)
(* ===================================================================== *)

Module MunicipalitySpec.

Import Kana Municipality.

(** ** [find] *)

Lemma js_find_none {A} (p : A → bool) (l : list A) :
  Forall (fun x => p x = false) l → js_find p l = None.
Proof.
  induction 1 as [|x l Hx _ IH]; simpl; [done|]. by rewrite Hx.
Qed.

Lemma js_find_some {A} (p : A → bool) (l : list A) (x : A) :
  js_find p l = Some x →
  p x = true ∧ ∃ l1 l2, l = l1 ++ x :: l2 ∧ Forall (fun y => p y = false) l1.
Proof.
  induction l as [|y l IH]; simpl; [done|].
  destruct (p y) eqn:Hy.
  - intros [= ->]. split; [done|]. by exists [], l.
  - intros Hfind. destruct (IH Hfind) as (Hx & l1 & l2 & -> & Hl1).
    split; [done|]. exists (y :: l1), l2. split; [done|]. by constructor.
Qed.

Lemma js_find_is_some {A} (p : A → bool) (l : list A) (x : A) :
  x ∈ l → p x = true → is_Some (js_find p l).
Proof.
  induction 1 as [x l|x y l _ IH]; simpl; intros Hx.
  - rewrite Hx. eauto.
  - destruct (p y); eauto.
Qed.

(** The only element a [find] can return when every hit is [x]. *)
Lemma js_find_only {A} (p : A → bool) (l : list A) (x : A) :
  x ∈ l → p x = true → (∀ y, y ∈ l → p y = true → y = x) →
  js_find p l = Some x.
Proof.
  intros Hin Hx Honly.
  destruct (js_find_is_some p l x Hin Hx) as [y Hy].
  destruct (js_find_some _ _ _ Hy) as (Hpy & l1 & l2 & -> & _).
  rewrite Hy. f_equal. apply Honly; [|done].
  apply elem_of_app. right. left.
Qed.

(** ** The sort of the dictionary keys *)

Lemma insertByLength_perm (x : jsstring) (l : list jsstring) :
  insertByLength x l ≡ₚ x :: l.
Proof.
  induction l as [|y l IH]; simpl; [done|].
  destruct (length x <? length y)%nat; [|done].
  rewrite IH. apply Permutation_swap.
Qed.

Lemma sortByLengthDesc_perm (l : list jsstring) : sortByLengthDesc l ≡ₚ l.
Proof.
  induction l as [|x l IH]; simpl; [done|].
  rewrite insertByLength_perm. by rewrite IH.
Qed.

Lemma insertByLength_sorted (x : jsstring) (l : list jsstring) :
  StronglySorted longer l → StronglySorted longer (insertByLength x l).
Proof.
  induction 1 as [|y l Hsorted IH Hall]; simpl.
  - repeat constructor.
  - destruct (length x <? length y)%nat eqn:Hlt.
    + apply Nat.ltb_lt in Hlt. constructor; [done|].
      rewrite insertByLength_perm. constructor; [unfold longer; lia|done].
    + apply Nat.ltb_ge in Hlt. constructor; [by constructor|].
      constructor; [done|].
      eapply Forall_impl; [exact Hall|]. unfold longer. simpl. lia.
Qed.

Lemma sortByLengthDesc_sorted (l : list jsstring) :
  StronglySorted longer (sortByLengthDesc l).
Proof.
  induction l as [|x l IH]; simpl; [constructor|].
  by apply insertByLength_sorted.
Qed.

(** ** Prefixes *)

Lemma startsWith_take (s p : jsstring) :
  startsWith s p = true → p = take (length p) s.
Proof.
  revert s. induction p as [|c p IH]; intros [|d s]; simpl; try done.
  intros [Hc Hp]%andb_prop. apply N.eqb_eq in Hc. subst.
  f_equal. by apply IH.
Qed.

Lemma startsWith_same_length (s p q : jsstring) :
  startsWith s p = true → startsWith s q = true → length p = length q →
  p = q.
Proof.
  intros Hp%startsWith_take Hq%startsWith_take Hlen.
  rewrite Hp, Hq. by rewrite Hlen.
Qed.

(** The first prefix found in the sorted keys is the longest prefix
    among the keys. *)
Lemma forwardMatch_longest (KANA_DICT : dictionary)
  (remainingAddr key : jsstring) :
  key ∈ keys KANA_DICT →
  startsWith remainingAddr key = true →
  (∀ k, k ∈ keys KANA_DICT → startsWith remainingAddr k = true →
        (length k <= length key)%nat) →
  forwardMatch KANA_DICT remainingAddr = Some key.
Proof.
  intros Hin Hkey Hlongest. unfold forwardMatch.
  set (sorted := sortByLengthDesc (keys KANA_DICT)).
  assert (Hperm : sorted ≡ₚ keys KANA_DICT) by apply sortByLengthDesc_perm.
  assert (Hin' : key ∈ sorted) by by rewrite Hperm.
  destruct (js_find_is_some (fun k => startsWith remainingAddr k)
              sorted key Hin' Hkey) as [x Hx].
  rewrite Hx. f_equal.
  destruct (js_find_some _ _ _ Hx) as (Hpx & l1 & l2 & Hsplit & Hl1).
  assert (Hxin : x ∈ keys KANA_DICT).
  { rewrite <- Hperm, Hsplit. apply elem_of_app. right. left. }
  pose proof (Hlongest x Hxin Hpx) as Hle.
  apply (startsWith_same_length remainingAddr); [done..|].
  apply Nat.le_antisymm; [done|].
  rewrite Hsplit in Hin'.
  apply elem_of_app in Hin' as [Hin1|Hin2].
  - rewrite Forall_forall in Hl1. apply Hl1 in Hin1. congruence.
  - apply elem_of_cons in Hin2 as [->|Hin2]; [done|].
    pose proof (sortByLengthDesc_sorted (keys KANA_DICT)) as Hsorted.
    fold sorted in Hsorted. rewrite Hsplit in Hsorted.
    apply StronglySorted_app_1_r in Hsorted.
    apply StronglySorted_inv in Hsorted as [_ Hall].
    rewrite Forall_forall in Hall. by apply Hall.
Qed.

(** ** The ordered rules, one lemma per branch *)

Lemma truthy_true (s : jsstring) : s ≠ [] → truthy s = true.
Proof. by destruct s. Qed.

Local Abbreviation nonempty := ltac:(vm_compute; discriminate) (only parsing).

Section Branches.

Variable KANA_DICT : dictionary.
Variables addr pref : jsstring.
Hypothesis Haddr : addr ≠ [].
Hypothesis Hpref : pref ≠ [].

Lemma getMunicipality_guard_passed :
  negb (truthy addr) || negb (truthy pref) = false.
Proof. by rewrite !truthy_true. Qed.

Lemma getMunicipality_direct (key : jsstring) :
  found (directMatch KANA_DICT addr) = Some key →
  getMunicipality KANA_DICT addr pref = underscored pref key.
Proof.
  intros Hdirect. unfold getMunicipality.
  by rewrite getMunicipality_guard_passed, Hdirect.
Qed.

Lemma getMunicipality_cityAndWard (m : jsstring) :
  found (directMatch KANA_DICT addr) = None →
  Regex.cityAndWardRe (stripPrefecture addr pref) = Some m →
  getMunicipality KANA_DICT addr pref = underscored pref m.
Proof.
  intros Hdirect Hre. unfold getMunicipality.
  by rewrite getMunicipality_guard_passed, Hdirect, Hre.
Qed.

Lemma getMunicipality_gun (m : jsstring) :
  found (directMatch KANA_DICT addr) = None →
  Regex.cityAndWardRe (stripPrefecture addr pref) = None →
  Regex.gunRe (stripPrefecture addr pref) = Some m →
  getMunicipality KANA_DICT addr pref = underscored pref m.
Proof.
  intros Hdirect Hre1 Hre2. unfold getMunicipality.
  by rewrite getMunicipality_guard_passed, Hdirect, Hre1, Hre2.
Qed.

Lemma getMunicipality_forward (key : jsstring) :
  found (directMatch KANA_DICT addr) = None →
  Regex.cityAndWardRe (stripPrefecture addr pref) = None →
  Regex.gunRe (stripPrefecture addr pref) = None →
  found (forwardMatch KANA_DICT (stripPrefecture addr pref)) = Some key →
  getMunicipality KANA_DICT addr pref = underscored pref key.
Proof.
  intros Hdirect Hre1 Hre2 Hforward. unfold getMunicipality.
  by rewrite getMunicipality_guard_passed, Hdirect, Hre1, Hre2, Hforward.
Qed.

Lemma getMunicipality_suffix (m : jsstring) :
  found (directMatch KANA_DICT addr) = None →
  Regex.cityAndWardRe (stripPrefecture addr pref) = None →
  Regex.gunRe (stripPrefecture addr pref) = None →
  found (forwardMatch KANA_DICT (stripPrefecture addr pref)) = None →
  Regex.cityTownVillageRe (stripPrefecture addr pref) = Some m →
  getMunicipality KANA_DICT addr pref = underscored pref m.
Proof.
  intros Hdirect Hre1 Hre2 Hforward Hre3. unfold getMunicipality.
  by rewrite getMunicipality_guard_passed, Hdirect, Hre1, Hre2, Hforward,
       Hre3.
Qed.

Lemma getMunicipality_none :
  noHeuristicMatches KANA_DICT addr pref →
  getMunicipality KANA_DICT addr pref = underscored pref addr.
Proof.
  intros (Hdirect & Hre1 & Hre2 & Hforward & Hre3). unfold getMunicipality.
  by rewrite getMunicipality_guard_passed, Hdirect, Hre1, Hre2, Hforward,
       Hre3.
Qed.

End Branches.

Lemma directMatch_none (KANA_DICT : dictionary) (addr : jsstring) :
  Forall (fun k => directHit addr k = false) (keys KANA_DICT) →
  found (directMatch KANA_DICT addr) = None.
Proof.
  intros Hall. unfold directMatch. by rewrite js_find_none.
Qed.

Lemma directMatch_only (KANA_DICT : dictionary) (addr key : jsstring) :
  key ≠ [] → key ∈ keys KANA_DICT → directHit addr key = true →
  Forall (fun k => directHit addr k = true → k = key) (keys KANA_DICT) →
  found (directMatch KANA_DICT addr) = Some key.
Proof.
  intros Hne Hin Hhit Hall. unfold directMatch.
  rewrite (js_find_only _ _ key); [|done..|].
  - simpl. by rewrite truthy_true.
  - rewrite Forall_forall in Hall. exact Hall.
Qed.

(** C8, as the script has it. For a non-empty address and a non-empty
    prefecture for which no heuristic matches, the result is the
    prefecture, an underscore and the address as it was given; when the
    address or the prefecture is empty, the guard at the top substitutes
    観測点名不明 for the address and 不明 for the prefecture. The resolver
    is a total function of its three arguments. *)
Theorem getMunicipality_passthrough (KANA_DICT : dictionary)
  (addr pref : jsstring) :
  (addr ≠ [] → pref ≠ [] → noHeuristicMatches KANA_DICT addr pref →
   getMunicipality KANA_DICT addr pref = underscored pref addr)
  ∧ (addr = [] ∨ pref = [] →
     getMunicipality KANA_DICT addr pref
     = underscored (or_else pref (u16 "不明"))
                   (or_else addr (u16 "観測点名不明"))).
Proof.
  split.
  - intros Haddr Hpref Hnone. by apply getMunicipality_none.
  - intros Hempty. unfold getMunicipality.
    destruct Hempty as [-> | ->]; simpl; [done|].
    by rewrite orb_true_r.
Qed.

Lemma getMunicipality_passthrough_witness :
  getMunicipality [(u16 "釧路市", u16 "クシロシ")] (u16 "富士山頂") (u16 "静岡県")
  = u16 "静岡県_富士山頂"
  ∧ getMunicipality [(u16 "釧路市", u16 "クシロシ")] [] (u16 "静岡県")
    = u16 "静岡県_観測点名不明".
Proof.
  split.
  - apply (proj1 (getMunicipality_passthrough
                    [(u16 "釧路市", u16 "クシロシ")]
                    (u16 "富士山頂") (u16 "静岡県"))).
    + vm_compute; discriminate.
    + vm_compute; discriminate.
    + vm_compute. repeat split; reflexivity.
  - apply (proj2 (getMunicipality_passthrough
                    [(u16 "釧路市", u16 "クシロシ")] [] (u16 "静岡県"))).
    left; reflexivity.
Defined.

(** C8 as stated fails at the empty address: no heuristic matches it, and
    the result is not the prefecture followed by the unchanged address. *)
Lemma getMunicipality_empty_address :
  noHeuristicMatches [] [] (u16 "東京都")
  ∧ getMunicipality [] [] (u16 "東京都") = u16 "東京都_観測点名不明"
  ∧ getMunicipality [] [] (u16 "東京都") ≠ underscored (u16 "東京都") [].
Proof.
  split; [vm_compute; repeat split; reflexivity|].
  split; [vm_compute; reflexivity|].
  vm_compute. discriminate.
Qed.

(** C7, as the script has it. The four results of the specification,
    each for every dictionary in which no other key interferes with the
    branch named: 釧路市 is a key and the only key the first rule finds in
    北海道釧路市; the first rule finds no key in 仙台市宮城野区, none in
    北海道空知郡南幌町; 栃木市 is a key, the first rule finds no key in
    栃木市入舟町 and no longer key starts that address. Each result is
    reached by the branch the specification names. *)
Theorem getMunicipality_examples (KANA_DICT : dictionary) :
  (u16 "釧路市" ∈ keys KANA_DICT →
   Forall (fun k => directHit (u16 "北海道釧路市") k = true → k = u16 "釧路市")
          (keys KANA_DICT) →
   getMunicipality KANA_DICT (u16 "北海道釧路市") (u16 "北海道")
   = u16 "北海道_釧路市"
   ∧ found (directMatch KANA_DICT (u16 "北海道釧路市")) = Some (u16 "釧路市"))
  ∧ (Forall (fun k => directHit (u16 "仙台市宮城野区") k = false)
            (keys KANA_DICT) →
     getMunicipality KANA_DICT (u16 "仙台市宮城野区") (u16 "宮城県")
     = u16 "宮城県_仙台市宮城野区"
     ∧ found (directMatch KANA_DICT (u16 "仙台市宮城野区")) = None
     ∧ Regex.cityAndWardRe (stripPrefecture (u16 "仙台市宮城野区") (u16 "宮城県"))
       = Some (u16 "仙台市宮城野区"))
  ∧ (Forall (fun k => directHit (u16 "北海道空知郡南幌町") k = false)
            (keys KANA_DICT) →
     getMunicipality KANA_DICT (u16 "北海道空知郡南幌町") (u16 "北海道")
     = u16 "北海道_空知郡南幌町"
     ∧ found (directMatch KANA_DICT (u16 "北海道空知郡南幌町")) = None
     ∧ Regex.cityAndWardRe
         (stripPrefecture (u16 "北海道空知郡南幌町") (u16 "北海道")) = None
     ∧ Regex.gunRe (stripPrefecture (u16 "北海道空知郡南幌町") (u16 "北海道"))
       = Some (u16 "空知郡南幌町"))
  ∧ (u16 "栃木市" ∈ keys KANA_DICT →
     Forall (fun k => directHit (u16 "栃木市入舟町") k = false)
            (keys KANA_DICT) →
     Forall (fun k => startsWith (u16 "栃木市入舟町") k = true →
                      (length k <= 3)%nat)
            (keys KANA_DICT) →
     getMunicipality KANA_DICT (u16 "栃木市入舟町") (u16 "栃木県")
     = u16 "栃木県_栃木市"
     ∧ found (directMatch KANA_DICT (u16 "栃木市入舟町")) = None
     ∧ Regex.cityAndWardRe (stripPrefecture (u16 "栃木市入舟町") (u16 "栃木県"))
       = None
     ∧ Regex.gunRe (stripPrefecture (u16 "栃木市入舟町") (u16 "栃木県")) = None
     ∧ found (forwardMatch KANA_DICT
                (stripPrefecture (u16 "栃木市入舟町") (u16 "栃木県")))
       = Some (u16 "栃木市")).
Proof.
  split; [|split; [|split]].
  - intros Hkushiro Honly.
    assert (H1 : found (directMatch KANA_DICT (u16 "北海道釧路市"))
                 = Some (u16 "釧路市")).
    { apply directMatch_only; [by vm_compute|done|by vm_compute|done]. }
    split; [|done].
    rewrite (getMunicipality_direct KANA_DICT (u16 "北海道釧路市")
               (u16 "北海道") nonempty nonempty _ H1).
    by vm_compute.
  - intros Hquiet. pose proof (directMatch_none _ _ Hquiet) as H2.
    split; [|split; [done|by vm_compute]].
    rewrite (getMunicipality_cityAndWard KANA_DICT (u16 "仙台市宮城野区")
               (u16 "宮城県") nonempty nonempty (u16 "仙台市宮城野区") H2);
      by vm_compute.
  - intros Hquiet. pose proof (directMatch_none _ _ Hquiet) as H3.
    split; [|split; [done|split; by vm_compute]].
    rewrite (getMunicipality_gun KANA_DICT (u16 "北海道空知郡南幌町")
               (u16 "北海道") nonempty nonempty (u16 "空知郡南幌町") H3);
      by vm_compute.
  - intros Htochigi Hquiet Hlongest.
    pose proof (directMatch_none _ _ Hquiet) as H4.
    assert (H4f : found (forwardMatch KANA_DICT
                    (stripPrefecture (u16 "栃木市入舟町") (u16 "栃木県")))
                  = Some (u16 "栃木市")).
    { rewrite (forwardMatch_longest _ _ (u16 "栃木市")).
      - by vm_compute.
      - done.
      - by vm_compute.
      - rewrite Forall_forall in Hlongest. exact Hlongest. }
    split; [|split; [done|split; [by vm_compute|split; [by vm_compute|done]]]].
    rewrite (getMunicipality_forward KANA_DICT (u16 "栃木市入舟町")
               (u16 "栃木県") nonempty nonempty (u16 "栃木市") H4);
      by vm_compute.
Qed.

Lemma getMunicipality_examples_witness :
  let KANA_DICT := [(u16 "釧路市", u16 "クシロシ"); (u16 "栃木市", u16 "トチギシ");
                    (u16 "栃木", u16 "トチギ")] in
  getMunicipality KANA_DICT (u16 "北海道釧路市") (u16 "北海道")
  = u16 "北海道_釧路市"
  ∧ getMunicipality KANA_DICT (u16 "仙台市宮城野区") (u16 "宮城県")
    = u16 "宮城県_仙台市宮城野区"
  ∧ getMunicipality KANA_DICT (u16 "北海道空知郡南幌町") (u16 "北海道")
    = u16 "北海道_空知郡南幌町"
  ∧ getMunicipality KANA_DICT (u16 "栃木市入舟町") (u16 "栃木県")
    = u16 "栃木県_栃木市".
Proof.
  intros KANA_DICT.
  destruct (getMunicipality_examples KANA_DICT) as (E1 & E2 & E3 & E4).
  split; [|split; [|split]].
  - apply E1; apply (bool_decide_unpack _); vm_compute; reflexivity.
  - apply E2; apply (bool_decide_unpack _); vm_compute; reflexivity.
  - apply E3; apply (bool_decide_unpack _); vm_compute; reflexivity.
  - apply E4; apply (bool_decide_unpack _); vm_compute; reflexivity.
Defined.

(** C7 as stated fails for a dictionary that holds the town's own name:
    the first rule finds 南幌町 at the end of 北海道空知郡南幌町 and
    answers before the county and town pattern is tried. *)
Lemma getMunicipality_direct_rule_first :
  let KANA_DICT := [(u16 "南幌町", u16 "ナンポロチョウ")] in
  getMunicipality KANA_DICT (u16 "北海道空知郡南幌町") (u16 "北海道")
  = u16 "北海道_南幌町"
  ∧ getMunicipality KANA_DICT (u16 "北海道空知郡南幌町") (u16 "北海道")
    ≠ u16 "北海道_空知郡南幌町".
Proof. split; [vm_compute; reflexivity|vm_compute; discriminate]. Qed.

(** The same for the first example when a shorter key precedes 釧路市 in
    the dictionary. *)
Lemma getMunicipality_first_hit_wins :
  getMunicipality [(u16 "市", u16 "シ"); (u16 "釧路市", u16 "クシロシ")]
                  (u16 "北海道釧路市") (u16 "北海道")
  = u16 "北海道_市".
Proof. vm_compute. reflexivity. Qed.

End MunicipalitySpec.

(* ===================================================================== *)
(** * Properties of [digestMessage] *)
(* ===================================================================== *)

Module DigestSpec.

Import Digest.

(** The initial hash value and the first round constants of the standard. *)
Lemma sha256_constants :
  SHA256.va SHA256.H0 = 0x6a09e667 ∧ SHA256.vh SHA256.H0 = 0x5be0cd19
  ∧ take 2 SHA256.K = [0x428a2f98; 0x71374491]
  ∧ last SHA256.K = Some 0xc67178f2 ∧ length SHA256.K = 64%nat.
Proof. vm_compute. repeat split; reflexivity. Qed.

(** The test vectors of the standard for the empty message and "abc". *)
Lemma digestMessage_abc :
  digestMessage (u16 "abc")
  = u16 "ba7816bf8f01cfea414140de5dae2223b00361a396177a9cb410ff61f20015ad".
Proof. vm_compute. reflexivity. Qed.

Lemma digestMessage_empty :
  digestMessage []
  = u16 "e3b0c44298fc1c149afbf4c8996fb92427ae41e4649b934ca495991b7852b855".
Proof. vm_compute. reflexivity. Qed.

(** A message of more than one block (56 bytes; two blocks once padded). *)
Lemma digestMessage_two_blocks :
  digestMessage
    (u16 "abcdbcdecdefdefgefghfghighijhijkijkljklmklmnlmnomnopnopq")
  = u16 "248d6a61d20638b8e5c026930c3e6039a33ce45964ff2167f6ecedd419db06c1".
Proof. vm_compute. reflexivity. Qed.

(** [textEncode] gives back the UTF-8 text a literal was written in. *)
Lemma textEncode_literal :
  textEncode (u16 "2011-03-11T14:46:00+09:00_三陸沖")
  = bytes_of_string "2011-03-11T14:46:00+09:00_三陸沖".
Proof. vm_compute. reflexivity. Qed.


Lemma be_bytes_length (n : nat) (x : N) : length (SHA256.be_bytes n x) = n.
Proof. induction n as [|n IH]; simpl; [done|]. by rewrite IH. Qed.

Lemma be_bytes_bound (n : nat) (x : N) :
  Forall (fun b => b < 256) (SHA256.be_bytes n x).
Proof.
  induction n as [|n IH]; simpl; constructor; [|done].
  change 0xFF with (N.ones 8). rewrite N.land_ones.
  by apply N.mod_lt.
Qed.

Lemma digest_length (msg : list N) : length (SHA256.digest msg) = 32%nat.
Proof.
  unfold SHA256.digest.
  generalize (SHA256.blocks (length (SHA256.pad msg) / 64) (SHA256.pad msg)
                SHA256.H0) as h.
  intros h. cbn [flat_map]. rewrite !length_app, !be_bytes_length. done.
Qed.

Lemma digest_bytes (msg : list N) :
  Forall (fun b => b < 256) (SHA256.digest msg).
Proof.
  unfold SHA256.digest.
  generalize (SHA256.blocks (length (SHA256.pad msg) / 64) (SHA256.pad msg)
                SHA256.H0) as h.
  intros h. cbn [flat_map]. rewrite !Forall_app.
  repeat split; try apply be_bytes_bound. constructor.
Qed.

Lemma hexByte_all :
  forallb twoHexDigits (map N.of_nat (seq 0 256)) = true.
Proof. vm_compute. reflexivity. Qed.

Lemma hexByte_digits (b : N) :
  b < 256 → length (hexByte b) = 2%nat ∧ Forall (fun c => isLowerHex c = true) (hexByte b).
Proof.
  intros Hb.
  pose proof hexByte_all as Hall. rewrite forallb_forall in Hall.
  assert (Hin : In b (map N.of_nat (seq 0 256))).
  { apply in_map_iff. exists (N.to_nat b). split; [lia|].
    apply in_seq. lia. }
  apply Hall in Hin. unfold twoHexDigits in Hin.
  apply andb_prop in Hin as [Hlen Hhex].
  split; [by apply bool_decide_eq_true_1 in Hlen|].
  rewrite forallb_forall in Hhex. apply Forall_forall.
  intros c Hc. apply Hhex. by apply list_elem_of_In.
Qed.

Lemma hex_length (bytes : list N) :
  Forall (fun b => b < 256) bytes →
  length (concat (map hexByte bytes)) = (2 * length bytes)%nat.
Proof.
  induction 1 as [|b bytes Hb _ IH]; simpl; [done|].
  rewrite length_app, IH. destruct (hexByte_digits b Hb) as [-> _]. lia.
Qed.

Lemma hex_digits (bytes : list N) :
  Forall (fun b => b < 256) bytes →
  Forall (fun c => isLowerHex c = true) (concat (map hexByte bytes)).
Proof.
  induction 1 as [|b bytes Hb _ IH]; simpl; [constructor|].
  apply Forall_app. split; [|done]. by destruct (hexByte_digits b Hb).
Qed.

(** The result of [digestMessage] is 64 lowercase hexadecimal digits, the
    32 bytes of the digest of the UTF-8 text. *)
Lemma digestMessage_hex (message : jsstring) :
  digestMessage message
  = concat (map hexByte (SHA256.digest (textEncode message)))
  ∧ length (digestMessage message) = 64%nat
  ∧ Forall (fun c => isLowerHex c = true) (digestMessage message).
Proof.
  split; [done|]. unfold digestMessage. split.
  - rewrite hex_length by apply digest_bytes. by rewrite digest_length.
  - apply hex_digits, digest_bytes.
Qed.

(** ** Reading the id back *)

Lemma forall_below (f : N → bool) (n : nat) :
  forallb f (map N.of_nat (seq 0 n)) = true →
  ∀ y, y < N.of_nat n → f y = true.
Proof.
  intros Hall y Hy. rewrite forallb_forall in Hall. apply Hall.
  apply in_map_iff. exists (N.to_nat y). split; [lia|].
  apply in_seq. lia.
Qed.

Lemma hexByte_parts :
  forallb (fun b => match hexByte b with
                    | [hi; lo] =>
                        match hexValue hi, hexValue lo with
                        | Some h, Some l => 16 * h + l =? b
                        | _, _ => false
                        end
                    | _ => false
                    end)
          (map N.of_nat (seq 0 256)) = true.
Proof. vm_compute. reflexivity. Qed.

(** Every byte is read back from its two digits. *)
Lemma fromHex_hexByte (b : N) (rest : jsstring) :
  b < 256 →
  fromHex (hexByte b ++ rest) = cons b <$> fromHex rest.
Proof.
  intros Hb. pose proof (forall_below _ 256 hexByte_parts b Hb) as Hparts.
  cbv beta in Hparts.
  destruct (hexByte b) as [|hi [|lo [|c tl]]]; try done.
  cbn [app fromHex].
  destruct (hexValue hi) as [h|]; [|done].
  destruct (hexValue lo) as [l|]; [|done].
  apply N.eqb_eq in Hparts as ->. by destruct (fromHex rest).
Qed.

Lemma fromHex_hex (bytes : list N) :
  Forall (fun b => b < 256) bytes →
  fromHex (concat (map hexByte bytes)) = Some bytes.
Proof.
  induction 1 as [|b bytes Hb _ IH]; [done|].
  cbn [map concat]. rewrite fromHex_hexByte by done. by rewrite IH.
Qed.

(** The 64 digits of [digestMessage] read back are the 32 bytes of the
    digest of the encoded message. *)
Lemma fromHex_digestMessage (message : jsstring) :
  fromHex (digestMessage message)
  = Some (SHA256.digest (textEncode message)).
Proof. apply fromHex_hex, digest_bytes. Qed.

(** *** UTF-8 *)

Lemma lor_fixed :
  forallb (fun y => N.lor 0x80 y =? 0x80 + y) (map N.of_nat (seq 0 64))
  && forallb (fun y => N.lor 0xC0 y =? 0xC0 + y) (map N.of_nat (seq 0 32))
  && forallb (fun y => N.lor 0xE0 y =? 0xE0 + y) (map N.of_nat (seq 0 16))
  && forallb (fun y => N.lor 0xF0 y =? 0xF0 + y) (map N.of_nat (seq 0 8))
  = true.
Proof. vm_compute. reflexivity. Qed.

Lemma lor_continuation (y : N) : y < 64 → N.lor 0x80 y = 0x80 + y.
Proof.
  intros Hy. pose proof lor_fixed as H.
  apply andb_prop in H as [H _]. apply andb_prop in H as [H _].
  apply andb_prop in H as [H _].
  by apply N.eqb_eq, (forall_below _ 64 H).
Qed.

Lemma lor_lead2 (y : N) : y < 32 → N.lor 0xC0 y = 0xC0 + y.
Proof.
  intros Hy. pose proof lor_fixed as H.
  apply andb_prop in H as [H _]. apply andb_prop in H as [H _].
  apply andb_prop in H as [_ H].
  by apply N.eqb_eq, (forall_below _ 32 H).
Qed.

Lemma lor_lead3 (y : N) : y < 16 → N.lor 0xE0 y = 0xE0 + y.
Proof.
  intros Hy. pose proof lor_fixed as H.
  apply andb_prop in H as [H _]. apply andb_prop in H as [_ H].
  by apply N.eqb_eq, (forall_below _ 16 H).
Qed.

Lemma lor_lead4 (y : N) : y < 8 → N.lor 0xF0 y = 0xF0 + y.
Proof.
  intros Hy. pose proof lor_fixed as H.
  apply andb_prop in H as [_ H].
  by apply N.eqb_eq, (forall_below _ 8 H).
Qed.

Lemma low_six (x : N) : N.land x 0x3F = x mod 64.
Proof. change 0x3F with (N.ones 6). by rewrite N.land_ones. Qed.

Lemma shiftr_div (x n : N) : N.shiftr x n = x / 2 ^ n.
Proof. apply N.shiftr_div_pow2. Qed.

(** The bytes of a code point, in arithmetic. *)
Lemma utf8_of_code_point_bytes (cp : N) :
  cp < 0x110000 →
  utf8_of_code_point cp
  = if cp <? 0x80 then [cp]
    else if cp <? 0x800 then [0xC0 + cp / 64; 0x80 + cp mod 64]
    else if cp <? 0x10000
    then [0xE0 + cp / 4096; 0x80 + (cp / 64) mod 64; 0x80 + cp mod 64]
    else [0xF0 + cp / 262144; 0x80 + (cp / 4096) mod 64;
          0x80 + (cp / 64) mod 64; 0x80 + cp mod 64].
Proof.
  intros Hcp. unfold utf8_of_code_point.
  rewrite !low_six, !shiftr_div.
  change (2 ^ 6) with 64. change (2 ^ 12) with 4096.
  change (2 ^ 18) with 262144.
  assert (∀ x, x mod 64 < 64) as Hmod by (intros x; by apply N.mod_lt).
  rewrite !lor_continuation by apply Hmod.
  destruct (cp <? 0x80) eqn:H1; [done|].
  apply N.ltb_ge in H1.
  destruct (cp <? 0x800) eqn:H2.
  { apply N.ltb_lt in H2. rewrite lor_lead2; [done|].
    apply N.Div0.div_lt_upper_bound. exact H2. }
  apply N.ltb_ge in H2.
  destruct (cp <? 0x10000) eqn:H3.
  { apply N.ltb_lt in H3. rewrite lor_lead3; [done|].
    apply N.Div0.div_lt_upper_bound. exact H3. }
  rewrite lor_lead4; [done|].
  apply N.Div0.div_lt_upper_bound.
  eapply N.lt_le_trans; [exact Hcp|]. done.
Qed.

Lemma isContinuation_low (r : N) : r < 64 → isContinuation (0x80 + r) = true.
Proof.
  intros Hr. unfold isContinuation. apply andb_true_intro. split.
  - apply N.leb_le. lia.
  - apply N.ltb_lt. lia.
Qed.

(** A code point is read back from its bytes, whatever follows. *)
Lemma decodeOne_encode (cp : N) (rest : list N) :
  cp < 0x110000 →
  decodeOne (utf8_of_code_point cp ++ rest) = Some (cp, rest).
Proof.
  intros Hcp. rewrite utf8_of_code_point_bytes by done.
  pose proof (N.div_mod cp 64 ltac:(done)) as E1.
  pose proof (N.mod_lt cp 64 ltac:(done)) as B1.
  pose proof (N.div_mod (cp / 64) 64 ltac:(done)) as E2.
  pose proof (N.mod_lt (cp / 64) 64 ltac:(done)) as B2.
  pose proof (N.div_mod (cp / 4096) 64 ltac:(done)) as E3.
  pose proof (N.mod_lt (cp / 4096) 64 ltac:(done)) as B3.
  assert (cp / 64 / 64 = cp / 4096) as D2 by by rewrite N.Div0.div_div.
  assert (cp / 4096 / 64 = cp / 262144) as D3 by by rewrite N.Div0.div_div.
  rewrite D2 in E2. rewrite D3 in E3.
  revert E1 B1 E2 B2 E3 B3.
  generalize (cp / 64) (cp mod 64) ((cp / 64) mod 64) (cp / 4096)
             ((cp / 4096) mod 64) (cp / 262144).
  intros q1 r1 r2 q2 r3 q3 E1 B1 E2 B2 E3 B3.
  destruct (cp <? 0x80) eqn:H1.
  { cbn [app decodeOne]. by rewrite H1. }
  apply N.ltb_ge in H1.
  destruct (cp <? 0x800) eqn:H2.
  { apply N.ltb_lt in H2. cbn [app decodeOne].
    assert ((0xC0 + q1 <? 0x80) = false) as -> by (apply N.ltb_ge; lia).
    assert ((0xC0 + q1 <? 0xC0) = false) as -> by (apply N.ltb_ge; lia).
    assert ((0xC0 + q1 <? 0xE0) = true) as -> by (apply N.ltb_lt; lia).
    rewrite isContinuation_low by done. do 2 f_equal. lia. }
  apply N.ltb_ge in H2.
  destruct (cp <? 0x10000) eqn:H3.
  { apply N.ltb_lt in H3. cbn [app decodeOne].
    assert ((0xE0 + q2 <? 0x80) = false) as -> by (apply N.ltb_ge; lia).
    assert ((0xE0 + q2 <? 0xC0) = false) as -> by (apply N.ltb_ge; lia).
    assert ((0xE0 + q2 <? 0xE0) = false) as -> by (apply N.ltb_ge; lia).
    assert ((0xE0 + q2 <? 0xF0) = true) as -> by (apply N.ltb_lt; lia).
    rewrite !isContinuation_low by done. cbn [andb]. do 2 f_equal. lia. }
  apply N.ltb_ge in H3. cbn [app decodeOne].
  assert ((0xF0 + q3 <? 0x80) = false) as -> by (apply N.ltb_ge; lia).
  assert ((0xF0 + q3 <? 0xC0) = false) as -> by (apply N.ltb_ge; lia).
  assert ((0xF0 + q3 <? 0xE0) = false) as -> by (apply N.ltb_ge; lia).
  assert ((0xF0 + q3 <? 0xF0) = false) as -> by (apply N.ltb_ge; lia).
  assert ((0xF0 + q3 <? 0xF8) = true) as -> by (apply N.ltb_lt; lia).
  rewrite !isContinuation_low by done. cbn [andb]. do 2 f_equal. lia.
Qed.

Lemma utf8_of_code_point_nonempty (cp : N) : utf8_of_code_point cp ≠ [].
Proof.
  unfold utf8_of_code_point.
  destruct (cp <? 0x80); [done|]. destruct (cp <? 0x800); [done|].
  by destruct (cp <? 0x10000).
Qed.

Lemma utf8Decode_encode (cps : list N) :
  Forall (fun cp => cp < 0x110000) cps →
  ∀ fuel, (length (flat_map utf8_of_code_point cps) <= fuel)%nat →
          utf8Decode fuel (flat_map utf8_of_code_point cps) = Some cps.
Proof.
  induction 1 as [|cp cps Hcp _ IH]; intros fuel Hfuel; [by destruct fuel|].
  cbn [flat_map] in *.
  pose proof (decodeOne_encode cp (flat_map utf8_of_code_point cps) Hcp)
    as Hone.
  pose proof (utf8_of_code_point_nonempty cp) as Hne.
  rewrite length_app in Hfuel.
  destruct (utf8_of_code_point cp) as [|b tl]; [done|].
  destruct fuel as [|fuel]; [simpl in Hfuel; lia|].
  cbn [app utf8Decode] in *. rewrite Hone.
  rewrite IH; [done|]. simpl in Hfuel. lia.
Qed.

(** [textEncode] writes the scalar values of the string one after the
    other. *)
Lemma textEncode_scalarValues (n : nat) :
  ∀ s, (length s <= n)%nat →
       textEncode s = flat_map utf8_of_code_point (scalarValues s).
Proof.
  induction n as [|n IH]; intros s Hlen.
  { destruct s; [done|simpl in Hlen; lia]. }
  destruct s as [|c rest]; [done|]. simpl in Hlen.
  cbn [textEncode scalarValues].
  destruct (isHighSurrogate c).
  - destruct rest as [|d rest']; [done|].
    destruct (isLowSurrogate d).
    + cbn [flat_map]. rewrite N.shiftl_mul_pow2.
      change (2 ^ 10) with 1024. rewrite (N.mul_comm (c - 0xD800) 1024).
      f_equal. apply IH. simpl in Hlen. lia.
    + cbn [flat_map]. f_equal. apply IH. lia.
  - destruct (isLowSurrogate c); cbn [flat_map]; f_equal; apply IH; lia.
Qed.

Lemma scalarValues_bound (n : nat) :
  ∀ s, (length s <= n)%nat →
       Forall (fun c => c < 0x10000) s →
       Forall (fun cp => cp < 0x110000) (scalarValues s).
Proof.
  induction n as [|n IH]; intros s Hlen Hs.
  { destruct s; [constructor|simpl in Hlen; lia]. }
  destruct s as [|c rest]; [constructor|]. simpl in Hlen.
  apply Forall_cons in Hs as [Hc Hrest].
  cbn [scalarValues].
  destruct (isHighSurrogate c) eqn:Hhigh.
  - destruct rest as [|d rest']; [by repeat constructor|].
    apply Forall_cons in Hrest as [Hd Hrest'].
    destruct (isLowSurrogate d) eqn:Hlow.
    + constructor; [|apply IH; [simpl in Hlen; lia|done]].
      unfold isHighSurrogate in Hhigh. unfold isLowSurrogate in Hlow.
      apply andb_prop in Hhigh as [H1 H2]. apply andb_prop in Hlow as [H3 H4].
      apply N.leb_le in H1, H2, H3, H4. lia.
    + constructor; [done|].
      apply IH; [lia|by constructor].
  - destruct (isLowSurrogate c); (constructor; [|apply IH; [lia|done]]).
    + done.
    + eapply N.lt_trans; [exact Hc|done].
Qed.

(** The encoded text read back as UTF-8 gives the scalar values of the
    message. *)
Lemma textDecode_textEncode (s : jsstring) :
  Forall (fun c => c < 0x10000) s →
  textDecode (textEncode s) = Some (scalarValues s).
Proof.
  intros Hs. unfold textDecode.
  rewrite (textEncode_scalarValues (length s) s) by done.
  apply utf8Decode_encode; [|done].
  by apply (scalarValues_bound (length s)).
Qed.

Lemma scalarValues_plain (s : jsstring) :
  Forall (fun c => isPlainUnit c = true) s → scalarValues s = s.
Proof.
  induction 1 as [|c s Hc _ IH]; [done|].
  cbn [scalarValues]. unfold isPlainUnit in Hc.
  apply andb_prop in Hc as [Hc Hlow]. apply andb_prop in Hc as [_ Hhigh].
  apply negb_true_iff in Hlow, Hhigh. rewrite Hhigh, Hlow. by rewrite IH.
Qed.

(** On strings without surrogates the encoding loses nothing. *)
Lemma textEncode_inj (a b : jsstring) :
  Forall (fun c => isPlainUnit c = true) a →
  Forall (fun c => isPlainUnit c = true) b →
  textEncode a = textEncode b → a = b.
Proof.
  intros Ha Hb Heq.
  assert (∀ s, Forall (fun c => isPlainUnit c = true) s →
               Forall (fun c => c < 0x10000) s) as Hunits.
  { intros s Hs. eapply Forall_impl; [exact Hs|].
    intros c Hc. unfold isPlainUnit in Hc.
    apply andb_prop in Hc as [Hc _]. apply andb_prop in Hc as [Hc _].
    by apply N.ltb_lt. }
  pose proof (textDecode_textEncode a (Hunits a Ha)) as Da.
  pose proof (textDecode_textEncode b (Hunits b Hb)) as Db.
  rewrite Heq, Db in Da. rewrite !scalarValues_plain in Da by done.
  by injection Da.
Qed.

(** Equal ids: equal encoded messages, or two different byte strings
    with one SHA-256 digest. *)
Lemma digestMessage_eq (a b : jsstring) :
  digestMessage a = digestMessage b
  ↔ SHA256.digest (textEncode a) = SHA256.digest (textEncode b).
Proof.
  split.
  - intros Heq. pose proof (fromHex_digestMessage a) as Ha.
    rewrite Heq, fromHex_digestMessage in Ha. congruence.
  - intros Heq. unfold digestMessage. by rewrite Heq.
Qed.

End DigestSpec.

(* ===================================================================== *)
(** * Properties of the event aggregation *)
(* ===================================================================== *)

Module AggregatorSpec.

Import Aggregator.

(** ** The string-keyed map *)

Section Map.

Context {V : Type}.
Implicit Types (m : list (jsstring * V)) (k : jsstring) (v : V).

Lemma mapGet_Some_elem m k v : mapGet k m = Some v → (k, v) ∈ m.
Proof.
  induction m as [|[k' v'] m IH]; simpl; [done|].
  case_bool_decide as Hk.
  - intros [= ->]. subst. left.
  - intros Hget. right. by apply IH.
Qed.

Lemma mapGet_None_keys m k : mapGet k m = None ↔ k ∉ map fst m.
Proof.
  induction m as [|[k' v'] m IH]; simpl.
  - split; [intros _; apply not_elem_of_nil|done].
  - case_bool_decide as Hk.
    + split; [done|]. intros Hnot. exfalso. apply Hnot. subst. left.
    + rewrite IH, not_elem_of_cons.
      split; [intros ?; split; [congruence|done]|by intros [_ ?]].
Qed.

Lemma mapGet_is_Some_keys m k : is_Some (mapGet k m) ↔ k ∈ map fst m.
Proof.
  destruct (mapGet k m) eqn:Hget.
  - split; [intros _|eauto].
    apply mapGet_Some_elem in Hget.
    apply list_elem_of_fmap. by exists (k, v).
  - apply mapGet_None_keys in Hget.
    split; [by intros [? ?]|done].
Qed.

Lemma mapGet_mapSet m k k' v :
  mapGet k' (mapSet k v m) = if bool_decide (k = k') then Some v else mapGet k' m.
Proof.
  induction m as [|[k0 v0] m IH]; simpl.
  - done.
  - destruct (bool_decide (k0 = k)) eqn:Hk0; simpl.
    + apply bool_decide_eq_true_1 in Hk0 as ->.
      by destruct (bool_decide (k = k')).
    + apply bool_decide_eq_false_1 in Hk0.
      destruct (bool_decide (k0 = k')) eqn:Hk0'.
      * apply bool_decide_eq_true_1 in Hk0' as ->.
        by rewrite bool_decide_eq_false_2.
      * done.
Qed.

Lemma keys_mapSet_present m k v :
  k ∈ map fst m → map fst (mapSet k v m) = map fst m.
Proof.
  induction m as [|[k0 v0] m IH]; simpl.
  - by intros ?%elem_of_nil.
  - intros Hin. case_bool_decide as Hk; simpl; [by subst|].
    f_equal. apply IH. apply elem_of_cons in Hin as [->|Hin]; done.
Qed.

Lemma keys_mapSet_absent m k v :
  k ∉ map fst m → map fst (mapSet k v m) = map fst m ++ [k].
Proof.
  induction m as [|[k0 v0] m IH]; simpl; [done|].
  intros [Hne Hnot]%not_elem_of_cons.
  rewrite bool_decide_eq_false_2 by done. simpl. f_equal. by apply IH.
Qed.

Lemma keys_mapSet m k v :
  map fst (mapSet k v m)
  = if bool_decide (k ∈ map fst m) then map fst m else map fst m ++ [k].
Proof.
  case_bool_decide; [by apply keys_mapSet_present|by apply keys_mapSet_absent].
Qed.

Lemma keys_mapSet_NoDup m k v :
  NoDup (map fst m) → NoDup (map fst (mapSet k v m)).
Proof.
  intros Hnodup. rewrite keys_mapSet. case_bool_decide as Hin; [done|].
  apply NoDup_app. split; [done|]. split; [|apply NoDup_singleton].
  intros x Hx ->%list_elem_of_singleton. done.
Qed.

Lemma mapSet_same m k v : NoDup (map fst m) → mapGet k m = Some v → mapSet k v m = m.
Proof.
  induction m as [|[k0 v0] m IH]; simpl; [done|].
  intros Hnodup. case_bool_decide as Hk.
  - intros [= ->]. by subst.
  - intros Hget. f_equal. apply IH; [|done]. by apply NoDup_cons in Hnodup as [_ ?].
Qed.

Lemma mapSet_Forall (P : jsstring * V → Prop) m k v :
  Forall P m → P (k, v) → Forall P (mapSet k v m).
Proof.
  induction 1 as [|[k0 v0] m Hk0 Hm IH]; simpl; intros Hv.
  - constructor; [exact Hv|constructor].
  - case_bool_decide.
    + constructor; [exact Hv|exact Hm].
    + constructor; [exact Hk0|by apply IH].
Qed.

End Map.

(** ** The three assignments *)

Lemma keyed_hypocenter (eq : Quake) :
  keyed eq = true → ∃ h, hypocenter (earthquake eq) = Some h ∧ name h ≠ [].
Proof.
  unfold keyed, epicenterNameOf. intros [_ Hname]%andb_prop.
  destruct (hypocenter (earthquake eq)) as [h|]; [|done].
  exists h. split; [done|]. by destruct (name h).
Qed.

Lemma keyed_time (eq : Quake) : keyed eq = true → time (earthquake eq) ≠ [].
Proof.
  unfold keyed. intros [Htime _]%andb_prop. by destruct (time (earthquake eq)).
Qed.

Lemma updateExisting_ok (existingEq eq : Quake) :
  keyed existingEq = true →
  updateExisting existingEq eq = Ok (updated existingEq eq).
Proof.
  intros (hx & Hhx & _)%keyed_hypocenter.
  unfold updated, updateExisting. rewrite Hhx.
  destruct (hypocenter (earthquake eq)) as [h|]; simpl; [|done].
  by destruct (magnitudeMissing (magnitude hx) && _).
Qed.

Lemma updated_points (existingEq eq : Quake) :
  points (updated existingEq eq) = points existingEq.
Proof.
  unfold updated, updateExisting.
  destruct (hypocenter (earthquake eq)) as [h|]; simpl.
  - destruct (hypocenter (earthquake existingEq)) as [hx|]; simpl; [|done].
    destruct (magnitudeMissing (magnitude hx) && _); simpl;
      repeat (match goal with |- context [if ?b then _ else _] =>
                destruct b end; simpl); done.
  - repeat (match goal with |- context [if ?b then _ else _] =>
              destruct b end; simpl); done.
Qed.

Lemma updated_time (existingEq eq : Quake) :
  time (earthquake (updated existingEq eq)) = time (earthquake existingEq).
Proof.
  unfold updated, updateExisting.
  destruct (hypocenter (earthquake eq)) as [h|]; simpl.
  - destruct (hypocenter (earthquake existingEq)) as [hx|]; simpl; [|done].
    destruct (magnitudeMissing (magnitude hx) && _); simpl;
      repeat (match goal with |- context [if ?b then _ else _] =>
                destruct b end; simpl); done.
  - repeat (match goal with |- context [if ?b then _ else _] =>
              destruct b end; simpl); done.
Qed.

Lemma updated_hypocenter (existingEq eq : Quake) :
  hypocenter (earthquake (updated existingEq eq))
  = hypocenter (earthquake existingEq)
  ∨ hypocenter (earthquake (updated existingEq eq))
    = hypocenter (earthquake eq).
Proof.
  unfold updated, updateExisting.
  destruct (hypocenter (earthquake eq)) as [h|] eqn:Hh; simpl.
  - destruct (hypocenter (earthquake existingEq)) as [hx|] eqn:Hhx; simpl;
      [|by left].
    destruct (magnitudeMissing (magnitude hx) && _); simpl;
      repeat (match goal with |- context [if ?b then _ else _] =>
                destruct b end; simpl); auto.
  - repeat (match goal with |- context [if ?b then _ else _] =>
              destruct b end; simpl); auto.
Qed.

Lemma keyed_updated (existingEq eq : Quake) :
  keyed existingEq = true → keyed eq = true →
  keyed (updated existingEq eq) = true.
Proof.
  intros Hx He. unfold keyed, epicenterNameOf in *.
  rewrite updated_time.
  destruct (updated_hypocenter existingEq eq) as [-> | ->].
  - done.
  - apply andb_prop in Hx as [-> _]. by apply andb_prop in He as [_ ->].
Qed.

Lemma keyed_mergedValue (existingEq eq : Quake) :
  keyed existingEq = true → keyed eq = true →
  keyed (mergedValue existingEq eq) = true.
Proof.
  intros Hx He. unfold mergedValue.
  destruct (negb _ && _); [done|by apply keyed_updated].
Qed.

(** ** References into the heap *)

Lemma refs_mapSet (m : list (jsstring * nat)) (k : jsstring) (r x : nat) :
  x ∈ map snd (mapSet k r m) → x = r ∨ x ∈ map snd m.
Proof.
  induction m as [|[k0 r0] m IH]; simpl.
  - intros ->%list_elem_of_singleton. by left.
  - case_bool_decide; simpl.
    + intros [->|Hin]%elem_of_cons; [by left|]. right. by right.
    + intros [->|Hin]%elem_of_cons; [right; left|].
      destruct (IH Hin) as [->|?]; [by left|]. right. by right.
Qed.

Lemma refs_mapSet_NoDup (m : list (jsstring * nat)) (k : jsstring) (r : nat) :
  NoDup (map snd m) → r ∉ map snd m → NoDup (map snd (mapSet k r m)).
Proof.
  induction m as [|[k0 r0] m IH]; simpl.
  - intros _ _. apply NoDup_singleton.
  - intros [Hr0 Hnodup]%NoDup_cons [Hne Hnot]%not_elem_of_cons.
    case_bool_decide; simpl.
    + apply NoDup_cons. done.
    + apply NoDup_cons. split; [|by apply IH].
      intros [->|Hin]%refs_mapSet; done.
Qed.

Lemma refs_mapSet_bound (m : list (jsstring * nat)) (k : jsstring) (r n : nat) :
  Forall (fun kr => (kr.2 < n)%nat) m → (r < n)%nat →
  Forall (fun kr => (kr.2 < n)%nat) (mapSet k r m).
Proof.
  induction 1 as [|[k0 r0] m Hk0 Hm IH]; simpl; intros Hr.
  - constructor; [exact Hr|constructor].
  - case_bool_decide.
    + constructor; [exact Hr|exact Hm].
    + constructor; [exact Hk0|by apply IH].
Qed.

Lemma refs_injective (m : list (jsstring * nat)) (k1 k2 : jsstring) (r : nat) :
  NoDup (map snd m) → (k1, r) ∈ m → (k2, r) ∈ m → k1 = k2.
Proof.
  induction m as [|[k0 r0] m IH]; simpl.
  - by intros _ ?%elem_of_nil.
  - intros [Hr0 Hnodup]%NoDup_cons Hin1 Hin2.
    apply elem_of_cons in Hin1 as [Heq1|Hin1];
      apply elem_of_cons in Hin2 as [Heq2|Hin2].
    + congruence.
    + inversion Heq1; subst. exfalso. apply Hr0.
      apply list_elem_of_fmap. by exists (k2, r0).
    + inversion Heq2; subst. exfalso. apply Hr0.
      apply list_elem_of_fmap. by exists (k1, r0).
    + by apply IH.
Qed.

Section Heap.

Variable h : list Quake.

Lemma related_get (m : list (jsstring * nat)) (vals : list (jsstring * Quake))
  (k : jsstring) :
  Forall2 (refersTo h) m vals →
  match mapGet k m with
  | Some r => ∃ q, mapGet k vals = Some q ∧ h !! r = Some q
  | None => mapGet k vals = None
  end.
Proof.
  induction 1 as [|[k0 r0] [k0' q0] m vals [Hk Hq] _ IH]; simpl in *; [done|].
  subst k0'. case_bool_decide; [eauto|done].
Qed.

Lemma related_keys (m : list (jsstring * nat)) (vals : list (jsstring * Quake)) :
  Forall2 (refersTo h) m vals → map fst m = map fst vals.
Proof.
  induction 1 as [|[k0 r0] [k0' q0] m vals [Hk Hq] _ IH]; simpl in *; [done|].
  by f_equal.
Qed.

Lemma related_set (m : list (jsstring * nat)) (vals : list (jsstring * Quake))
  (k : jsstring) (r : nat) (q : Quake) :
  Forall2 (fun kr kq => kr.1 = kq.1 ∧ (kr.1 ≠ k → h !! kr.2 = Some kq.2))
          m vals →
  NoDup (map fst m) →
  h !! r = Some q →
  Forall2 (refersTo h) (mapSet k r m) (mapSet k q vals).
Proof.
  intros Hrel Hnodup Hr.
  induction Hrel as [|[k0 r0] [k0' q0] m vals [Hk Hq] Hrel IH]; simpl in *.
  - by repeat constructor.
  - subst k0'. apply NoDup_cons in Hnodup as [Hk0 Hnodup].
    case_bool_decide as Hkk.
    + subst k0. constructor; [done|].
      clear IH. induction Hrel as [|[k1 r1] [k1' q1] m vals [Hk1 Hq1] Hrel IH];
        simpl in *; [constructor|].
      apply not_elem_of_cons in Hk0 as [Hne Hk0].
      apply NoDup_cons in Hnodup as [_ Hnodup].
      constructor; [|by apply IH]. simpl. split; [done|]. apply Hq1. congruence.
    + constructor; [|by apply IH]. simpl. split; [done|]. by apply Hq.
Qed.

End Heap.

(** Entries of other keys are not affected by a change of the heap that
    leaves their objects alone. *)
Lemma related_others (h h' : list Quake) (m : list (jsstring * nat))
  (vals : list (jsstring * Quake)) (k : jsstring) :
  Forall2 (refersTo h) m vals →
  (∀ k0 r0, (k0, r0) ∈ m → k0 ≠ k → h' !! r0 = h !! r0) →
  Forall2 (fun kr kq => kr.1 = kq.1 ∧ (kr.1 ≠ k → h' !! kr.2 = Some kq.2))
          m vals.
Proof.
  induction 1 as [|[k0 r0] [k0' q0] m vals [Hk Hq] _ IH]; simpl in *;
    intros Hsame; [constructor|].
  constructor.
  - simpl. split; [done|]. intros Hne. rewrite (Hsame k0 r0); [done| |done].
    left.
  - apply IH. intros k1 r1 Hin. apply Hsame. by right.
Qed.

Lemma keyed_guard (eq : Quake) :
  negb (truthy (time (earthquake eq))) || negb (truthy (epicenterNameOf eq))
  = negb (keyed eq).
Proof. unfold keyed. by rewrite negb_andb. Qed.

(** One iteration of the loop does to the map what [stepValues] says. *)
Lemma mergeStep_refines (filtered : list Quake) (n : nat) (st : MergeState)
  (vals : list (jsstring * Quake)) (eq : Quake) :
  mergeInvariant filtered n st vals →
  filtered !! n = Some eq →
  ∃ st', mergeStep st n = Ok st'
         ∧ mergeInvariant filtered (S n) st' (stepValues vals eq).
Proof.
  intros [Hlen Huntouched Hvals Hkeys Hrefs Hearlier Hkeyed] Heq.
  unfold mergeStep, deref. rewrite (Huntouched n) by lia. rewrite Heq. simpl.
  rewrite keyed_guard. unfold stepValues.
  destruct (keyed eq) eqn:Hkeyedeq; simpl; cycle 1.
  { exists st. split; [done|]. split; try done.
    - intros j Hj. apply Huntouched. lia.
    - eapply Forall_impl; [exact Hearlier|]. simpl. lia. }
  fold (eventKeyOf eq).
  pose proof (related_get _ _ _ (eventKeyOf eq) Hvals) as Hget.
  assert (Hfresh : n ∉ map snd (uniqueEarthquakesMap st)).
  { intros ([k r] & -> & Hin)%list_elem_of_fmap.
    rewrite Forall_forall in Hearlier. apply Hearlier in Hin. simpl in Hin. lia. }
  assert (Hn : heap st !! n = Some eq) by (rewrite Huntouched by lia; done).
  destruct (mapGet (eventKeyOf eq) (uniqueEarthquakesMap st)) as [r|] eqn:Hgetm.
  - destruct Hget as (existingEq & Hgetv & Hr). rewrite Hgetv, Hr. simpl.
    assert (Hkx : keyed existingEq = true).
    { apply mapGet_Some_elem in Hgetv.
      rewrite Forall_forall in Hkeyed. by apply Hkeyed in Hgetv. }
    rewrite (updateExisting_ok _ _ Hkx). simpl.
    assert (Hrn : (r < n)%nat).
    { apply mapGet_Some_elem in Hgetm.
      rewrite Forall_forall in Hearlier. by apply Hearlier in Hgetm. }
    assert (Hrlen : (r < length (heap st))%nat).
    { by apply lookup_lt_is_Some_1; eauto. }
    eexists. split; [done|].
    set (h' := <[r := updated existingEq eq]> (heap st)).
    assert (Hothers :
      Forall2 (fun kr kq => kr.1 = kq.1
                            ∧ (kr.1 ≠ eventKeyOf eq → h' !! kr.2 = Some kq.2))
              (uniqueEarthquakesMap st) vals).
    { apply mapGet_Some_elem in Hgetm.
      apply (related_others (heap st)); [done|].
      intros k0 r0 Hin0 Hne. unfold h'.
      rewrite list_lookup_insert_ne; [done|].
      intros <-. apply Hne.
      by apply (refs_injective _ _ _ r Hrefs). }
    split; simpl.
    + unfold h'. by rewrite length_insert.
    + intros j Hj. unfold h'.
      rewrite list_lookup_insert_ne by lia. apply Huntouched. lia.
    + unfold mergedValue.
      destruct (negb (isSet (points existingEq)) && isSet (points eq)).
      * apply related_set; [done..|].
        unfold h'. rewrite list_lookup_insert_ne by lia. done.
      * rewrite <- (mapSet_same (uniqueEarthquakesMap st) (eventKeyOf eq) r)
          at 1 by done.
        apply related_set; [done..|].
        unfold h'. by rewrite list_lookup_insert_eq.
    + destruct (negb _ && _); [by apply keys_mapSet_NoDup|done].
    + destruct (negb _ && _); [by apply refs_mapSet_NoDup|done].
    + destruct (negb _ && _).
      * apply refs_mapSet_bound; [|lia].
        eapply Forall_impl; [exact Hearlier|]. simpl. lia.
      * eapply Forall_impl; [exact Hearlier|]. simpl. lia.
    + apply mapSet_Forall; [done|]. simpl. by apply keyed_mergedValue.
  - rewrite Hget. eexists. split; [done|]. split; simpl; try done.
    + intros j Hj. apply Huntouched. lia.
    + apply related_set; [|done..].
      by apply (related_others (heap st)).
    + by apply keys_mapSet_NoDup.
    + by apply refs_mapSet_NoDup.
    + apply refs_mapSet_bound; [|lia].
      eapply Forall_impl; [exact Hearlier|]. simpl. lia.
    + by apply mapSet_Forall.
Qed.

Lemma mergeLoop_refines (filtered : list Quake) (rest : list Quake) :
  ∀ (n : nat) (st : MergeState) (vals : list (jsstring * Quake)),
    mergeInvariant filtered n st vals →
    drop n filtered = rest →
    ∃ st', mergeLoop st (seq n (length rest)) = Ok st'
           ∧ mergeInvariant filtered (length filtered) st'
               (fold_left stepValues rest vals).
Proof.
  induction rest as [|eq rest IH]; intros n st vals Hinv Hdrop; simpl.
  - exists st. split; [done|].
    assert (length filtered <= n)%nat as Hn.
    { apply drop_nil_inv in Hdrop. lia. }
    destruct Hinv as [Hlen Huntouched Hvals Hkeys Hrefs Hearlier Hkeyed].
    split; try done.
    + intros j Hj. rewrite !lookup_ge_None_2; [done|lia..].
    + clear -Hvals Hearlier Hlen.
      induction Hvals as [|[k r] [k' q] m vals [_ Hq] _ IH]; [constructor|].
      apply Forall_cons in Hearlier as [_ Hearlier].
      constructor; [|by apply IH]. simpl in *.
      rewrite <- Hlen. by apply lookup_lt_is_Some_1; eauto.
  - assert (Heq : filtered !! n = Some eq).
    { rewrite <- (Nat.add_0_r n), <- lookup_drop, Hdrop. done. }
    destruct (mergeStep_refines _ _ _ _ _ Hinv Heq) as (st1 & Hstep & Hinv1).
    rewrite Hstep. simpl.
    apply IH; [done|].
    rewrite (drop_S _ _ _ Heq) in Hdrop. by injection Hdrop.
Qed.

Lemma mapEntries_related (h : list Quake) (m : list (jsstring * nat))
  (vals : list (jsstring * Quake)) :
  Forall2 (refersTo h) m vals → mapEntries h m = Ok vals.
Proof.
  induction 1 as [|[k r] [k' q] m vals [Hk Hq] _ IH]; simpl in *; [done|].
  unfold deref. rewrite Hq. simpl. rewrite IH. simpl. by subst.
Qed.

Lemma mapValues_entries (h : list Quake) (m : list (jsstring * nat))
  (vals : list (jsstring * Quake)) :
  mapEntries h m = Ok vals → mapValues h m = Ok (map snd vals).
Proof.
  revert vals. induction m as [|[k r] m IH]; simpl; intros vals.
  - by intros [= <-].
  - destruct (deref h r) as [q|]; simpl; [|done].
    destruct (mapEntries h m) as [es|]; simpl; [|done].
    intros [= <-]. by rewrite (IH es).
Qed.

Lemma mergeInvariant_initial (filtered : list Quake) :
  mergeInvariant filtered 0 (mkMergeState filtered []) [].
Proof. split; simpl; try done; constructor. Qed.

(** The loop over the heap computes the fold on values: it never throws,
    and the map it leaves refers to [mergeValues filtered]. *)
Theorem mergeAll_refines (filtered : list Quake) :
  ∃ st, mergeAll filtered = Ok st
        ∧ mergeInvariant filtered (length filtered) st (mergeValues filtered).
Proof.
  unfold mergeAll.
  destruct (mergeLoop_refines filtered filtered 0 _ _
              (mergeInvariant_initial filtered) eq_refl) as (st & Hloop & Hinv).
  by exists st.
Qed.

Lemma uniqueEntriesOf_values (filtered : list Quake) :
  uniqueEntriesOf filtered = Ok (mergeValues filtered).
Proof.
  destruct (mergeAll_refines filtered) as (st & Hrun & Hinv).
  unfold uniqueEntriesOf. rewrite Hrun. simpl.
  apply mapEntries_related, Hinv.
Qed.

Lemma uniqueEarthquakesOf_values (filtered : list Quake) :
  uniqueEarthquakesOf filtered = Ok (map snd (mergeValues filtered)).
Proof.
  destruct (mergeAll_refines filtered) as (st & Hrun & Hinv).
  unfold uniqueEarthquakesOf. rewrite Hrun. simpl.
  apply mapValues_entries, mapEntries_related, Hinv.
Qed.

(** ** Keys of the merged map *)

Lemma stepValues_keys (vals : list (jsstring * Quake)) (eq : Quake) :
  map fst (stepValues vals eq)
  = if keyed eq && negb (bool_decide (eventKeyOf eq ∈ map fst vals))
    then map fst vals ++ [eventKeyOf eq] else map fst vals.
Proof.
  unfold stepValues. destruct (keyed eq); simpl; [|done].
  rewrite keys_mapSet. by case_bool_decide.
Qed.

Lemma mergeValues_keys_NoDup (filtered : list Quake) :
  ∀ vals, NoDup (map fst vals) →
          NoDup (map fst (fold_left stepValues filtered vals)).
Proof.
  induction filtered as [|eq rest IH]; intros vals Hnodup; simpl; [done|].
  apply IH. rewrite stepValues_keys.
  destruct (keyed eq); simpl; [|done].
  case_bool_decide as Hin; simpl; [done|].
  apply NoDup_app. split; [done|]. split; [|apply NoDup_singleton].
  by intros x Hx ->%list_elem_of_singleton.
Qed.

Lemma mergeValues_keys_elem (filtered : list Quake) (k : jsstring) :
  ∀ vals,
    k ∈ map fst (fold_left stepValues filtered vals)
    ↔ k ∈ map fst vals
      ∨ ∃ eq, eq ∈ filtered ∧ keyed eq = true ∧ eventKeyOf eq = k.
Proof.
  induction filtered as [|eq rest IH]; intros vals; simpl.
  - split; [by left|]. intros [?|(q & Hin & _)]; [done|].
    by apply elem_of_nil in Hin.
  - rewrite IH, stepValues_keys. split.
    + intros [Hin|(eq' & Hin & Hk & Hkey)].
      * destruct (keyed eq) eqn:Hkeyed; simpl in Hin; [|by left].
        case_bool_decide as Hpresent; simpl in Hin; [by left|].
        apply elem_of_app in Hin as [?|Hlast]; [by left|].
        apply list_elem_of_singleton in Hlast as ->.
        right. exists eq. split; [left|done].
      * right. exists eq'. split; [by right|done].
    + intros [Hin|(eq' & [->|Hin]%elem_of_cons & Hk & Hkey)].
      * left. destruct (keyed eq && _); [|done].
        apply elem_of_app. by left.
      * left. rewrite Hk. simpl. case_bool_decide as Hpresent; simpl.
        -- by subst.
        -- apply elem_of_app. right. subst. left.
      * right. by exists eq'.
Qed.

(** ** One key at a time *)

Lemma mergeValues_get (k : jsstring) (filtered : list Quake) :
  ∀ vals, mapGet k (fold_left stepValues filtered vals)
          = mergeGroup (mapGet k vals) (group k filtered).
Proof.
  induction filtered as [|eq rest IH]; intros vals; simpl; [done|].
  rewrite IH. unfold stepValues at 1.
  destruct (keyed eq) eqn:Hkeyed; simpl; [|done].
  rewrite mapGet_mapSet.
  case_bool_decide as Hk; simpl; [|done]. by subst k.
Qed.

Lemma mergedValue_points (existingEq eq : Quake) :
  points (mergedValue existingEq eq)
  = match points existingEq with
    | Some ps => Some ps
    | None => points eq
    end.
Proof.
  unfold mergedValue.
  destruct (points existingEq) as [ps|] eqn:Hx; simpl.
  - by rewrite updated_points.
  - destruct (points eq) as [ps|] eqn:He; simpl; [done|].
    by rewrite updated_points.
Qed.

Lemma mergeGroup_app (acc : option Quake) (l1 l2 : list Quake) :
  mergeGroup acc (l1 ++ l2) = mergeGroup (mergeGroup acc l1) l2.
Proof. apply fold_left_app. Qed.

Lemma mergeGroup_is_Some (eqs : list Quake) (q : Quake) :
  ∃ merged, mergeGroup (Some q) eqs = Some merged.
Proof.
  revert q. induction eqs as [|eq eqs IH]; intros q; simpl; [by eexists|].
  apply IH.
Qed.

Lemma mergeGroup_without_points (eqs : list Quake) (q : Quake) :
  points q = None → Forall (fun eq => points eq = None) eqs →
  ∃ merged, mergeGroup (Some q) eqs = Some merged ∧ points merged = None.
Proof.
  revert q. induction eqs as [|eq eqs IH]; intros q Hq Hall; simpl.
  - by exists q.
  - apply Forall_cons in Hall as [Heq Hall]. apply IH; [|done].
    by rewrite mergedValue_points, Hq.
Qed.

Lemma mergeGroup_keeps_points (eqs : list Quake) (q : Quake)
  (ps : list Point) :
  points q = Some ps →
  ∃ merged, mergeGroup (Some q) eqs = Some merged ∧ points merged = Some ps.
Proof.
  revert q. induction eqs as [|eq eqs IH]; intros q Hq; simpl.
  - by exists q.
  - apply IH. by rewrite mergedValue_points, Hq.
Qed.

(** The points of a merged group are those of the first report that has
    any, taken whole. *)
Lemma mergeGroup_points (seed later : Quake) (mid post : list Quake)
  (ps : list Point) :
  points seed = None →
  Forall (fun eq => points eq = None) mid →
  points later = Some ps →
  ∃ merged, mergeGroup None (seed :: mid ++ later :: post) = Some merged
            ∧ points merged = Some ps.
Proof.
  intros Hseed Hmid Hlater. simpl. rewrite mergeGroup_app.
  destruct (mergeGroup_without_points mid seed Hseed Hmid)
    as (m1 & -> & Hm1).
  simpl. apply mergeGroup_keeps_points.
  by rewrite mergedValue_points, Hm1.
Qed.

(** ** The merge key as a string *)

Lemma underscored_inj (t1 n1 t2 n2 : jsstring) :
  underscore ∉ t1 → underscore ∉ t2 →
  underscored t1 n1 = underscored t2 n2 → t1 = t2 ∧ n1 = n2.
Proof.
  unfold underscored. revert t2.
  induction t1 as [|c t1 IH]; intros [|d t2]; simpl; intros H1 H2 Heq.
  - by injection Heq.
  - injection Heq as <- _. exfalso. apply H2. left.
  - injection Heq as -> _. exfalso. apply H1. left.
  - injection Heq as -> Heq.
    apply not_elem_of_cons in H1 as [_ H1].
    apply not_elem_of_cons in H2 as [_ H2].
    destruct (IH t2 H1 H2 Heq) as [-> ->]. done.
Qed.

Lemma eventKeyOf_keyPair (eq1 eq2 : Quake) :
  underscore ∉ time (earthquake eq1) → underscore ∉ time (earthquake eq2) →
  eventKeyOf eq1 = eventKeyOf eq2 ↔ keyPair eq1 = keyPair eq2.
Proof.
  intros H1 H2. unfold eventKeyOf, keyPair. split.
  - intros [-> ->]%underscored_inj; done.
  - by intros [= -> ->].
Qed.

Lemma remove_dups_length_inj {A B} `{EqDecision A, EqDecision B}
  (f : A → B) (l : list A) :
  (∀ x y, x ∈ l → y ∈ l → f x = f y → x = y) →
  length (remove_dups (map f l)) = length (remove_dups l).
Proof.
  induction l as [|x l IH]; intros Hinj; simpl; [done|].
  assert (Hl : ∀ a b, a ∈ l → b ∈ l → f a = f b → a = b).
  { intros a b Ha Hb. apply Hinj; by right. }
  destruct (decide_rel elem_of (f x) (map f l)) as [Hfx|Hfx];
    destruct (decide_rel elem_of x l) as [Hx|Hx]; simpl.
  - by apply IH.
  - exfalso. apply list_elem_of_fmap in Hfx as (y & Hfy & Hy).
    apply Hx. rewrite (Hinj x y); [done|left|by right|done].
  - exfalso. apply Hfx. apply list_elem_of_fmap. by exists x.
  - f_equal. by apply IH.
Qed.

Lemma keyed_filter_elem (filtered : list Quake) (eq : Quake) :
  eq ∈ List.filter keyed filtered ↔ eq ∈ filtered ∧ keyed eq = true.
Proof. by rewrite !list_elem_of_In, filter_In. Qed.

Lemma sameEvent_key (entries : list (jsstring * Quake)) (eq1 eq2 : Quake) :
  eventKeyOf eq1 ∈ map fst entries →
  sameEvent entries eq1 eq2 ↔ eventKeyOf eq1 = eventKeyOf eq2.
Proof.
  intros Hin. split.
  - intros (i & entry & _ & H1 & H2). congruence.
  - intros Hkey. apply list_elem_of_fmap in Hin as (entry & Hk & Hin).
    apply list_elem_of_lookup in Hin as [i Hi].
    exists i, entry. split; [done|]. split; congruence.
Qed.

(** ** The upstream event id *)

Lemma updated_withEventId (f : jsstring → jsstring) (existingEq eq : Quake) :
  updated (withEventId f existingEq) (withEventId f eq)
  = withEventId f (updated existingEq eq).
Proof.
  destruct existingEq as [idx [tx hx sx dx] px], eq as [ide [te he se de] pe].
  unfold updated, updateExisting, withEventId; simpl.
  destruct he as [h|], hx as [hx|]; simpl; try done;
    repeat (match goal with |- context [if ?b then _ else _] =>
              destruct b eqn:? end;
            unfold setHypocenter, setMaxScale, setDomesticTsunami in *;
            simpl in *); congruence.
Qed.

Lemma mergedValue_withEventId (f : jsstring → jsstring)
  (existingEq eq : Quake) :
  mergedValue (withEventId f existingEq) (withEventId f eq)
  = withEventId f (mergedValue existingEq eq).
Proof.
  unfold mergedValue. rewrite updated_withEventId. simpl.
  by destruct (negb _ && _).
Qed.

Lemma mapGet_retagged f vals k :
  mapGet k (retagged f vals) = withEventId f <$> mapGet k vals.
Proof.
  induction vals as [|[k0 q0] vals IH]; simpl; [done|].
  by case_bool_decide.
Qed.

Lemma mapSet_retagged f vals k q :
  mapSet k (withEventId f q) (retagged f vals) = retagged f (mapSet k q vals).
Proof.
  induction vals as [|[k0 q0] vals IH]; simpl; [done|].
  case_bool_decide; simpl; [done|]. by rewrite IH.
Qed.

Lemma stepValues_retagged f vals eq :
  stepValues (retagged f vals) (withEventId f eq)
  = retagged f (stepValues vals eq).
Proof.
  unfold stepValues.
  change (keyed (withEventId f eq)) with (keyed eq).
  change (eventKeyOf (withEventId f eq)) with (eventKeyOf eq).
  destruct (keyed eq); [|done].
  rewrite mapGet_retagged.
  destruct (mapGet (eventKeyOf eq) vals) as [existingEq|]; simpl.
  - by rewrite mergedValue_withEventId, mapSet_retagged.
  - by rewrite mapSet_retagged.
Qed.

Lemma mergeValues_retagged f (filtered : list Quake) :
  ∀ vals, fold_left stepValues (map (withEventId f) filtered) (retagged f vals)
          = retagged f (fold_left stepValues filtered vals).
Proof.
  induction filtered as [|eq rest IH]; intros vals; simpl; [done|].
  by rewrite stepValues_retagged, IH.
Qed.

Lemma filteredEarthquakes_retag f (data : list RawReport) :
  filteredEarthquakes (map (retag f) data)
  = map (withEventId f) (filteredEarthquakes data).
Proof.
  induction data as [|d data IH]; simpl; [done|].
  rewrite IH. destruct d as [eq| |]; simpl; [|done..].
  change (listed (withEventId f eq)) with (listed eq).
  by destruct (listed eq).
Qed.

(** ** Tsunami forecasts: the loops and their values *)

Lemma setAdd_elem (x y : jsstring) (s : list jsstring) :
  y ∈ setAdd x s ↔ y ∈ s ∨ y = x.
Proof.
  unfold setAdd. case_bool_decide as Hin.
  - split; [by left|]. by intros [?| ->].
  - rewrite elem_of_app, list_elem_of_singleton. done.
Qed.

Lemma setAdd_NoDup (x : jsstring) (s : list jsstring) :
  NoDup s → NoDup (setAdd x s).
Proof.
  intros Hs. unfold setAdd. case_bool_decide as Hin; [done|].
  apply NoDup_app. split; [done|]. split; [|apply NoDup_singleton].
  by intros y Hy ->%list_elem_of_singleton.
Qed.

Lemma truthy_iff (s : jsstring) : truthy s = true ↔ s ≠ [].
Proof. by destruct s. Qed.

Lemma addForecast_value (f : ForecastsByGrade) (fc : Forecast) :
  addForecast f fc = if addFails fc then Throw else Ok (added f fc).
Proof.
  unfold added, addFails, addForecast.
  destruct (truthy (area_name fc)); [|by rewrite andb_false_r].
  by destruct (grade fc).
Qed.

Lemma collect_Throw (forecasts : list Forecast) :
  fold_left (fun acc forecast => f ← acc; addForecast f forecast)
            forecasts Throw
  = Throw.
Proof. induction forecasts as [|fc forecasts IH]; simpl; [done|apply IH]. Qed.

Lemma collect_value (forecasts : list Forecast) :
  ∀ f, fold_left (fun acc forecast => f ← acc; addForecast f forecast)
                 forecasts (Ok f)
       = if existsb addFails forecasts then Throw
         else Ok (fold_left added forecasts f).
Proof.
  induction forecasts as [|fc forecasts IH]; intros f; [done|].
  cbn [fold_left existsb mbind result_bind]. rewrite addForecast_value.
  destruct (addFails fc); cbn [orb]; [apply collect_Throw|apply IH].
Qed.

Lemma detailOf_value (forecasts : list Forecast) :
  detailOf forecasts
  = if existsb addFails forecasts then Throw
    else Ok (detailValue forecasts).
Proof.
  unfold detailOf, collectForecasts. rewrite collect_value.
  by destruct (existsb addFails forecasts).
Qed.

Lemma tsunamiStep_value (m : gmap jsstring TsunamiDetail)
  (info : TsunamiInfo) :
  tsunamiStep m info
  = if reportFails info then Throw else Ok (stepValue m info).
Proof.
  unfold tsunamiStep, reportFails, stepValue.
  destruct (ti_forecasts info) as [forecasts|]; [|done].
  rewrite detailOf_value. by destruct (existsb addFails forecasts).
Qed.

Lemma tsunamiLoop_Throw (infos : list TsunamiInfo) :
  fold_left (fun acc info => m ← acc; tsunamiStep m info) infos Throw
  = Throw.
Proof. induction infos as [|info infos IH]; simpl; [done|apply IH]. Qed.

Lemma tsunamiLoop_value (infos : list TsunamiInfo) :
  ∀ m, fold_left (fun acc info => m ← acc; tsunamiStep m info) infos (Ok m)
       = if existsb reportFails infos then Throw
         else Ok (fold_left stepValue infos m).
Proof.
  induction infos as [|info infos IH]; intros m; [done|].
  cbn [fold_left existsb mbind result_bind]. rewrite tsunamiStep_value.
  destruct (reportFails info); cbn [orb]; [apply tsunamiLoop_Throw|apply IH].
Qed.

(** The loop over the reports of code 552 throws exactly for a poll with
    a failing forecast, and otherwise builds the map read on values. *)
Lemma tsunamiDetailsMap_value (data : list RawReport) :
  tsunamiDetailsMap data
  = if pollFails data then Throw else Ok (detailValues data).
Proof. apply tsunamiLoop_value. Qed.

Lemma tsunamiInfos_elem (data : list RawReport) (info : TsunamiInfo) :
  info ∈ tsunamiInfos data ↔ TsunamiForecast info ∈ data.
Proof.
  unfold tsunamiInfos. rewrite list_elem_of_In, in_flat_map. split.
  - intros (d & Hd & Hin). destruct d as [eq|info'|code]; simpl in Hin;
      try done.
    destruct Hin as [->|[]]. by apply list_elem_of_In.
  - intros Hin. exists (TsunamiForecast info).
    split; [by apply list_elem_of_In|by left].
Qed.

Lemma addFails_iff (fc : Forecast) :
  addFails fc = true ↔ grade fc = InheritedGrade ∧ area_name fc ≠ [].
Proof.
  unfold addFails. rewrite andb_true_iff, bool_decide_eq_true, truthy_iff.
  done.
Qed.

Lemma pollFails_iff (data : list RawReport) :
  pollFails data = true
  ↔ ∃ info forecasts fc,
      TsunamiForecast info ∈ data ∧ ti_forecasts info = Some forecasts
      ∧ fc ∈ forecasts ∧ grade fc = InheritedGrade ∧ area_name fc ≠ [].
Proof.
  unfold pollFails. rewrite existsb_exists. split.
  - intros (info & Hin & Hfails). unfold reportFails in Hfails.
    destruct (ti_forecasts info) as [forecasts|] eqn:Hf; [|done].
    apply existsb_exists in Hfails as (fc & Hfc & Hadd).
    apply addFails_iff in Hadd as [Hg Hname].
    exists info, forecasts, fc.
    split; [by apply tsunamiInfos_elem, list_elem_of_In|].
    split; [done|]. split; [by apply list_elem_of_In|done].
  - intros (info & forecasts & fc & Hin & Hf & Hfc & Hg & Hname).
    exists info. split; [by apply list_elem_of_In, tsunamiInfos_elem|].
    unfold reportFails. rewrite Hf. apply existsb_exists.
    exists fc. split; [by apply list_elem_of_In|by apply addFails_iff].
Qed.

Lemma tsunamiDetailsMap_Throw (data : list RawReport) :
  tsunamiDetailsMap data = Throw
  ↔ ∃ info forecasts fc,
      TsunamiForecast info ∈ data ∧ ti_forecasts info = Some forecasts
      ∧ fc ∈ forecasts ∧ grade fc = InheritedGrade ∧ area_name fc ≠ [].
Proof.
  rewrite <- pollFails_iff, tsunamiDetailsMap_value.
  by destruct (pollFails data).
Qed.

Lemma stepValue_lookup (m : gmap jsstring TsunamiDetail)
  (info : TsunamiInfo) (id : jsstring) :
  stepValue m info !! id
  = match (if bool_decide (ti_event_id info = id)
           then ti_forecasts info else None) with
    | Some forecasts => Some (detailValue forecasts)
    | None => m !! id
    end.
Proof.
  unfold stepValue. destruct (ti_forecasts info) as [forecasts|].
  - case_bool_decide as Hid.
    + subst. by rewrite lookup_insert_eq.
    + by rewrite lookup_insert_ne.
  - by case_bool_decide.
Qed.

Lemma detailValues_fold (infos : list TsunamiInfo) (id : jsstring) :
  ∀ m : gmap jsstring TsunamiDetail,
    fold_left stepValue infos m !! id
    = match latestForecasts id infos with
      | Some forecasts => Some (detailValue forecasts)
      | None => m !! id
      end.
Proof.
  unfold latestForecasts, forecastsFor.
  induction infos as [|info infos IH]; intros m; simpl; [done|].
  rewrite IH, stepValue_lookup.
  destruct (if bool_decide (ti_event_id info = id) then ti_forecasts info
            else None) as [forecasts|]; simpl; [|done].
  rewrite last_cons. by destruct (last _).
Qed.

Lemma detailValues_lookup (data : list RawReport) (id : jsstring) :
  detailValues data !! id
  = detailValue <$> latestForecasts id (tsunamiInfos data).
Proof.
  unfold detailValues. rewrite detailValues_fold.
  by destruct (latestForecasts _ _).
Qed.

(** What the map holds when the loop ends: the detail of the last report
    of each correlation id that carries forecasts. *)
Lemma tsunami_details_stored (data : list RawReport) :
  match tsunamiDetailsMap data with
  | Ok m =>
      ∀ id, m !! id
            = match latestForecasts id (tsunamiInfos data) with
              | Some forecasts => okValue (detailOf forecasts)
              | None => None
              end
  | Throw => True
  end.
Proof.
  rewrite tsunamiDetailsMap_value.
  destruct (pollFails data) eqn:Hfails; [done|].
  intros id. rewrite detailValues_lookup.
  destruct (latestForecasts id (tsunamiInfos data)) as [forecasts|] eqn:Hl;
    [|done].
  simpl. rewrite detailOf_value.
  assert (existsb addFails forecasts = false) as ->; [|done].
  apply not_true_is_false. intros Hadd.
  assert (pollFails data = true) as Hp; [|congruence].
  unfold latestForecasts in Hl. apply last_Some_elem_of in Hl.
  unfold forecastsFor in Hl.
  apply list_elem_of_omap in Hl as (info & Hin & Hinfo).
  case_bool_decide; [|done].
  unfold pollFails. apply existsb_exists. exists info.
  split; [by apply list_elem_of_In|].
  unfold reportFails. by rewrite Hinfo.
Qed.

(** The three own keys of [forecastsByGrade]. *)
Local Abbreviation ownGrade g := (g ∈ [MajorWarning; Warning; Advisory]).

Lemma ownGrade_cases (g : Grade) :
  ownGrade g ↔ g = MajorWarning ∨ g = Warning ∨ g = Advisory.
Proof.
  rewrite !elem_of_cons, elem_of_nil. tauto.
Qed.

Lemma added_elem (f : ForecastsByGrade) (fc : Forecast) (g : Grade)
  (x : jsstring) :
  ownGrade g →
  x ∈ areasAt (added f fc) g
  ↔ x ∈ areasAt f g ∨ (grade fc = g ∧ area_name fc = x ∧ x ≠ []).
Proof.
  intros Hg%ownGrade_cases. unfold added, addForecast.
  destruct (truthy (area_name fc)) eqn:Hname.
  - apply truthy_iff in Hname.
    destruct Hg as [->|[->| ->]]; destruct (grade fc) eqn:Hfc;
      unfold areasAt; simpl;
      rewrite ?setAdd_elem; split; intros Hx;
      repeat match goal with
             | H : _ ∨ _ |- _ => destruct H
             | H : _ ∧ _ |- _ => destruct H
             end; subst; try discriminate; auto 6.
  - assert (area_name fc = []) as Hempty by by destruct (area_name fc).
    split; [by left|]. intros [?|(_ & <- & Hne)]; done.
Qed.

Lemma added_NoDup (f : ForecastsByGrade) (fc : Forecast) (g : Grade) :
  NoDup (areasAt f g) → NoDup (areasAt (added f fc) g).
Proof.
  unfold added, addForecast. destruct (truthy (area_name fc)); [|done].
  destruct (grade fc), g; unfold areasAt; simpl; try done;
    apply setAdd_NoDup.
Qed.

Lemma collected_fold_elem (forecasts : list Forecast) (g : Grade)
  (x : jsstring) :
  ownGrade g →
  ∀ f, x ∈ areasAt (fold_left added forecasts f) g
       ↔ x ∈ areasAt f g
         ∨ ∃ fc, fc ∈ forecasts ∧ grade fc = g ∧ area_name fc = x ∧ x ≠ [].
Proof.
  intros Hg. induction forecasts as [|fc forecasts IH]; intros f; simpl.
  - split; [by left|]. intros [?|(fc & Hin & _)]; [done|].
    by apply elem_of_nil in Hin.
  - rewrite IH, added_elem by done. split.
    + intros [[?|?]|(fc' & Hin & ?)].
      * by left.
      * right. exists fc. split; [left|done].
      * right. exists fc'. split; [by right|done].
    + intros [?|(fc' & [->|Hin]%elem_of_cons & ?)].
      * left. by left.
      * left. by right.
      * right. by exists fc'.
Qed.

Lemma collected_fold_NoDup (forecasts : list Forecast) (g : Grade) :
  ∀ f, NoDup (areasAt f g) →
       NoDup (areasAt (fold_left added forecasts f) g).
Proof.
  induction forecasts as [|fc forecasts IH]; intros f Hf; simpl; [done|].
  by apply IH, added_NoDup.
Qed.

Lemma highestGradeOf_first (f : ForecastsByGrade) :
  highestGradeOf f = firstNonEmptyGrade f.
Proof. by destruct f as [[|a mw] [|b w] [|c ad]]. Qed.

(** ** Results on the whole pipeline *)

Lemma uniqueEntries_values (data : list RawReport) :
  uniqueEntries data = Ok (mergeValues (filteredEarthquakes data)).
Proof. apply uniqueEntriesOf_values. Qed.

Lemma uniqueEarthquakes_values (data : list RawReport) :
  uniqueEarthquakes data
  = Ok (map snd (mergeValues (filteredEarthquakes data))).
Proof. apply uniqueEarthquakesOf_values. Qed.

(** The Events of a poll: none when the loop over the reports of code
    552 throws, else one per entry of the merge. *)
Lemma fetchEarthquakeData_values (data : list RawReport) :
  fetchEarthquakeData data
  = if pollFails data then []
    else map (fun entry => processEarthquake (detailValues data) entry.2)
             (mergeValues (filteredEarthquakes data)).
Proof.
  unfold fetchEarthquakeData, processedEarthquakes.
  rewrite tsunamiDetailsMap_value, uniqueEarthquakes_values.
  destruct (pollFails data); simpl; [done|]. by rewrite map_map.
Qed.

Lemma fetchEarthquakeData_cases (data : list RawReport) :
  fetchEarthquakeData data
  = match tsunamiDetailsMap data with
    | Ok m => map (fun entry => processEarthquake m entry.2)
                  (mergeValues (filteredEarthquakes data))
    | Throw => []
    end.
Proof.
  rewrite fetchEarthquakeData_values, tsunamiDetailsMap_value.
  by destruct (pollFails data).
Qed.

Lemma mergeValues_keys_perm (filtered : list Quake) :
  map fst (mergeValues filtered)
  ≡ₚ remove_dups (map eventKeyOf (List.filter keyed filtered)).
Proof.
  apply NoDup_Permutation.
  - apply mergeValues_keys_NoDup. constructor.
  - apply NoDup_remove_dups.
  - intros k. unfold mergeValues.
    rewrite mergeValues_keys_elem, elem_of_remove_dups. simpl.
    split.
    + intros [Hin|(eq & Hin & Hk & Hkey)]; [by apply elem_of_nil in Hin|].
      apply list_elem_of_fmap. exists eq. split; [done|].
      by apply keyed_filter_elem.
    + intros (eq & -> & [Hin Hk]%keyed_filter_elem)%list_elem_of_fmap.
      right. by exists eq.
Qed.

(** C1, as the script has it. For every poll, the map of the merge loop
    holds exactly one entry per distinct key string "{time}_{name}" among
    the reports that pass the filter and carry a time and an epicentre
    name, and two such reports select the same entry iff their key strings
    are equal. The poll gives one Event per entry, in the order of the
    entries, unless the loop over the tsunami forecasts threw before the
    merge, which it does exactly when a forecast with an area name has a
    grade that names an inherited property of the grade table: then the
    poll gives no Event at all. When no event time contains an underscore
    equality of the key strings is the same as equality of the (time,
    name) pairs, with one entry per distinct pair. The upstream event id
    plays no role: rewriting the ids rewrites them in the result and
    changes nothing else. *)
Theorem merge_by_event_key (data : list RawReport) :
  ∃ entries,
    uniqueEntries data = Ok entries
    ∧ uniqueEarthquakes data = Ok (map snd entries)
    ∧ fetchEarthquakeData data
      = match tsunamiDetailsMap data with
        | Ok m => map (fun entry => processEarthquake m entry.2) entries
        | Throw => []
        end
    ∧ (tsunamiDetailsMap data = Throw
       ↔ ∃ info forecasts fc,
           TsunamiForecast info ∈ data ∧ ti_forecasts info = Some forecasts
           ∧ fc ∈ forecasts ∧ grade fc = InheritedGrade
           ∧ area_name fc ≠ [])
    ∧ NoDup (map fst entries)
    ∧ (∀ k, k ∈ map fst entries
            ↔ ∃ eq, eq ∈ filteredEarthquakes data ∧ keyed eq = true
                    ∧ eventKeyOf eq = k)
    ∧ length entries
      = length (remove_dups
                  (map eventKeyOf
                       (List.filter keyed (filteredEarthquakes data))))
    ∧ (∀ eq1 eq2, eq1 ∈ filteredEarthquakes data → keyed eq1 = true →
                  (sameEvent entries eq1 eq2
                   ↔ eventKeyOf eq1 = eventKeyOf eq2))
    ∧ (Forall (fun eq => underscore ∉ time (earthquake eq))
              (filteredEarthquakes data) →
       length entries
       = length (remove_dups
                   (map keyPair
                        (List.filter keyed (filteredEarthquakes data))))
       ∧ ∀ eq1 eq2, eq1 ∈ filteredEarthquakes data →
                    eq2 ∈ filteredEarthquakes data → keyed eq1 = true →
                    (sameEvent entries eq1 eq2 ↔ keyPair eq1 = keyPair eq2))
    ∧ (∀ f, uniqueEntries (map (retag f) data) = Ok (retagged f entries)).
Proof.
  set (filtered := filteredEarthquakes data).
  exists (mergeValues filtered).
  assert (Hkeys : ∀ k, k ∈ map fst (mergeValues filtered)
            ↔ ∃ eq, eq ∈ filtered ∧ keyed eq = true ∧ eventKeyOf eq = k).
  { intros k. unfold mergeValues. rewrite mergeValues_keys_elem.
    split; [|by right]. intros [Hin|?]; [|done]. by apply elem_of_nil in Hin. }
  assert (Hcount : length (mergeValues filtered)
            = length (remove_dups
                        (map eventKeyOf (List.filter keyed filtered)))).
  { rewrite <- (length_map fst (mergeValues filtered)).
    by rewrite mergeValues_keys_perm. }
  assert (Hsame : ∀ eq1 eq2, eq1 ∈ filtered → keyed eq1 = true →
            (sameEvent (mergeValues filtered) eq1 eq2
             ↔ eventKeyOf eq1 = eventKeyOf eq2)).
  { intros eq1 eq2 Hin Hk. apply sameEvent_key, Hkeys. by exists eq1. }
  split; [apply uniqueEntries_values|].
  split; [apply uniqueEarthquakes_values|].
  split; [apply fetchEarthquakeData_cases|].
  split; [apply tsunamiDetailsMap_Throw|].
  split; [apply mergeValues_keys_NoDup; constructor|].
  split; [exact Hkeys|].
  split; [exact Hcount|].
  split; [exact Hsame|].
  split.
  - intros Htimes. rewrite Forall_forall in Htimes. split.
    + rewrite Hcount.
      rewrite <- (map_map keyPair (fun p => underscored p.1 p.2)).
      apply remove_dups_length_inj.
      intros p1 p2 (eq1 & -> & [H1 _]%keyed_filter_elem)%list_elem_of_fmap
             (eq2 & -> & [H2 _]%keyed_filter_elem)%list_elem_of_fmap Heq.
      apply eventKeyOf_keyPair; [by apply Htimes..|done].
    + intros eq1 eq2 Hin1 Hin2 Hk1.
      rewrite Hsame by done. apply eventKeyOf_keyPair; by apply Htimes.
  - intros f. rewrite uniqueEntries_values, filteredEarthquakes_retag.
    f_equal. apply (mergeValues_retagged f _ []).
Qed.

(** C1 as stated fails where a time contains an underscore: two reports
    with different (time, name) pairs have one key string and are merged
    into one Event. *)
Lemma merge_key_collision :
  keyPair Scenario.notoA ≠ keyPair Scenario.notoB
  ∧ listed Scenario.notoA = true ∧ listed Scenario.notoB = true
  ∧ keyed Scenario.notoA = true ∧ keyed Scenario.notoB = true
  ∧ uniqueEarthquakes [Intensity Scenario.notoA; Intensity Scenario.notoB]
    = Ok [Scenario.notoA].
Proof.
  split; [vm_compute; discriminate|].
  repeat split; vm_compute; reflexivity.
Qed.

(** ** The maximum scale *)

Lemma updated_maxScale (existingEq eq : Quake) :
  keyed existingEq = true →
  maxScale (earthquake (updated existingEq eq))
  = if greater (maxScale (earthquake eq)) (maxScale (earthquake existingEq))
    then maxScale (earthquake eq) else maxScale (earthquake existingEq).
Proof.
  intros (hx & Hhx & _)%keyed_hypocenter.
  destruct existingEq as [idx [tx hx' sx dx] px], eq as [ide [te he se de] pe].
  simpl in Hhx. subst hx'.
  unfold updated, updateExisting; simpl.
  destruct he as [h|]; simpl;
    repeat (match goal with |- context [if ?b then _ else _] =>
              destruct b eqn:? end;
            unfold setHypocenter, setMaxScale, setDomesticTsunami in *;
            simpl in *); congruence.
Qed.

(** In one iteration a greater incoming scale becomes the scale of the
    entry, whether the entry is replaced or assigned to. *)
Lemma mergedValue_raises (existingEq eq : Quake) :
  keyed existingEq = true →
  greater (maxScale (earthquake eq)) (maxScale (earthquake existingEq)) = true →
  maxScale (earthquake (mergedValue existingEq eq)) = maxScale (earthquake eq).
Proof.
  intros Hkeyed Hgt. unfold mergedValue. destruct (negb _ && _); [done|].
  by rewrite updated_maxScale, Hgt.
Qed.

Lemma updated_scaleOf (existingEq eq : Quake) :
  keyed existingEq = true →
  listed existingEq = true → listed eq = true →
  listed (updated existingEq eq) = true
  ∧ scaleOf (updated existingEq eq) = Z.max (scaleOf existingEq) (scaleOf eq).
Proof.
  intros Hkeyed. unfold listed, scaleOf. rewrite updated_maxScale by done.
  destruct (maxScale (earthquake existingEq)) as [sx|]; [|done].
  destruct (maxScale (earthquake eq)) as [se|]; [|done].
  simpl. intros Hx He. destruct (sx <? se)%Z eqn:Hlt.
  - apply Z.ltb_lt in Hlt. split; [done|lia].
  - apply Z.ltb_ge in Hlt. split; [done|lia].
Qed.

(** Where no report replaces the entry (the first report has points, or
    none of the later ones has), the merged scale is the maximum. *)
Lemma mergeGroup_maxScale (rest : list Quake) :
  ∀ seed : Quake,
    keyed seed = true → Forall (fun eq => keyed eq = true) rest →
    listed seed = true → Forall (fun eq => listed eq = true) rest →
    isSet (points seed) = true ∨ Forall (fun eq => points eq = None) rest →
    ∃ merged, mergeGroup (Some seed) rest = Some merged
              ∧ scaleOf merged = fold_left Z.max (map scaleOf rest) (scaleOf seed).
Proof.
  induction rest as [|eq rest IH];
    intros seed Hkseed Hkrest Hseed Hrest Hcase; simpl.
  - by exists seed.
  - apply Forall_cons in Hrest as [Heq Hrest].
    apply Forall_cons in Hkrest as [Hkeq Hkrest].
    assert (Hkeep : mergedValue seed eq = updated seed eq).
    { unfold mergedValue. destruct Hcase as [Hp|Hnone].
      - by rewrite Hp.
      - apply Forall_cons in Hnone as [-> _]. simpl. by rewrite andb_false_r. }
    rewrite Hkeep.
    destruct (updated_scaleOf seed eq Hkseed Hseed Heq) as [Hlisted Hscale].
    rewrite <- Hscale. apply IH; [by apply keyed_updated|done..|].
    rewrite updated_points.
    destruct Hcase as [?|Hnone]; [by left|].
    right. by apply Forall_cons in Hnone as [_ ?].
Qed.

(** C2 at its failing input: a first report of scale 70 without points
    followed by a report of scale 60 with points, same time and name. The
    second report replaces the first in the map and the assignment of the
    greater scale goes to the object that was replaced: the Event has
    scale 60. *)
Lemma maxScale_lost_on_replacement :
  let data := [Intensity Scenario.strongPlain; Intensity Scenario.weakDetailed] in
  keyPair Scenario.strongPlain = keyPair Scenario.weakDetailed
  ∧ filteredEarthquakes data = [Scenario.strongPlain; Scenario.weakDetailed]
  ∧ scaleOf Scenario.strongPlain = 70%Z
  ∧ uniqueEarthquakes data = Ok [Scenario.weakDetailed]
  ∧ map eventMaxScale (fetchEarthquakeData data) = [Some 60%Z].
Proof. vm_compute. repeat split; reflexivity. Qed.

(** The scenario of the specification, in both orders: scale 70 and the
    points of the detailed report. *)
Lemma sanriku_either_order :
  map (fun ev => (eventMaxScale ev, eventPoints ev))
      (fetchEarthquakeData [Intensity Scenario.sanrikuPlain;
                            Intensity Scenario.sanrikuDetailed])
  = [(Some 70%Z, map processPoint [Scenario.miyagi; Scenario.iwate])]
  ∧ map (fun ev => (eventMaxScale ev, eventPoints ev))
        (fetchEarthquakeData [Intensity Scenario.sanrikuDetailed;
                              Intensity Scenario.sanrikuPlain])
    = [(Some 70%Z, map processPoint [Scenario.miyagi; Scenario.iwate])].
Proof. vm_compute. split; reflexivity. Qed.

(** ** The points *)

Lemma processEarthquake_points (m : gmap jsstring TsunamiDetail) (eq : Quake) :
  eventPoints (processEarthquake m eq)
  = match points eq with
    | Some ps => map processPoint ps
    | None => []
    end.
Proof. reflexivity. Qed.

Lemma mergeGroup_firstPoints (eqs : list Quake) :
  ∀ q, ∃ merged, mergeGroup (Some q) eqs = Some merged
                 ∧ points merged = firstPoints (q :: eqs).
Proof.
  induction eqs as [|eq eqs IH]; intros q.
  - exists q. split; [done|]. unfold firstPoints. simpl.
    by destruct (points q).
  - destruct (IH (mergedValue q eq)) as (merged & Hmerged & Hpoints).
    exists merged. split; [exact Hmerged|]. rewrite Hpoints.
    unfold firstPoints. simpl. rewrite mergedValue_points.
    destruct (points q); [done|]. by destruct (points eq).
Qed.

(** C3, as the script has it. The merged entry of a key, and the Event
    made from it, have the points of the first report of the key, in
    fetch order, that has a points array, taken whole. So when the first
    report has no points field and a later report is the first to have
    one, the entry has exactly the points of that later report; but when
    the first report has a points array, also an empty one, the entry
    keeps it and the points of later reports are never taken. *)
Theorem points_replaced_wholesale (data : list RawReport) (k : jsstring)
  (seed : Quake) (rest : list Quake) :
  group k (filteredEarthquakes data) = seed :: rest →
  ∃ entries merged,
    uniqueEntries data = Ok entries
    ∧ uniqueEarthquakes data = Ok (map snd entries)
    ∧ mapGet k entries = Some merged
    ∧ points merged = firstPoints (seed :: rest)
    ∧ (points seed = None →
       ∀ mid later post ps,
         rest = mid ++ later :: post →
         Forall (fun eq => points eq = None) mid →
         points later = Some ps →
         points merged = Some ps)
    ∧ (∀ ps, points seed = Some ps → points merged = Some ps)
    ∧ match tsunamiDetailsMap data with
      | Ok m => processEarthquake m merged ∈ fetchEarthquakeData data
      | Throw => fetchEarthquakeData data = []
      end
    ∧ (∀ m, eventPoints (processEarthquake m merged)
            = match firstPoints (seed :: rest) with
              | Some ps => map processPoint ps
              | None => []
              end).
Proof.
  intros Hgroup.
  destruct (mergeGroup_firstPoints rest seed) as (merged & Hmerged & Hpoints).
  exists (mergeValues (filteredEarthquakes data)), merged.
  assert (Hget : mapGet k (mergeValues (filteredEarthquakes data))
                 = Some merged).
  { unfold mergeValues. by rewrite mergeValues_get, Hgroup. }
  split; [apply uniqueEntries_values|].
  split; [apply uniqueEarthquakes_values|].
  split; [done|].
  split; [done|].
  split.
  { intros Hseed mid later post ps -> Hmid Hlater.
    destruct (mergeGroup_points seed later mid post ps Hseed Hmid Hlater)
      as (merged' & Hmerged' & Hpoints').
    simpl in Hmerged'. rewrite Hmerged in Hmerged'.
    by injection Hmerged' as ->. }
  split.
  { intros ps Hseed.
    destruct (mergeGroup_keeps_points rest seed ps Hseed)
      as (merged' & Hmerged' & Hpoints').
    rewrite Hmerged in Hmerged'. by injection Hmerged' as ->. }
  split.
  - rewrite fetchEarthquakeData_cases.
    destruct (tsunamiDetailsMap data) as [m|]; [|done].
    apply list_elem_of_fmap.
    exists (k, merged). split; [done|]. by apply mapGet_Some_elem.
  - intros m. rewrite processEarthquake_points. by rewrite Hpoints.
Qed.

(** C3 as stated fails for a first report that has an empty points
    array: it has no observation points, the later report of the key
    supplies two, and the entry and the Event keep the empty list. *)
Lemma empty_points_array_kept :
  let seed := setPoints Scenario.sanrikuPlain (Some []) in
  let data := [Intensity seed; Intensity Scenario.sanrikuDetailed] in
  keyPair seed = keyPair Scenario.sanrikuDetailed
  ∧ points seed = Some []
  ∧ points Scenario.sanrikuDetailed
    = Some [Scenario.miyagi; Scenario.iwate]
  ∧ map points <$> uniqueEarthquakes data = Ok [Some []]
  ∧ map eventPoints (fetchEarthquakeData data) = [[]].
Proof. vm_compute. repeat split; reflexivity. Qed.

Lemma points_replaced_wholesale_witness :
  let data := [Intensity Scenario.sanrikuPlain;
               Intensity Scenario.sanrikuDetailed] in
  let seed := Scenario.sanrikuPlain in
  let rest := [Scenario.sanrikuDetailed] in
  ∃ entries merged,
    uniqueEntries data = Ok entries
    ∧ uniqueEarthquakes data = Ok (map snd entries)
    ∧ mapGet (u16 "2011-03-11T14:46:00+09:00_三陸沖") entries = Some merged
    ∧ points merged = firstPoints (seed :: rest)
    ∧ (points seed = None →
       ∀ mid later post ps,
         rest = mid ++ later :: post →
         Forall (fun eq => points eq = None) mid →
         points later = Some ps →
         points merged = Some ps)
    ∧ (∀ ps, points seed = Some ps → points merged = Some ps)
    ∧ match tsunamiDetailsMap data with
      | Ok m => processEarthquake m merged ∈ fetchEarthquakeData data
      | Throw => fetchEarthquakeData data = []
      end
    ∧ (∀ m, eventPoints (processEarthquake m merged)
            = match firstPoints (seed :: rest) with
              | Some ps => map processPoint ps
              | None => []
              end).
Proof.
  apply (points_replaced_wholesale
           [Intensity Scenario.sanrikuPlain; Intensity Scenario.sanrikuDetailed]
           (u16 "2011-03-11T14:46:00+09:00_三陸沖")
           Scenario.sanrikuPlain [Scenario.sanrikuDetailed]).
  vm_compute; reflexivity.
Defined.

(** ** Tsunami forecasts *)

(** C4, as the script has it. The loop over the reports of code 552
    throws, and the poll yields no Event, exactly when a forecast with an
    area name has a grade that names an inherited property of the grade
    table. Otherwise the detail stored for a correlation id is that of
    the last report in fetch order that has this id and carries
    forecasts; it is built from that report alone. Within a detail, each
    of the three grades holds, without duplicates, exactly the non-empty
    area names the report's forecasts give at that grade, and the highest
    grade is the first of MajorWarning, Warning, Advisory with a non-empty
    set, else None. The Event of an intensity report receives the areas
    stored for the report's own correlation id. *)
Theorem tsunami_detail_of_latest_report (data : list RawReport) :
  match tsunamiDetailsMap data with
  | Ok m =>
      ∀ id, m !! id
            = match latestForecasts id (tsunamiInfos data) with
              | Some forecasts => okValue (detailOf forecasts)
              | None => None
              end
  | Throw => fetchEarthquakeData data = []
  end
  ∧ (tsunamiDetailsMap data = Throw
     ↔ ∃ info forecasts fc,
         TsunamiForecast info ∈ data ∧ ti_forecasts info = Some forecasts
         ∧ fc ∈ forecasts ∧ grade fc = InheritedGrade ∧ area_name fc ≠ [])
  ∧ (∀ forecasts,
       match detailOf forecasts with
       | Ok d =>
           (∀ g, g ∈ [MajorWarning; Warning; Advisory] →
                 NoDup (areasAt (areas d) g)
                 ∧ ∀ x, x ∈ areasAt (areas d) g
                        ↔ ∃ fc, fc ∈ forecasts ∧ grade fc = g
                                ∧ area_name fc = x ∧ x ≠ [])
           ∧ highestGrade d = firstNonEmptyGrade (areas d)
       | Throw =>
           ∃ fc, fc ∈ forecasts ∧ grade fc = InheritedGrade
                 ∧ area_name fc ≠ []
       end)
  ∧ highestGrade <$> detailOf [mkForecast Advisory (u16 "X");
                               mkForecast Warning (u16 "Y")]
    = Ok (u16 "Warning")
  ∧ (∀ m eq, tsunamiForecastAreas (processEarthquake m eq)
             = areas <$> m !! event_id eq).
Proof.
  split.
  { pose proof (tsunami_details_stored data) as Hstored.
    pose proof (fetchEarthquakeData_cases data) as Hfetch.
    by destruct (tsunamiDetailsMap data). }
  split; [apply tsunamiDetailsMap_Throw|].
  split.
  { intros forecasts. rewrite detailOf_value.
    destruct (existsb addFails forecasts) eqn:Hadd.
    - apply existsb_exists in Hadd as (fc & Hin & [Hg Hname]%addFails_iff).
      exists fc. split; [by apply list_elem_of_In|done].
    - unfold detailValue. cbn [areas highestGrade]. split.
      + intros g Hg. split.
        * apply collected_fold_NoDup.
          apply ownGrade_cases in Hg as [->|[->| ->]]; apply NoDup_nil_2.
        * intros x. unfold collected. rewrite collected_fold_elem by done.
          split; [|by right]. intros [Hin|?]; [|done].
          apply ownGrade_cases in Hg as [->|[->| ->]];
            by apply elem_of_nil in Hin.
      + apply highestGradeOf_first. }
  split; [by vm_compute|]. done.
Qed.

(** C4 as stated fails for two reports with one correlation id: the
    second report's detail overwrites the first's, so the area the first
    report gives at Warning is not in the detail and the highest grade is
    Advisory. *)
Lemma tsunami_reports_not_united :
  let first := mkTsunamiInfo (u16 "20240101161000")
                 (Some [mkForecast Warning (u16 "石川県能登")]) in
  let second := mkTsunamiInfo (u16 "20240101161000")
                  (Some [mkForecast Advisory (u16 "富山県")]) in
  let data := [TsunamiForecast first; TsunamiForecast second] in
  ∃ m d, tsunamiDetailsMap data = Ok m
         ∧ m !! u16 "20240101161000" = Some d
         ∧ areasAt (areas d) Warning = []
         ∧ areasAt (areas d) Advisory = [u16 "富山県"]
         ∧ highestGrade d = u16 "Advisory".
Proof. do 2 eexists. vm_compute. repeat split; reflexivity. Qed.

(** A forecast whose grade names an inherited property ends the whole
    poll: the intensity report of the same poll gives no Event. *)
Lemma inherited_grade_ends_poll :
  let info := mkTsunamiInfo (u16 "20110311144600")
                (Some [mkForecast InheritedGrade (u16 "宮城県")]) in
  let data := [TsunamiForecast info; Intensity Scenario.sanrikuDetailed] in
  tsunamiDetailsMap data = Throw
  ∧ fetchEarthquakeData data = []
  ∧ length (fetchEarthquakeData [Intensity Scenario.sanrikuDetailed]) = 1%nat.
Proof. vm_compute. repeat split; reflexivity. Qed.

(** ** The synthetic id *)

Lemma mergeValues_keyed (filtered : list Quake) :
  Forall (fun kq => keyed kq.2 = true) (mergeValues filtered).
Proof.
  destruct (mergeAll_refines filtered) as (st & _ & Hinv). apply Hinv.
Qed.

Lemma keyed_epicenter (eq : Quake) :
  keyed eq = true →
  or_else (epicenterNameOf eq) (u16 "不明") = epicenterNameOf eq.
Proof.
  unfold keyed, or_else. by intros [_ ->]%andb_prop.
Qed.

Lemma processEarthquake_id (m : gmap jsstring TsunamiDetail) (eq : Quake) :
  id (processEarthquake m eq) = Digest.digestMessage (idSource eq).
Proof. reflexivity. Qed.

Lemma processEarthquake_epicenter (m : gmap jsstring TsunamiDetail)
  (eq : Quake) :
  epicenter (processEarthquake m eq) = or_else (epicenterNameOf eq) (u16 "不明").
Proof. reflexivity. Qed.

(** C5. Every processed earthquake of a poll has a time and an epicentre
    name, and its id is 64 lowercase hexadecimal digits that, read back
    two digits per byte, are the 32 bytes of the SHA-256 digest of the
    UTF-8 text of "{time}_{name}"; the encoded text read back as UTF-8 is
    the text itself (its scalar values), and the digest function meets
    the test vectors of the standard for one, two and three blocks. The
    id is a function of the time and the name alone: equal times and
    names give equal ids whatever the upstream event ids, the other
    fields and the poll. A poll whose loop over the tsunami forecasts
    throws has no processed earthquake. *)
Theorem event_id_is_content_hash (data : list RawReport) :
  ∃ unique,
    uniqueEarthquakes data = Ok unique
    ∧ fetchEarthquakeData data
      = match tsunamiDetailsMap data with
        | Ok m => map (processEarthquake m) unique
        | Throw => []
        end
    ∧ Forall (fun eq =>
                ∀ m,
                  let ev := processEarthquake m eq in
                  let text :=
                    underscored (time (earthquake eq)) (epicenter ev) in
                  time (earthquake eq) ≠ []
                  ∧ epicenter ev = epicenterNameOf eq
                  ∧ epicenter ev ≠ []
                  ∧ id ev
                    = concat (map Digest.hexByte
                                (SHA256.digest (Digest.textEncode text)))
                  ∧ length (id ev) = 64%nat
                  ∧ Forall (fun c => Digest.isLowerHex c = true) (id ev)
                  ∧ Digest.fromHex (id ev)
                    = Some (SHA256.digest (Digest.textEncode text))
                  ∧ (Forall (fun c => c < 0x10000) text →
                     Digest.textDecode (Digest.textEncode text)
                     = Some (Digest.scalarValues text)))
             unique
    ∧ (∀ m1 m2 eq1 eq2,
         keyPair eq1 = keyPair eq2 →
         id (processEarthquake m1 eq1) = id (processEarthquake m2 eq2))
    ∧ Digest.fromHex
        (u16 "e3b0c44298fc1c149afbf4c8996fb92427ae41e4649b934ca495991b7852b855")
      = Some (SHA256.digest [])
    ∧ Digest.fromHex
        (u16 "ba7816bf8f01cfea414140de5dae2223b00361a396177a9cb410ff61f20015ad")
      = Some (SHA256.digest (bytes_of_string "abc"))
    ∧ Digest.fromHex
        (u16 "248d6a61d20638b8e5c026930c3e6039a33ce45964ff2167f6ecedd419db06c1")
      = Some (SHA256.digest
                (bytes_of_string
                   "abcdbcdecdefdefgefghfghighijhijkijkljklmklmnlmnomnopnopq"))
    ∧ Digest.fromHex
        (u16 "1e3c4f4750c8c29bbfa9ced317788176b156d342e57f7777f62fd7221a44312f")
      = Some (SHA256.digest (repeat 0x61 130))
    ∧ map id (fetchEarthquakeData [Intensity Scenario.sanrikuPlain;
                                   Intensity Scenario.sanrikuDetailed])
      = [u16 "a9ccb6f1c8dab520cee086671d942f751feaa494afa832fad6284ee8ed3cacf1"].
Proof.
  exists (map snd (mergeValues (filteredEarthquakes data))).
  split; [apply uniqueEarthquakes_values|].
  split.
  { rewrite fetchEarthquakeData_cases.
    destruct (tsunamiDetailsMap data); [|done]. by rewrite map_map. }
  split.
  { apply Forall_fmap.
    eapply Forall_impl; [apply mergeValues_keyed|].
    intros [k eq] Hkeyed m. unfold compose. cbv beta zeta. cbn [snd] in *.
    rewrite processEarthquake_id, processEarthquake_epicenter.
    unfold idSource. rewrite (keyed_epicenter _ Hkeyed).
    destruct (keyed_hypocenter _ Hkeyed) as (h & Hh & Hname).
    split; [by apply keyed_time|].
    split; [reflexivity|].
    split; [unfold epicenterNameOf; by rewrite Hh|].
    split; [apply DigestSpec.digestMessage_hex|].
    split; [apply DigestSpec.digestMessage_hex|].
    split; [apply DigestSpec.digestMessage_hex|].
    split; [apply DigestSpec.fromHex_digestMessage|].
    apply DigestSpec.textDecode_textEncode. }
  split.
  { intros m1 m2 eq1 eq2 Hpair. rewrite !processEarthquake_id.
    unfold idSource. unfold keyPair in Hpair.
    injection Hpair as Htime Hname. by rewrite Htime, Hname. }
  vm_compute. repeat split; reflexivity.
Qed.

(** The id does not depend on the upstream event id of the report. *)
Lemma event_id_ignores_upstream_id (f : jsstring → jsstring)
  (m1 m2 : gmap jsstring TsunamiDetail) (eq : Quake) :
  id (processEarthquake m1 (withEventId f eq)) = id (processEarthquake m2 eq).
Proof. rewrite !processEarthquake_id. reflexivity. Qed.

Lemma event_id_sanriku :
  map id (fetchEarthquakeData [Intensity Scenario.sanrikuPlain;
                               Intensity Scenario.sanrikuDetailed])
  = [Digest.digestMessage (u16 "2011-03-11T14:46:00+09:00_三陸沖")].
Proof. vm_compute. reflexivity. Qed.

End AggregatorSpec.

(* ===================================================================== *)
(** * Further properties of the event aggregation *)
(* ===================================================================== *)

Module AggregatorMore.

Import Aggregator Observation Badges AggregatorSpec.

(** ** Order of the Events *)

Lemma stepValues_keys_setAdd (vals : list (jsstring * Quake)) (eq : Quake) :
  map fst (stepValues vals eq)
  = if keyed eq then setAdd (eventKeyOf eq) (map fst vals) else map fst vals.
Proof.
  rewrite stepValues_keys. unfold setAdd.
  destruct (keyed eq); simpl; [|done]. by case_bool_decide.
Qed.

Lemma mergeValues_keys_order (filtered : list Quake) :
  ∀ vals,
    map fst (fold_left stepValues filtered vals)
    = fold_left (fun seen k => setAdd k seen)
                (map eventKeyOf (List.filter keyed filtered)) (map fst vals).
Proof.
  induction filtered as [|eq rest IH]; intros vals; simpl; [done|].
  rewrite IH, stepValues_keys_setAdd. by destruct (keyed eq).
Qed.

Lemma filter_filter_andb {A} (f g : A → bool) (l : list A) :
  List.filter f (List.filter g l) = List.filter (fun x => g x && f x) l.
Proof.
  induction l as [|x l IH]; simpl; [done|].
  destruct (g x); simpl; [|done]. destruct (f x); by rewrite IH.
Qed.

Lemma setAdd_fold_from (l : list jsstring) :
  ∀ seen,
    fold_left (fun seen k => setAdd k seen) l seen
    = seen ++ List.filter (fun x => bool_decide (x ∉ seen))
                          (fold_left (fun seen k => setAdd k seen) l []).
Proof.
  induction l as [|k l IH]; intros seen; simpl.
  - by rewrite app_nil_r.
  - rewrite (IH (setAdd k seen)), (IH (setAdd k [])).
    unfold setAdd at 3. simpl.
    rewrite !filter_filter_andb.
    unfold setAdd. simpl. case_bool_decide as Hk; simpl.
    + rewrite bool_decide_false by (intros Hn; by apply Hn).
      f_equal. apply List.filter_ext_in. intros x _.
      rewrite andb_comm. case_bool_decide as Hx; simpl; [|done].
      symmetry. apply bool_decide_eq_true. intros Hin.
      apply list_elem_of_singleton in Hin. by subst.
    + rewrite bool_decide_true by done.
      rewrite <- app_assoc. simpl. do 2 f_equal.
      apply List.filter_ext_in. intros x _.
      rewrite andb_comm, <- bool_decide_and. apply bool_decide_ext.
      rewrite elem_of_app, !list_elem_of_singleton. tauto.
Qed.

Lemma setAdd_fold_NoDup (l : list jsstring) :
  ∀ seen, NoDup seen → NoDup (fold_left (fun seen k => setAdd k seen) l seen).
Proof.
  induction l as [|k l IH]; intros seen Hnd; simpl; [done|].
  by apply IH, setAdd_NoDup.
Qed.

Lemma distinctInOrder_cons (k : jsstring) (l : list jsstring) :
  distinctInOrder (k :: l)
  = k :: List.filter (fun x => bool_decide (x ≠ k)) (distinctInOrder l).
Proof.
  unfold distinctInOrder. simpl. rewrite setAdd_fold_from.
  unfold setAdd. simpl. f_equal. apply List.filter_ext_in. intros x _.
  apply bool_decide_ext. by rewrite list_elem_of_singleton.
Qed.

(** X1. The Events of a poll whose loop over the tsunami forecasts does
    not throw come in the order in which their merge keys first occur
    among the listed reports: the map of the merge loop keeps insertion
    order, a later report of a known key never moves its entry, and
    nothing sorts the result. A poll whose forecast loop throws has no
    Event. *)
Theorem events_in_first_occurrence_order (data : list RawReport) :
  ∃ entries,
    uniqueEntries data = Ok entries
    ∧ fetchEarthquakeData data
      = match tsunamiDetailsMap data with
        | Ok m => map (fun entry => processEarthquake m entry.2) entries
        | Throw => []
        end
    ∧ map fst entries
      = distinctInOrder
          (map eventKeyOf (List.filter keyed (filteredEarthquakes data)))
    ∧ distinctInOrder [] = []
    ∧ ∀ k l, distinctInOrder (k :: l)
             = k :: List.filter (fun x => bool_decide (x ≠ k))
                                (distinctInOrder l).
Proof.
  exists (mergeValues (filteredEarthquakes data)).
  split; [apply uniqueEntries_values|].
  split; [apply fetchEarthquakeData_cases|].
  split; [apply (mergeValues_keys_order _ [])|].
  split; [done|apply distinctInOrder_cons].
Qed.

(** ** Where the fields of a merged report come from *)

Lemma mergeGroup_snoc (acc : option Quake) (eqs : list Quake) (eq : Quake) :
  mergeGroup acc (eqs ++ [eq])
  = Some (match mergeGroup acc eqs with
          | Some existingEq => mergedValue existingEq eq
          | None => eq
          end).
Proof. by rewrite mergeGroup_app. Qed.

Lemma updated_domesticTsunami (existingEq eq : Quake) :
  keyed existingEq = true →
  domesticTsunami (earthquake (updated existingEq eq))
  = domesticTsunami (earthquake eq).
Proof.
  intros Hk. apply keyed_hypocenter in Hk as (hx & Hx & _).
  unfold updated, updateExisting. rewrite Hx.
  destruct (hypocenter (earthquake eq)) as [h|]; simpl;
    repeat (match goal with
            | |- context [if ?b then _ else _] => destruct b eqn:?
            end; simpl in *);
    unfold setMaxScale, setHypocenter in *; simpl in *;
    try done;
    repeat match goal with
           | H : bool_decide _ = false |- _ =>
               apply bool_decide_eq_false in H; apply dec_stable in H
           end; congruence.
Qed.

Lemma mergedValue_domesticTsunami (existingEq eq : Quake) :
  keyed existingEq = true →
  domesticTsunami (earthquake (mergedValue existingEq eq))
  = domesticTsunami (earthquake eq).
Proof.
  intros Hk. unfold mergedValue.
  destruct (negb _ && _); [done|by apply updated_domesticTsunami].
Qed.

Lemma group_keyed (k : jsstring) (filtered : list Quake) :
  Forall (fun eq => keyed eq = true) (group k filtered).
Proof.
  apply List.Forall_forall. intros eq Hin.
  apply List.filter_In in Hin as [_ Hin].
  by apply andb_true_iff in Hin as [? _].
Qed.

Lemma mergeGroup_keyed (eqs : list Quake) :
  ∀ acc merged,
    from_option (fun q => keyed q = true) True acc →
    Forall (fun eq => keyed eq = true) eqs →
    mergeGroup acc eqs = Some merged → keyed merged = true.
Proof.
  induction eqs as [|eq eqs IH] using rev_ind; intros acc merged Hacc Hall.
  - simpl. intros ->. done.
  - apply Forall_app in Hall as [Hall Heq].
    apply Forall_inv in Heq.
    rewrite mergeGroup_snoc. intros [= <-].
    destruct (mergeGroup acc eqs) as [q|] eqn:Hq; [|done].
    apply keyed_mergedValue; [|done]. by eapply IH.
Qed.

Lemma mergeGroup_domesticTsunami (eqs : list Quake) (acc : option Quake) :
  from_option (fun q => keyed q = true) True acc →
  Forall (fun eq => keyed eq = true) eqs →
  eqs ≠ [] →
  (fun q => domesticTsunami (earthquake q)) <$> mergeGroup acc eqs
  = (fun q => domesticTsunami (earthquake q)) <$> last eqs.
Proof.
  intros Hacc Hall Hne.
  destruct eqs as [|eq eqs _] using rev_ind; [done|].
  apply Forall_app in Hall as [Hall _].
  rewrite mergeGroup_snoc, last_snoc. simpl. f_equal.
  destruct (mergeGroup acc eqs) as [q|] eqn:Hq; [|done].
  apply mergedValue_domesticTsunami. by eapply mergeGroup_keyed.
Qed.

(** X2. The tsunami status of a merged report is the one of the last
    listed report of its key, whatever the earlier reports said and
    whether or not it is the more severe one. *)
Theorem domesticTsunami_of_last_report (data : list RawReport)
  (k : jsstring) :
  (fun q => domesticTsunami (earthquake q))
    <$> mapGet k (mergeValues (filteredEarthquakes data))
  = (fun q => domesticTsunami (earthquake q))
      <$> last (group k (filteredEarthquakes data))
  ∧ uniqueEntries data = Ok (mergeValues (filteredEarthquakes data))
  ∧ ∀ m eq, tsunami (processEarthquake m eq)
            = domesticTsunami (earthquake eq).
Proof.
  split; [|split; [apply uniqueEntries_values|done]].
  unfold mergeValues. rewrite mergeValues_get. simpl.
  destruct (group k (filteredEarthquakes data)) as [|eq eqs] eqn:Hg; [done|].
  rewrite <- Hg.
  apply mergeGroup_domesticTsunami; [exact I|apply group_keyed|by rewrite Hg].
Qed.

(** ** The intensity an Event reports *)

Lemma filteredEarthquakes_listed (data : list RawReport) :
  Forall (fun eq => listed eq = true) (filteredEarthquakes data).
Proof.
  unfold filteredEarthquakes.
  induction data as [|d data IH]; simpl; [constructor|].
  apply Forall_app. split; [|done].
  destruct d as [eq| |]; try constructor.
  destruct (listed eq) eqn:Hl; constructor; [done|constructor].
Qed.

Lemma group_elem (k : jsstring) (filtered : list Quake) (eq : Quake) :
  eq ∈ group k filtered → eq ∈ filtered.
Proof.
  rewrite !list_elem_of_In. unfold group. intros Hin.
  by apply List.filter_In in Hin as [? _].
Qed.

Lemma mergedValue_maxScale (existingEq eq : Quake) :
  keyed existingEq = true →
  (maxScale (earthquake (mergedValue existingEq eq))
   = maxScale (earthquake existingEq)
   ∨ maxScale (earthquake (mergedValue existingEq eq))
     = maxScale (earthquake eq))
  ∧ greater (maxScale (earthquake eq))
            (maxScale (earthquake (mergedValue existingEq eq))) = false.
Proof.
  intros Hk. unfold mergedValue.
  destruct (negb _ && _).
  - split; [by right|]. unfold greater.
    destruct (maxScale (earthquake eq)); [|done]. apply Z.ltb_irrefl.
  - rewrite updated_maxScale by done.
    destruct (greater _ _) eqn:Hg; (split; [auto|]); [|done].
    unfold greater. destruct (maxScale (earthquake eq)); [|done].
    apply Z.ltb_irrefl.
Qed.

Lemma mergeGroup_scale (eqs : list Quake) :
  ∀ merged,
    Forall (fun eq => keyed eq = true) eqs →
    mergeGroup None eqs = Some merged →
    (∃ eq, eq ∈ eqs ∧ maxScale (earthquake merged) = maxScale (earthquake eq))
    ∧ ∃ lastEq, last eqs = Some lastEq
                ∧ greater (maxScale (earthquake lastEq))
                          (maxScale (earthquake merged)) = false.
Proof.
  induction eqs as [|eq eqs IH] using rev_ind; intros merged Hall; [done|].
  apply Forall_app in Hall as [Hall _].
  rewrite mergeGroup_snoc, last_snoc. intros [= <-].
  destruct (mergeGroup None eqs) as [q|] eqn:Hq.
  - assert (keyed q = true) as Hk by exact (mergeGroup_keyed eqs None q I Hall Hq).
    destruct (mergedValue_maxScale q eq Hk) as [[Hm|Hm] Hg].
    + split; [|eauto].
      destruct (IH q Hall eq_refl) as [(eq0 & Hin & Heq0) _].
      exists eq0. split; [apply elem_of_app; by left|congruence].
    + split; [|eauto].
      exists eq. split; [|done]. apply elem_of_app. right. by left.
  - split.
    + exists eq. split; [|done]. apply elem_of_app. right. by left.
    + exists eq. split; [done|]. unfold greater.
      destruct (maxScale (earthquake eq)); [|done]. apply Z.ltb_irrefl.
Qed.

Lemma mapGet_elem_NoDup {V} (m : list (jsstring * V)) (k : jsstring) (v : V) :
  NoDup (map fst m) → (k, v) ∈ m → mapGet k m = Some v.
Proof.
  induction m as [|[k' v'] m IH]; intros Hnd Hin;
    [by apply elem_of_nil in Hin|].
  simpl in *. apply NoDup_cons in Hnd as [Hk' Hnd].
  apply elem_of_cons in Hin as [[= -> ->]|Hin].
  - by rewrite bool_decide_true.
  - rewrite bool_decide_false; [by apply IH|].
    intros ->. apply Hk'. apply list_elem_of_fmap. by exists (k, v).
Qed.

(** X3. Every Event reports an intensity that one of the listed reports
    of its key carries, so it is never below the list threshold, and it is
    never below the intensity of the last report of the key. *)
Theorem event_scale_is_reported (data : list RawReport) :
  let filtered := filteredEarthquakes data in
  (∀ k merged,
     mapGet k (mergeValues filtered) = Some merged →
     ∃ eq lastEq s,
       eq ∈ group k filtered
       ∧ maxScale (earthquake merged) = Some s
       ∧ maxScale (earthquake eq) = Some s
       ∧ (MIN_LIST_SCALE <= s)%Z
       ∧ last (group k filtered) = Some lastEq
       ∧ (scaleOf lastEq <= s)%Z)
  ∧ Forall (fun ev => ∃ s, eventMaxScale ev = Some s ∧ (MIN_LIST_SCALE <= s)%Z)
           (fetchEarthquakeData data).
Proof.
  intros filtered.
  assert (∀ k merged,
     mapGet k (mergeValues filtered) = Some merged →
     ∃ eq lastEq s,
       eq ∈ group k filtered
       ∧ maxScale (earthquake merged) = Some s
       ∧ maxScale (earthquake eq) = Some s
       ∧ (MIN_LIST_SCALE <= s)%Z
       ∧ last (group k filtered) = Some lastEq
       ∧ (scaleOf lastEq <= s)%Z) as Hgroup.
  { intros k merged Hget. unfold mergeValues in Hget.
    rewrite mergeValues_get in Hget. simpl in Hget.
    destruct (mergeGroup_scale _ _ (group_keyed k filtered) Hget)
      as [(eq & Hin & Heq) (lastEq & Hlast & Hg)].
    pose proof (filteredEarthquakes_listed data) as Hlisted.
    rewrite List.Forall_forall in Hlisted.
    assert (listed eq = true) as Hl.
    { apply Hlisted, list_elem_of_In. by eapply group_elem. }
    unfold listed in Hl.
    destruct (maxScale (earthquake eq)) as [s|] eqn:Hs; [|done].
    apply Z.leb_le in Hl.
    exists eq, lastEq, s. repeat split; try done.
    unfold greater, scaleOf in *. rewrite Heq in Hg.
    unfold MIN_LIST_SCALE in Hl.
    destruct (maxScale (earthquake lastEq)); [|lia].
    by apply Z.ltb_ge in Hg. }
  split; [done|].
  rewrite fetchEarthquakeData_values.
  destruct (pollFails data); [constructor|].
  apply List.Forall_forall.
  intros ev Hin. apply List.in_map_iff in Hin as ([k merged] & <- & Hin).
  simpl.
  assert (mapGet k (mergeValues filtered) = Some merged) as Hget.
  { apply mapGet_elem_NoDup; [|by apply list_elem_of_In].
    apply (mergeValues_keys_NoDup filtered []), NoDup_nil_2. }
  destruct (Hgroup k merged Hget) as (eq & lastEq & s & _ & Hs & _ & Hmin & _).
  eauto.
Qed.

(** ** A report delivered twice *)

Lemma mapSet_mapSet {V} (m : list (jsstring * V)) (k : jsstring) (v v' : V) :
  mapSet k v (mapSet k v' m) = mapSet k v m.
Proof.
  induction m as [|[k0 v0] m IH]; simpl.
  - by rewrite bool_decide_true.
  - case_bool_decide as Hk; simpl.
    + by rewrite bool_decide_true.
    + rewrite bool_decide_false by done. by rewrite IH.
Qed.

Lemma updated_again (existingEq eq : Quake) :
  updated (updated existingEq eq) eq = updated existingEq eq.
Proof.
  unfold updated, updateExisting.
  destruct existingEq as [i [t [hx|] sx dx] px], eq as [j [u [h|] s d] p];
    simpl;
    repeat (match goal with
            | |- context [if ?b then _ else _] => destruct b eqn:?
            end;
            unfold setHypocenter, setMaxScale, setDomesticTsunami in *;
            simpl in *);
    try done;
    repeat match goal with
           | H : bool_decide _ = true |- _ => apply bool_decide_eq_true in H
           | H : bool_decide _ = false |- _ => apply bool_decide_eq_false in H
           | H : _ && _ = true |- _ => apply andb_true_iff in H as [??]
           | H : negb _ = true |- _ => apply negb_true_iff in H
           end;
    try congruence;
    unfold greater in *;
    repeat match goal with
           | H : context [match ?o with Some _ => _ | None => _ end] |- _ =>
               destruct o
           end;
    try done; try lia.
Qed.

Lemma updated_self (eq : Quake) : updated eq eq = eq.
Proof.
  unfold updated, updateExisting.
  destruct eq as [j [u [h|] s d] p]; simpl;
    repeat (match goal with
            | |- context [if ?b then _ else _] => destruct b eqn:?
            end;
            unfold setHypocenter, setMaxScale, setDomesticTsunami in *;
            simpl in *);
    try done;
    repeat match goal with
           | H : bool_decide _ = true |- _ => apply bool_decide_eq_true in H
           | H : _ && _ = true |- _ => apply andb_true_iff in H as [??]
           | H : negb _ = true |- _ => apply negb_true_iff in H
           end;
    try congruence;
    unfold greater in *; destruct s; try done; lia.
Qed.

Lemma mergedValue_again (existingEq eq : Quake) :
  mergedValue (mergedValue existingEq eq) eq = mergedValue existingEq eq.
Proof.
  unfold mergedValue at 2 3.
  destruct (negb (isSet (points existingEq)) && isSet (points eq)) eqn:Hr.
  - unfold mergedValue.
    destruct (points eq); simpl; [|by rewrite andb_false_r in Hr].
    apply updated_self.
  - unfold mergedValue. rewrite updated_points, Hr. apply updated_again.
Qed.

Lemma stepValues_again (vals : list (jsstring * Quake)) (eq : Quake) :
  stepValues (stepValues vals eq) eq = stepValues vals eq.
Proof.
  unfold stepValues. destruct (keyed eq) eqn:Hk; [|done].
  rewrite mapGet_mapSet, bool_decide_true by done.
  rewrite mapSet_mapSet. f_equal.
  destruct (mapGet (eventKeyOf eq) vals) as [existingEq|].
  - apply mergedValue_again.
  - unfold mergedValue.
    destruct (negb _ && _); [done|apply updated_self].
Qed.

Lemma filteredEarthquakes_app (d1 d2 : list RawReport) :
  filteredEarthquakes (d1 ++ d2)
  = filteredEarthquakes d1 ++ filteredEarthquakes d2.
Proof. unfold filteredEarthquakes. by rewrite flat_map_app. Qed.

Lemma tsunamiInfos_app (d1 d2 : list RawReport) :
  tsunamiInfos (d1 ++ d2) = tsunamiInfos d1 ++ tsunamiInfos d2.
Proof. unfold tsunamiInfos. by rewrite flat_map_app. Qed.

(** X4. A report of code 551 that is delivered twice in a row counts
    once: the second copy changes neither the map of the merge loop nor
    the Events. *)
Theorem repeated_report_absorbed (before after : list RawReport) (eq : Quake) :
  uniqueEntries (before ++ Intensity eq :: Intensity eq :: after)
  = uniqueEntries (before ++ Intensity eq :: after)
  ∧ fetchEarthquakeData (before ++ Intensity eq :: Intensity eq :: after)
    = fetchEarthquakeData (before ++ Intensity eq :: after).
Proof.
  assert (mergeValues (filteredEarthquakes
                         (before ++ Intensity eq :: Intensity eq :: after))
          = mergeValues (filteredEarthquakes
                           (before ++ Intensity eq :: after))) as Hvals.
  { rewrite !filteredEarthquakes_app.
    change (Intensity eq :: Intensity eq :: after)
      with ([Intensity eq] ++ [Intensity eq] ++ after).
    change (Intensity eq :: after) with ([Intensity eq] ++ after).
    rewrite !filteredEarthquakes_app. unfold mergeValues.
    rewrite !fold_left_app. f_equal.
    unfold filteredEarthquakes at 2 3 5. simpl.
    destruct (listed eq); simpl; [|done]. apply stepValues_again. }
  assert (tsunamiInfos (before ++ Intensity eq :: Intensity eq :: after)
          = tsunamiInfos (before ++ Intensity eq :: after)) as Hinfos.
  { by rewrite !tsunamiInfos_app. }
  split.
  - by rewrite !uniqueEntries_values, Hvals.
  - rewrite !fetchEarthquakeData_values, Hvals.
    unfold pollFails, detailValues. by rewrite Hinfos.
Qed.

End AggregatorMore.

(* ===================================================================== *)
(** * Tsunami observations and badges *)
(* ===================================================================== *)

Module ObservationSpec.

Import Aggregator Observation Badges AggregatorSpec.

Lemma observationStep_lookup (m : gmap jsstring ObservationDetail)
  (info : ObservationInfo) (id : jsstring) :
  observationStep m info !! id
  = match (if bool_decide (oi_event_id info = id)
           then oi_areas info else None) with
    | Some areas => Some (observationOf areas)
    | None => m !! id
    end.
Proof.
  unfold observationStep. destruct (oi_areas info) as [areas|].
  - case_bool_decide as Hid.
    + subst. by rewrite lookup_insert_eq.
    + by rewrite lookup_insert_ne.
  - by case_bool_decide.
Qed.

Lemma tsunamiObservationMap_fold (reports : list ObservationInfo)
  (id : jsstring) :
  ∀ m : gmap jsstring ObservationDetail,
    fold_left observationStep (observationInfos reports) m !! id
    = match last (areasFor id reports) with
      | Some areas => Some (observationOf areas)
      | None => m !! id
      end.
Proof.
  unfold observationInfos, areasFor.
  induction reports as [|info reports IH]; intros m; simpl; [done|].
  destruct (cancelled info); simpl; [apply IH|].
  rewrite IH, observationStep_lookup.
  destruct (if bool_decide _ then _ else _) as [areas|]; simpl; [|done].
  rewrite last_cons. by destruct (last _).
Qed.

(** X5. The observation detail stored for a correlation id is that of
    the last report of code 556 in fetch order that has this id, is not
    cancelled and carries areas; it is built from that report alone, and a
    cancelled report neither adds nor removes anything. *)
Theorem observation_of_latest_report (reports : list ObservationInfo)
  (id : jsstring) :
  tsunamiObservationMap reports !! id
  = observationOf <$> last (areasFor id reports)
  ∧ (∀ info before after,
       cancelled info = true →
       tsunamiObservationMap (before ++ info :: after)
       = tsunamiObservationMap (before ++ after)).
Proof.
  split.
  - unfold tsunamiObservationMap. rewrite tsunamiObservationMap_fold.
    by destruct (last _).
  - intros info before after Hc. unfold tsunamiObservationMap, observationInfos.
    rewrite !List.filter_app. simpl. by rewrite Hc.
Qed.

Lemma stationStep_stations (sts : list Station) :
  ∀ acc, stations (fold_left stationStep sts acc) = stations acc ++ sts.
Proof.
  induction sts as [|st sts IH]; intros acc; simpl; [by rewrite app_nil_r|].
  rewrite IH. simpl. by rewrite <- app_assoc.
Qed.

Lemma areaStep_stations (areas : list ObservationArea) :
  ∀ acc, stations (fold_left areaStep areas acc)
         = stations acc ++ allStations areas.
Proof.
  induction areas as [|area areas IH]; intros acc; simpl;
    [by rewrite app_nil_r|].
  rewrite IH. unfold areaStep.
  destruct (area_stations area) as [sts|]; simpl; [|done].
  by rewrite stationStep_stations, <- app_assoc.
Qed.

(** What the running maximum satisfies after the stations [seen]. *)
Lemma stationStep_max (sts : list Station) :
  ∀ acc (seen : list Station),
    (0 <= maxObservedHeight acc)%Q →
    (∀ st x, st ∈ seen → height st = Some x → (x <= maxObservedHeight acc)%Q) →
    (maxObservedHeight acc = 0%Q
     ∨ ∃ st, st ∈ seen ∧ height st = Some (maxObservedHeight acc)) →
    let acc' := fold_left stationStep sts acc in
    (0 <= maxObservedHeight acc')%Q
    ∧ (∀ st x, st ∈ seen ++ sts → height st = Some x →
               (x <= maxObservedHeight acc')%Q)
    ∧ (maxObservedHeight acc' = 0%Q
       ∨ ∃ st, st ∈ seen ++ sts ∧ height st = Some (maxObservedHeight acc')).
Proof.
  induction sts as [|st sts IH]; intros acc seen Hpos Hub Hatt; simpl.
  - rewrite app_nil_r. auto.
  - replace (seen ++ st :: sts) with ((seen ++ [st]) ++ sts)
      by (by rewrite <- app_assoc).
    apply IH; unfold stationStep; simpl.
    + destruct (height st) as [x|]; [|done]. simpl.
      destruct (Qle_bool x (maxObservedHeight acc)) eqn:Hle; simpl; [done|].
      apply Qlt_le_weak, Qle_lt_trans with (maxObservedHeight acc); [done|].
      apply Qnot_le_lt. intros Hc. apply Qle_bool_iff in Hc. congruence.
    + intros st0 x0 Hin Hx0. apply elem_of_app in Hin as [Hin|Hin].
      * specialize (Hub st0 x0 Hin Hx0).
        destruct (height st) as [x|]; [|done]. simpl.
        destruct (Qle_bool x (maxObservedHeight acc)) eqn:Hle; simpl; [done|].
        apply Qle_trans with (maxObservedHeight acc); [done|].
        apply Qlt_le_weak, Qnot_le_lt. intros Hc.
        apply Qle_bool_iff in Hc. congruence.
      * apply list_elem_of_singleton in Hin as ->. rewrite Hx0. simpl.
        destruct (Qle_bool x0 (maxObservedHeight acc)) eqn:Hle; simpl.
        -- by apply Qle_bool_iff.
        -- apply Qle_refl.
    + destruct (height st) as [x|] eqn:Hx; simpl.
      * destruct (Qle_bool x (maxObservedHeight acc)) eqn:Hle; simpl.
        -- destruct Hatt as [?|(st0 & Hin & Hst0)]; [by left|right].
           exists st0. split; [apply elem_of_app; by left|done].
        -- right. exists st. split; [|done].
           apply elem_of_app. right. by left.
      * destruct Hatt as [?|(st0 & Hin & Hst0)]; [by left|right].
        exists st0. split; [apply elem_of_app; by left|done].
Qed.

Lemma areaStep_max (areas : list ObservationArea) :
  ∀ acc (seen : list Station),
    (0 <= maxObservedHeight acc)%Q →
    (∀ st x, st ∈ seen → height st = Some x → (x <= maxObservedHeight acc)%Q) →
    (maxObservedHeight acc = 0%Q
     ∨ ∃ st, st ∈ seen ∧ height st = Some (maxObservedHeight acc)) →
    let acc' := fold_left areaStep areas acc in
    (0 <= maxObservedHeight acc')%Q
    ∧ (∀ st x, st ∈ seen ++ allStations areas → height st = Some x →
               (x <= maxObservedHeight acc')%Q)
    ∧ (maxObservedHeight acc' = 0%Q
       ∨ ∃ st, st ∈ seen ++ allStations areas
               ∧ height st = Some (maxObservedHeight acc')).
Proof.
  induction areas as [|area areas IH]; intros acc seen Hpos Hub Hatt; simpl.
  - rewrite app_nil_r. auto.
  - destruct (area_stations area) as [sts|] eqn:Hs.
    + assert (areaStep acc area = fold_left stationStep sts acc) as ->
        by (unfold areaStep; by rewrite Hs).
      rewrite app_assoc.
      destruct (stationStep_max sts acc seen Hpos Hub Hatt) as (H1 & H2 & H3).
      by apply IH.
    + assert (areaStep acc area = acc) as ->
        by (unfold areaStep; by rewrite Hs).
      by apply IH.
Qed.

(** X6. The detail of one observation report lists every station of
    every area in order, and its maximum height is never negative, is at
    least every height a station gives, and is either 0 or the height of
    one of the stations; stations without a height count as no
    observation. *)
Theorem observation_maximum (areas : list ObservationArea) :
  let detail := observationOf areas in
  stations detail = allStations areas
  ∧ (0 <= maxObservedHeight detail)%Q
  ∧ (∀ st x, st ∈ allStations areas → height st = Some x →
             (x <= maxObservedHeight detail)%Q)
  ∧ (maxObservedHeight detail = 0%Q
     ∨ ∃ st, st ∈ allStations areas
             ∧ height st = Some (maxObservedHeight detail))
  ∧ (Forall (fun st => height st = None) (allStations areas) →
     maxObservedHeight detail = 0%Q).
Proof.
  intros detail. unfold detail, observationOf.
  split; [by rewrite areaStep_stations|].
  destruct (areaStep_max areas (mkObservationDetail 0 []) [])
    as (H1 & H2 & H3); simpl.
  - apply Qle_refl.
  - intros st x Hin. by apply elem_of_nil in Hin.
  - by left.
  - simpl in *. repeat split; try done.
    intros Hnone. destruct H3 as [?|(st & Hin & Hst)]; [done|].
    rewrite List.Forall_forall in Hnone.
    apply list_elem_of_In, Hnone in Hin. congruence.
Qed.

End ObservationSpec.

Module BadgesSpec.

Import Aggregator Observation Badges AggregatorSpec.

(** The four conditions under which a warning badge is pushed. *)
Lemma tsunamiBadges_pushes (tsunamiData : option TsunamiDetail)
  (tsunamiObservationData : option ObservationDetail)
  (domesticTsunami : jsstring) :
  ∃ c1 c2 c3 c4 : bool,
    (c1 = true ↔ ∃ d, tsunamiData = Some d ∧ areasMajorWarning (areas d) ≠ [])
    ∧ (c2 = true ↔ ∃ d, tsunamiData = Some d ∧ areasWarning (areas d) ≠ [])
    ∧ (c3 = true ↔ ∃ d, tsunamiData = Some d ∧ areasAdvisory (areas d) ≠ [])
    ∧ (c4 = true ↔ ∃ o, tsunamiObservationData = Some o
                        ∧ (0 < maxObservedHeight o)%Q)
    ∧ tsunamiBadges tsunamiData tsunamiObservationData domesticTsunami
      = let pushed :=
          (if c1 then [majorWarningBadge] else [])
          ++ (if c2 then [warningBadge] else [])
          ++ (if c3 then [advisoryBadge] else [])
          ++ (if c4 then [observedBadge] else []) in
        if c1 || c2 || c3 || c4 then pushed
        else if bool_decide (detailedTsunamiGrade tsunamiData domesticTsunami
                             = u16 "None")
             then [noneBadge]
             else if bool_decide
                       (detailedTsunamiGrade tsunamiData domesticTsunami
                        = u16 "Checking")
                  then [checkingBadge] else [].
Proof.
  assert (∀ l : list jsstring, (0 <? length l)%nat = true ↔ l ≠ []) as Hlen.
  { intros [|x l]; simpl; [split; [discriminate|done]|].
    split; [discriminate|done]. }
  assert (∀ q : Q, negb (Qle_bool q 0) = true ↔ (0 < q)%Q) as Hq.
  { intros q. rewrite negb_true_iff. split.
    - intros Hle. apply Qnot_le_lt. intros Hc.
      apply Qle_bool_iff in Hc. congruence.
    - intros Hlt. destruct (Qle_bool q 0) eqn:Hle; [|done].
      apply Qle_bool_iff in Hle. exfalso. by apply (Qlt_not_le _ _ Hlt). }
  exists (match tsunamiData with
          | Some d => (0 <? length (areasMajorWarning (areas d)))%nat
          | None => false end),
         (match tsunamiData with
          | Some d => (0 <? length (areasWarning (areas d)))%nat
          | None => false end),
         (match tsunamiData with
          | Some d => (0 <? length (areasAdvisory (areas d)))%nat
          | None => false end),
         (match tsunamiObservationData with
          | Some o => negb (Qle_bool (maxObservedHeight o) 0)
          | None => false end).
  split; [|split; [|split; [|split]]].
  - destruct tsunamiData as [d|].
    + rewrite Hlen. split; [eauto|]. by intros (? & [= <-] & ?).
    + split; [discriminate|]. by intros (? & ? & ?).
  - destruct tsunamiData as [d|].
    + rewrite Hlen. split; [eauto|]. by intros (? & [= <-] & ?).
    + split; [discriminate|]. by intros (? & ? & ?).
  - destruct tsunamiData as [d|].
    + rewrite Hlen. split; [eauto|]. by intros (? & [= <-] & ?).
    + split; [discriminate|]. by intros (? & ? & ?).
  - destruct tsunamiObservationData as [o|].
    + rewrite Hq. split; [eauto|]. by intros (? & [= <-] & ?).
    + split; [discriminate|]. by intros (? & ? & ?).
  - unfold tsunamiBadges, pushIf.
    destruct tsunamiData as [d|], tsunamiObservationData as [o|];
      cbv zeta;
      repeat match goal with
             | |- context [(0 <? length ?l)%nat] =>
                 destruct (0 <? length l)%nat
             | |- context [negb (Qle_bool ?a ?b)] =>
                 destruct (negb (Qle_bool a b))
             end; reflexivity.
Qed.

(** X7. The badges of an Event are the warning badges that apply, in the
    fixed order major warning, warning, advisory, observation, each at
    most once; the badges for no tsunami and for an ongoing check appear
    only alone and only when no warning badge applies. *)
Theorem tsunamiBadges_shape (tsunamiData : option TsunamiDetail)
  (tsunamiObservationData : option ObservationDetail)
  (domesticTsunami : jsstring) :
  let badges :=
    tsunamiBadges tsunamiData tsunamiObservationData domesticTsunami in
  let grade := detailedTsunamiGrade tsunamiData domesticTsunami in
  ((badges ≠ []
    ∧ sublist badges [majorWarningBadge; warningBadge; advisoryBadge;
                      observedBadge])
   ∨ (badges = [noneBadge] ∧ grade = u16 "None")
   ∨ (badges = [checkingBadge] ∧ grade = u16 "Checking")
   ∨ (badges = [] ∧ grade ≠ u16 "None" ∧ grade ≠ u16 "Checking"))
  ∧ (majorWarningBadge ∈ badges
     ↔ ∃ d, tsunamiData = Some d ∧ areasMajorWarning (areas d) ≠ [])
  ∧ (warningBadge ∈ badges
     ↔ ∃ d, tsunamiData = Some d ∧ areasWarning (areas d) ≠ [])
  ∧ (advisoryBadge ∈ badges
     ↔ ∃ d, tsunamiData = Some d ∧ areasAdvisory (areas d) ≠ [])
  ∧ (observedBadge ∈ badges
     ↔ ∃ o, tsunamiObservationData = Some o ∧ (0 < maxObservedHeight o)%Q).
Proof.
  intros badges grade. subst badges grade.
  destruct (tsunamiBadges_pushes tsunamiData tsunamiObservationData
              domesticTsunami) as (c1 & c2 & c3 & c4 & H1 & H2 & H3 & H4 & ->).
  rewrite <- H1, <- H2, <- H3, <- H4. clear H1 H2 H3 H4.
  generalize (detailedTsunamiGrade tsunamiData domesticTsunami) as grade.
  intros grade.
  destruct c1, c2, c3, c4; cbv zeta; cbn [orb app];
    repeat case_bool_decide;
    (split;
     [ first
         [ left; split; [discriminate|];
           generalize majorWarningBadge warningBadge advisoryBadge
                      observedBadge;
           intros; repeat first [apply sublist_nil_l | apply sublist_skip
                                | apply sublist_cons]; fail
         | right; left; split; [reflexivity|assumption]
         | right; right; left; split; [reflexivity|assumption]
         | right; right; right; split; [reflexivity|split; assumption] ]
     | repeat split; intros Hx; try reflexivity; try discriminate Hx;
       try (apply (bool_decide_unpack _); vm_compute; reflexivity);
       try (apply (bool_decide_pack _) in Hx; vm_compute in Hx;
            destruct Hx) ]).
Qed.

Lemma detailOf_grade (forecasts : list Forecast) (d : TsunamiDetail) :
  detailOf forecasts = Ok d →
  highestGrade d = firstNonEmptyGrade (areas d).
Proof.
  rewrite detailOf_value. destruct (existsb addFails forecasts); [done|].
  intros [= <-]. apply highestGradeOf_first.
Qed.

Lemma tsunamiDetailsMap_detailOf (data : list RawReport)
  (m : gmap jsstring TsunamiDetail) (id : jsstring) (d : TsunamiDetail) :
  tsunamiDetailsMap data = Ok m → m !! id = Some d →
  ∃ forecasts, detailOf forecasts = Ok d.
Proof.
  intros Hm Hd.
  pose proof (tsunami_details_stored data) as Hstored.
  rewrite Hm in Hstored. rewrite Hstored in Hd.
  destruct (latestForecasts id (tsunamiInfos data)) as [forecasts|]; [|done].
  exists forecasts. by destruct (detailOf forecasts); simplify_eq/=.
Qed.

Lemma tsunamiLabelForGas_first (tsunamiData : option TsunamiDetail)
  (tsunamiObservationData : option ObservationDetail)
  (domesticTsunami : jsstring) :
  tsunamiLabelForGas tsunamiData tsunamiObservationData domesticTsunami
  = match tsunamiBadges tsunamiData tsunamiObservationData
            domesticTsunami with
    | badge :: _ => label badge
    | [] => u16 "不明"
    end.
Proof.
  unfold tsunamiLabelForGas.
  destruct (tsunamiBadges_pushes tsunamiData tsunamiObservationData
              domesticTsunami) as (c1 & c2 & c3 & c4 & _ & _ & _ & _ & ->).
  destruct c1, c2, c3, c4; cbv zeta; cbn [orb app]; try reflexivity.
  repeat case_bool_decide; reflexivity.
Qed.

(** The labels an Event can carry. *)
Lemma tsunamiLabelForGas_range (tsunamiData : option TsunamiDetail)
  (tsunamiObservationData : option ObservationDetail)
  (domesticTsunami : jsstring) :
  tsunamiLabelForGas tsunamiData tsunamiObservationData domesticTsunami
  ∈ map u16 ["大津波警報"; "津波警報"; "津波注意報"; "津波観測中";
             "津波なし"; "調査中"; "不明"]%string.
Proof.
  rewrite tsunamiLabelForGas_first.
  destruct (tsunamiBadges_pushes tsunamiData tsunamiObservationData
              domesticTsunami) as (c1 & c2 & c3 & c4 & _ & _ & _ & _ & ->).
  destruct c1, c2, c3, c4; cbv zeta; cbn [orb app];
    repeat case_bool_decide;
    apply (bool_decide_unpack _); vm_compute; reflexivity.
Qed.

(** X8. The tsunami label recorded for an Event. With a forecast detail
    it follows the highest grade of that detail, and for a detail without
    areas it is the observation label or the label for no tsunami, the
    status of the intensity report is not consulted; without a detail it
    is the observation label or follows the status of the intensity
    report. The label is that of the first badge, and the label for an
    unknown status stands exactly for an empty badge list. *)
Theorem tsunamiLabel_of_grade (tsunamiObservationData : option ObservationDetail)
  (domesticTsunami : jsstring) :
  let observed :=
    match tsunamiObservationData with
    | Some o => negb (Qle_bool (maxObservedHeight o) 0)
    | None => false
    end in
  (∀ forecasts d,
     detailOf forecasts = Ok d →
     tsunamiLabelForGas (Some d) tsunamiObservationData domesticTsunami
     = if bool_decide (highestGrade d = u16 "MajorWarning")
       then u16 "大津波警報"
       else if bool_decide (highestGrade d = u16 "Warning")
       then u16 "津波警報"
       else if bool_decide (highestGrade d = u16 "Advisory")
       then u16 "津波注意報"
       else if observed then u16 "津波観測中" else u16 "津波なし")
  ∧ tsunamiLabelForGas None tsunamiObservationData domesticTsunami
    = (if observed then u16 "津波観測中"
       else if bool_decide (domesticTsunami = u16 "None") then u16 "津波なし"
       else if bool_decide (domesticTsunami = u16 "Checking")
       then u16 "調査中"
       else u16 "不明")
  ∧ (∀ tsunamiData,
       tsunamiLabelForGas tsunamiData tsunamiObservationData domesticTsunami
       = match tsunamiBadges tsunamiData tsunamiObservationData
                 domesticTsunami with
         | badge :: _ => label badge
         | [] => u16 "不明"
         end)
  ∧ (∀ data m id d,
       tsunamiDetailsMap data = Ok m → m !! id = Some d →
       ∃ forecasts, detailOf forecasts = Ok d).
Proof.
  intros observed. subst observed.
  split; [|split; [|split; [|apply tsunamiDetailsMap_detailOf]]].
  - intros forecasts d Hd. rewrite (detailOf_grade forecasts d Hd).
    unfold tsunamiLabelForGas, tsunamiBadges, pushIf, detailedTsunamiGrade.
    rewrite (detailOf_grade forecasts d Hd).
    destruct (areas d) as [[|a mw] [|b w] [|c ad]];
      destruct tsunamiObservationData as [o|];
      try destruct (Qle_bool (maxObservedHeight o) 0);
      vm_compute; reflexivity.
  - unfold tsunamiLabelForGas, tsunamiBadges, pushIf, detailedTsunamiGrade.
    destruct tsunamiObservationData as [o|];
      try destruct (Qle_bool (maxObservedHeight o) 0);
      cbv zeta; cbn [length app negb Nat.eqb];
      repeat case_bool_decide; reflexivity.
  - intros tsunamiData. apply tsunamiLabelForGas_first.
Qed.

(** X9. In the detail panel the title and the tsunami line agree: the
    title names the tsunami exactly when the line reports a warning, an
    advisory or an observation, and the line for an unknown status is
    shown exactly when the Event has no badge. *)
Theorem title_agrees_with_tsunami_line (tsunamiData : option TsunamiDetail)
  (tsunamiObservationData : option ObservationDetail)
  (domesticTsunami : jsstring) :
  let badges :=
    tsunamiBadges tsunamiData tsunamiObservationData domesticTsunami in
  hasTsunamiWarning badges
  = match tsunamiLine badges with
    | MajorWarningIssued | WarningIssued | AdvisoryIssued | Observing => true
    | NoTsunami | UnderInvestigation | UnknownLine => false
    end
  ∧ (tsunamiLine badges = UnknownLine ↔ badges = [])
  ∧ detailTitle badges
    = if hasTsunamiWarning badges then u16 "地震・津波詳細" else u16 "地震詳細".
Proof.
  intros badges. subst badges.
  destruct (tsunamiBadges_pushes tsunamiData tsunamiObservationData
              domesticTsunami) as (c1 & c2 & c3 & c4 & _ & _ & _ & _ & ->).
  split; [|split; [|reflexivity]].
  - destruct c1, c2, c3, c4; cbv zeta; cbn [orb app];
      repeat case_bool_decide; vm_compute; reflexivity.
  - destruct c1, c2, c3, c4; cbv zeta; cbn [orb app];
      repeat case_bool_decide;
      (split; [vm_compute; try discriminate; reflexivity|]);
      intros Hx; try discriminate Hx; reflexivity.
Qed.

End BadgesSpec.

(* ===================================================================== *)
(** * Properties of the intensity classes and of the grouping *)
(* ===================================================================== *)

Module ShindoSpec.

Import Kana Municipality Aggregator Badges Shindo AggregatorSpec.
Import AggregatorMore.

(** ** The three tables *)

Lemma sortOrder_scale (scale : Z) :
  sortOrder (shindo_label (scaleToShindo scale))
  = (if scale =? 10 then 1 else if scale =? 20 then 2
     else if scale =? 30 then 3 else if scale =? 40 then 4
     else if scale =? 45 then 5 else if scale =? 50 then 6
     else if scale =? 55 then 7 else if scale =? 60 then 8
     else if scale =? 70 then 9 else 0)%Z.
Proof.
  unfold scaleToShindo.
  repeat (match goal with
          | |- context [(scale =? ?n)%Z] =>
              destruct (scale =? n)%Z; [vm_compute; reflexivity|]
          end).
  vm_compute; reflexivity.
Qed.

Lemma knownScales_elem (scale : Z) :
  scale ∈ knownScales
  ↔ (scale = 10 ∨ scale = 20 ∨ scale = 30 ∨ scale = 40 ∨ scale = 45
     ∨ scale = 50 ∨ scale = 55 ∨ scale = 60 ∨ scale = 70)%Z.
Proof.
  unfold knownScales. rewrite !elem_of_cons, elem_of_nil. tauto.
Qed.

Lemma sortOrder_monotone (scale other : Z) :
  scale ∈ knownScales → other ∈ knownScales →
  ((scale < other)%Z
   ↔ (sortOrder (shindo_label (scaleToShindo scale))
      < sortOrder (shindo_label (scaleToShindo other)))%Z).
Proof.
  rewrite !sortOrder_scale, !knownScales_elem.
  intros Hs Ho.
  repeat match goal with
         | H : _ ∨ _ |- _ => destruct H as [H|H]
         end; subst; cbn [Z.eqb Pos.eqb]; lia.
Qed.

(** X10. The three intensity tables of the script agree. The class
    [shindoLabelToClass] gives for the label of a scale is the class
    [scaleToShindo] gives for that scale; the sort order of a label is 0
    exactly for the scales without a case of their own, and on the nine
    known scales it grows strictly with the scale, so different known
    scales have different labels. *)
Theorem shindo_tables_agree (scale : Z) :
  shindoLabelToClass (shindo_label (scaleToShindo scale))
  = shindo_class (scaleToShindo scale)
  ∧ (sortOrder (shindo_label (scaleToShindo scale)) = 0%Z
     ↔ scale ∉ knownScales)
  ∧ (scale ∉ knownScales →
     shindo_label (scaleToShindo scale) = u16 "震度不明")
  ∧ (∀ other, scale ∈ knownScales → other ∈ knownScales →
              ((scale < other)%Z
               ↔ (sortOrder (shindo_label (scaleToShindo scale))
                  < sortOrder (shindo_label (scaleToShindo other)))%Z))
  ∧ (∀ other, scale ∈ knownScales → other ∈ knownScales →
              shindo_label (scaleToShindo scale)
              = shindo_label (scaleToShindo other) →
              scale = other).
Proof.
  split; [|split; [|split; [|split]]].
  - unfold scaleToShindo.
    repeat (match goal with
            | |- context [(scale =? ?n)%Z] =>
                destruct (scale =? n)%Z; [vm_compute; reflexivity|]
            end).
    vm_compute; reflexivity.
  - rewrite sortOrder_scale, knownScales_elem.
    repeat (match goal with
            | |- context [(scale =? ?n)%Z] => destruct (Z.eqb_spec scale n)
            end); lia.
  - rewrite knownScales_elem. unfold scaleToShindo.
    repeat (match goal with
            | |- context [(scale =? ?n)%Z] => destruct (Z.eqb_spec scale n)
            end); try reflexivity; intros Hn; exfalso; apply Hn; lia.
  - intros other. apply sortOrder_monotone.
  - intros other Hs Ho Hlabel.
    pose proof (sortOrder_monotone scale other Hs Ho) as H1.
    pose proof (sortOrder_monotone other scale Ho Hs) as H2.
    rewrite Hlabel in H1, H2. lia.
Qed.

(** ** The sort of the labels *)

Lemma insertByOrder_perm (x : jsstring) (l : list jsstring) :
  insertByOrder x l ≡ₚ x :: l.
Proof.
  induction l as [|y l IH]; simpl; [done|].
  destruct (sortOrder x <? sortOrder y)%Z; [|done].
  rewrite IH. apply Permutation_swap.
Qed.

Lemma sortByOrderDesc_perm (l : list jsstring) : sortByOrderDesc l ≡ₚ l.
Proof.
  induction l as [|x l IH]; simpl; [done|].
  rewrite insertByOrder_perm. by rewrite IH.
Qed.

Lemma insertByOrder_sorted (x : jsstring) (l : list jsstring) :
  StronglySorted (fun a b => (sortOrder b <= sortOrder a)%Z) l →
  StronglySorted (fun a b => (sortOrder b <= sortOrder a)%Z)
                 (insertByOrder x l).
Proof.
  induction 1 as [|y l Hsorted IH Hall]; simpl.
  - repeat constructor.
  - destruct (sortOrder x <? sortOrder y)%Z eqn:Hlt.
    + apply Z.ltb_lt in Hlt. constructor; [done|].
      rewrite insertByOrder_perm. constructor; [lia|done].
    + apply Z.ltb_ge in Hlt. constructor; [by constructor|].
      constructor; [done|].
      eapply Forall_impl; [exact Hall|]. simpl. lia.
Qed.

Lemma sortByOrderDesc_sorted (l : list jsstring) :
  StronglySorted (fun a b => (sortOrder b <= sortOrder a)%Z)
                 (sortByOrderDesc l).
Proof.
  induction l as [|x l IH]; simpl; [constructor|].
  by apply insertByOrder_sorted.
Qed.

(** On labels of [scaleToShindo] the sort order determines the label. *)
Lemma sortOrder_label_inj (s1 s2 : Z) :
  sortOrder (shindo_label (scaleToShindo s1))
  = sortOrder (shindo_label (scaleToShindo s2)) →
  shindo_label (scaleToShindo s1) = shindo_label (scaleToShindo s2).
Proof.
  rewrite !sortOrder_scale. unfold scaleToShindo.
  repeat (match goal with
          | |- context [(s1 =? ?n)%Z] => destruct (s1 =? n)%Z
          end);
    repeat (match goal with
            | |- context [(s2 =? ?n)%Z] => destruct (s2 =? n)%Z
            end); intros Heq; try reflexivity; discriminate Heq.
Qed.

Lemma sorted_strict (l : list jsstring) :
  NoDup l →
  Forall (fun k => ∃ s, k = shindo_label (scaleToShindo s)) l →
  StronglySorted (fun a b => (sortOrder b <= sortOrder a)%Z) l →
  StronglySorted (fun a b => (sortOrder b < sortOrder a)%Z) l.
Proof.
  induction l as [|a l IH]; intros Hnd Hlab Hs; [constructor|].
  apply NoDup_cons in Hnd as [Ha Hnd].
  apply Forall_cons in Hlab as [[sa ->] Hlab].
  apply StronglySorted_inv in Hs as [Hs Hall].
  constructor; [by apply IH|].
  rewrite List.Forall_forall in Hall, Hlab. apply List.Forall_forall.
  intros b Hb. specialize (Hall b Hb). destruct (Hlab b Hb) as [sb ->].
  destruct (Z.eq_dec (sortOrder (shindo_label (scaleToShindo sb)))
                     (sortOrder (shindo_label (scaleToShindo sa))))
    as [Heq|Hne]; [|lia].
  exfalso. apply Ha. apply sortOrder_label_inj in Heq. rewrite <- Heq.
  by apply list_elem_of_In.
Qed.

(** ** The groups *)

Section Groups.

Variable KANA_DICT : dictionary.
Variable mode : jsstring.
Variable minScale : Z.

Local Abbreviation step := (groupStep KANA_DICT mode minScale).
Local Abbreviation labelOf :=
  (fun p : Point => shindo_label (scaleToShindo (scale p))).
Local Abbreviation counted :=
  (fun p : Point => (minScale <=? scale p)%Z).

Lemma groupStep_keys (shindoGroup : list (jsstring * list jsstring))
  (p : Point) :
  map fst (step shindoGroup p)
  = if counted p then setAdd (labelOf p) (map fst shindoGroup)
    else map fst shindoGroup.
Proof.
  unfold groupStep. destruct (minScale <=? scale p)%Z; [|done].
  rewrite keys_mapSet. unfold setAdd. by case_bool_decide.
Qed.

Lemma groupFold_keys (rawPoints : list Point) :
  ∀ shindoGroup,
    map fst (fold_left step rawPoints shindoGroup)
    = fold_left (fun seen k => setAdd k seen)
                (map labelOf (List.filter counted rawPoints))
                (map fst shindoGroup).
Proof.
  induction rawPoints as [|p rawPoints IH]; intros shindoGroup; simpl; [done|].
  rewrite IH, groupStep_keys. by destruct (minScale <=? scale p)%Z.
Qed.

Lemma groupStep_setAt (shindoGroup : list (jsstring * list jsstring))
  (p : Point) (label : jsstring) :
  setAt (step shindoGroup p) label
  = if counted p && bool_decide (labelOf p = label)
    then setAdd (nameOf KANA_DICT mode p) (setAt shindoGroup label)
    else setAt shindoGroup label.
Proof.
  unfold groupStep, setAt. destruct (minScale <=? scale p)%Z; simpl; [|done].
  rewrite mapGet_mapSet. case_bool_decide as Hl; [by subst|done].
Qed.

Lemma groupFold_setAt (rawPoints : list Point) (label : jsstring) :
  ∀ shindoGroup,
    setAt (fold_left step rawPoints shindoGroup) label
    = fold_left (fun seen k => setAdd k seen)
                (map (nameOf KANA_DICT mode)
                     (pointsAt minScale label rawPoints))
                (setAt shindoGroup label).
Proof.
  unfold pointsAt.
  induction rawPoints as [|p rawPoints IH]; intros shindoGroup; simpl; [done|].
  rewrite IH, groupStep_setAt.
  by destruct ((minScale <=? scale p)%Z && bool_decide _).
Qed.

Lemma setAdd_fold_elem (l : list jsstring) (x : jsstring) :
  ∀ seen, x ∈ fold_left (fun seen k => setAdd k seen) l seen
          ↔ x ∈ seen ∨ x ∈ l.
Proof.
  induction l as [|k l IH]; intros seen; simpl.
  - rewrite elem_of_nil. tauto.
  - rewrite IH, setAdd_elem, elem_of_cons. intuition congruence.
Qed.

Lemma groups_labels (rawPoints : list Point) :
  map shindo (groupPointsByShindoAndMode KANA_DICT (Some rawPoints) mode
                                         minScale)
  = sortByOrderDesc
      (distinctInOrder (map labelOf (List.filter counted rawPoints))).
Proof.
  unfold groupPointsByShindoAndMode. rewrite map_map. simpl.
  rewrite map_id. by rewrite (groupFold_keys rawPoints []).
Qed.

(** X11. The groups come one per intensity label that occurs among the
    points at or above the minimum scale, strongest first, the group of
    the scales without a label of their own last; an input that is not an
    array gives no group. *)
Theorem groups_strongest_first (rawPoints : list Point) :
  let groups :=
    groupPointsByShindoAndMode KANA_DICT (Some rawPoints) mode minScale in
  NoDup (map shindo groups)
  ∧ (∀ label, label ∈ map shindo groups
              ↔ ∃ p, p ∈ rawPoints ∧ (minScale <= scale p)%Z
                     ∧ shindo_label (scaleToShindo (scale p)) = label)
  ∧ StronglySorted (fun a b => (sortOrder b < sortOrder a)%Z)
                   (map shindo groups)
  ∧ groupPointsByShindoAndMode KANA_DICT None mode minScale = [].
Proof.
  intros groups. subst groups. rewrite groups_labels.
  set (labels := map labelOf (List.filter counted rawPoints)).
  assert (NoDup (distinctInOrder labels)) as Hnd
    by apply setAdd_fold_NoDup, NoDup_nil_2.
  assert (∀ label, label ∈ distinctInOrder labels
                   ↔ ∃ p, p ∈ rawPoints ∧ (minScale <= scale p)%Z
                          ∧ labelOf p = label) as Hmem.
  { intros label. unfold distinctInOrder. rewrite setAdd_fold_elem.
    unfold labels. rewrite elem_of_nil, list_elem_of_fmap. split.
    - intros [[]|(p & -> & Hp)]. apply list_elem_of_In in Hp.
      apply List.filter_In in Hp as [Hin Hc].
      exists p. split; [by apply list_elem_of_In|]. split; [lia|done].
    - intros (p & Hin & Hc & <-). right. exists p. split; [done|].
      apply list_elem_of_In, List.filter_In.
      split; [by apply list_elem_of_In|lia]. }
  split; [by rewrite sortByOrderDesc_perm|].
  split; [intros label; by rewrite sortByOrderDesc_perm|].
  split; [|done].
  apply sorted_strict; [by rewrite sortByOrderDesc_perm| |
                        apply sortByOrderDesc_sorted].
  apply List.Forall_forall. intros k Hk.
  apply list_elem_of_In in Hk. rewrite sortByOrderDesc_perm in Hk.
  apply Hmem in Hk as (p & _ & _ & <-). eauto.
Qed.

(** X12. The places of a group are the names of the points of that
    label at or above the minimum scale, each once, in the order in which
    they first occur among the points; no group is empty. *)
Theorem groups_hold_each_place_once (rawPoints : list Point) :
  Forall (fun g =>
            cities g
            = distinctInOrder
                (map (nameOf KANA_DICT mode)
                     (pointsAt minScale (shindo g) rawPoints))
            ∧ NoDup (cities g)
            ∧ cities g ≠ []
            ∧ ∀ name, name ∈ cities g
                      ↔ ∃ p, p ∈ rawPoints ∧ (minScale <= scale p)%Z
                             ∧ shindo_label (scaleToShindo (scale p))
                               = shindo g
                             ∧ nameOf KANA_DICT mode p = name)
         (groupPointsByShindoAndMode KANA_DICT (Some rawPoints) mode minScale).
Proof.
  pose proof (groups_labels rawPoints) as Hlabels.
  unfold groupPointsByShindoAndMode in *. cbv zeta in *.
  apply List.Forall_forall. intros g Hg.
  assert (shindo g ∈ distinctInOrder
                       (map labelOf (List.filter counted rawPoints))) as Hkey.
  { rewrite <- sortByOrderDesc_perm, <- Hlabels.
    apply list_elem_of_fmap. exists g. split; [done|by apply list_elem_of_In]. }
  apply List.in_map_iff in Hg as (key & <- & _). simpl in *.
  rewrite (groupFold_setAt rawPoints key []).
  change (setAt [] key) with (@nil jsstring).
  fold (distinctInOrder (map (nameOf KANA_DICT mode)
                             (pointsAt minScale key rawPoints))).
  assert (∀ name,
            name ∈ distinctInOrder (map (nameOf KANA_DICT mode)
                                        (pointsAt minScale key rawPoints))
            ↔ ∃ p, p ∈ rawPoints ∧ (minScale <= scale p)%Z
                   ∧ labelOf p = key ∧ nameOf KANA_DICT mode p = name)
    as Hmem.
  { intros name. unfold distinctInOrder. rewrite setAdd_fold_elem.
    rewrite elem_of_nil, list_elem_of_fmap. unfold pointsAt. split.
    - intros [[]|(p & -> & Hp)]. apply list_elem_of_In in Hp.
      apply List.filter_In in Hp as [Hin Hc].
      apply andb_true_iff in Hc as [Hc Hl].
      apply bool_decide_eq_true in Hl.
      exists p. split; [by apply list_elem_of_In|]. split; [lia|done].
    - intros (p & Hin & Hc & Hl & <-). right. exists p. split; [done|].
      apply list_elem_of_In, List.filter_In.
      split; [by apply list_elem_of_In|].
      apply andb_true_iff. split; [lia|by apply bool_decide_eq_true]. }
  split; [done|]. split; [apply setAdd_fold_NoDup, NoDup_nil_2|].
  split; [|done].
  unfold distinctInOrder in Hkey. apply setAdd_fold_elem in Hkey.
  destruct Hkey as [Hkey|Hkey]; [by apply elem_of_nil in Hkey|].
  apply list_elem_of_fmap in Hkey as (p & Hp & Hin).
  apply list_elem_of_In, List.filter_In in Hin as [Hin Hc].
  intros Hnil.
  assert (nameOf KANA_DICT mode p ∈ @nil jsstring) as Habs.
  { rewrite <- Hnil. apply Hmem. exists p.
    split; [by apply list_elem_of_In|]. split; [lia|done]. }
  by apply elem_of_nil in Habs.
Qed.

End Groups.

End ShindoSpec.

(* ===================================================================== *)
(** * The shape of a resolved municipality key *)
(* ===================================================================== *)

Module MunicipalityShape.

Import Regex Kana Municipality Pagination MunicipalitySpec PaginationSpec.

(** ** Matches are prefixes *)

Lemma accept_prefix (s m : jsstring) : accept s = Some m → m `prefix_of` s.
Proof. intros [= <-]. apply prefix_nil. Qed.

Lemma oneOf_prefix (xs : list N) (k : matcher) :
  (∀ s m, k s = Some m → m `prefix_of` s) →
  ∀ s m, oneOf xs k s = Some m → m `prefix_of` s ∧ m ≠ [].
Proof.
  intros Hk [|c s] m; simpl; [done|].
  destruct (existsb _ _); [|done].
  destruct (k s) as [m'|] eqn:Hm; simpl; [|done].
  intros [= <-]. split; [|done]. by apply prefix_cons, Hk.
Qed.

Lemma lazyDotPlus_prefix (k : matcher) :
  (∀ s m, k s = Some m → m `prefix_of` s) →
  ∀ s m, lazyDotPlus k s = Some m → m `prefix_of` s ∧ m ≠ [].
Proof.
  intros Hk s. induction s as [|c s IH]; intros m; simpl; [done|].
  destruct (isLineTerminator c); [done|].
  destruct (k s) as [m'|] eqn:Hm.
  - intros [= <-]. split; [|done]. by apply prefix_cons, Hk.
  - destruct (lazyDotPlus k s) as [m'|] eqn:Hl; simpl; [|done].
    intros [= <-]. split; [|done]. apply prefix_cons. by apply IH.
Qed.

Lemma cityAndWardRe_prefix (s m : jsstring) :
  cityAndWardRe s = Some m → m `prefix_of` s ∧ m ≠ [].
Proof.
  apply lazyDotPlus_prefix. intros s1 m1 H1.
  eapply oneOf_prefix; [|exact H1]. intros s2 m2 H2.
  eapply lazyDotPlus_prefix; [|exact H2]. intros s3 m3 H3.
  eapply oneOf_prefix; [|exact H3]. apply accept_prefix.
Qed.

Lemma gunRe_prefix (s m : jsstring) :
  gunRe s = Some m → m `prefix_of` s ∧ m ≠ [].
Proof.
  apply lazyDotPlus_prefix. intros s1 m1 H1.
  eapply oneOf_prefix; [|exact H1]. intros s2 m2 H2.
  eapply lazyDotPlus_prefix; [|exact H2]. intros s3 m3 H3.
  eapply oneOf_prefix; [|exact H3]. apply accept_prefix.
Qed.

Lemma cityTownVillageRe_prefix (s m : jsstring) :
  cityTownVillageRe s = Some m → m `prefix_of` s ∧ m ≠ [].
Proof.
  apply lazyDotPlus_prefix. intros s1 m1 H1.
  eapply oneOf_prefix; [|exact H1]. apply accept_prefix.
Qed.

(** ** Parts of the address *)

Lemma startsWith_prefix (s p : jsstring) :
  startsWith s p = true → p `prefix_of` s.
Proof.
  intros Hp. exists (drop (length p) s).
  rewrite (startsWith_take s p Hp) at 1. by rewrite take_drop.
Qed.

Lemma indexOf_infix (s p : jsstring) (n : nat) :
  indexOf s p = Some n → ∃ after, drop n s = p ++ after.
Proof.
  revert n. induction s as [|c s IH]; intros n.
  - destruct p as [|d p]; simpl; [|done]. intros [= <-]. by exists [].
  - cbn [indexOf]. destruct (startsWith (c :: s) p) eqn:Hp.
    + intros [= <-]. by apply startsWith_prefix in Hp.
    + destruct (indexOf s p) as [n'|] eqn:Hn; simpl; [|done].
      intros [= <-]. simpl. by apply IH.
Qed.

Lemma includes_infix (s p : jsstring) :
  includes s p = true → ∃ before after, s = before ++ p ++ after.
Proof.
  unfold includes. destruct (indexOf s p) as [n|] eqn:Hn; [|done].
  intros _. apply indexOf_infix in Hn as [after Hafter].
  exists (take n s), after. by rewrite <- Hafter, take_drop.
Qed.

Lemma stripPrefecture_suffix (addr pref : jsstring) :
  stripPrefecture addr pref `suffix_of` addr.
Proof.
  unfold stripPrefecture, substring.
  destruct (startsWith addr pref); [apply suffix_drop|].
  set (remainingAddr := fold_left _ prefs addr).
  assert (remainingAddr `suffix_of` addr) as Hrem.
  { unfold remainingAddr. generalize prefs. intros ps.
    assert (addr `suffix_of` addr) as Hinit by done.
    revert Hinit. generalize addr at 1 3. 
    induction ps as [|p ps IH]; intros r Hr; simpl; [done|].
    apply IH. destruct (startsWith r p); [|done].
    etrans; [apply suffix_drop|done]. }
  destruct (indexOf remainingAddr [ken]); [|done].
  etrans; [apply suffix_drop|done].
Qed.

Lemma found_Some (r : option jsstring) (k : jsstring) :
  found r = Some k → r = Some k ∧ k ≠ [].
Proof.
  destruct r as [k'|]; simpl; [|done].
  destruct k' as [|c k']; simpl; [done|]. by intros [= <-].
Qed.

Lemma prefix_of_suffix_infix (m s addr : jsstring) :
  m `prefix_of` s → s `suffix_of` addr →
  ∃ before after, addr = before ++ m ++ after.
Proof. intros [after ->] [before ->]. eauto. Qed.

(** X13. Every key [getMunicipality] returns has the form
    prefecture, underscore, municipality: the first part is the given
    prefecture, or the placeholder when it is empty; the second part is
    never empty and is a contiguous part of the observed address, or the
    placeholder when the address is empty. *)
Theorem municipality_is_part_of_address (KANA_DICT : dictionary)
  (addr pref : jsstring) :
  ∃ municipality before after,
    getMunicipality KANA_DICT addr pref
    = underscored (or_else pref (u16 "不明")) municipality
    ∧ municipality ≠ []
    ∧ or_else addr (u16 "観測点名不明") = before ++ municipality ++ after.
Proof.
  unfold getMunicipality.
  destruct (truthy addr) eqn:Haddr; cycle 1.
  { destruct addr; [|done]. cbn [negb orb].
    exists (u16 "観測点名不明"), [], [].
    split; [done|]. split; [by vm_compute|by rewrite app_nil_r]. }
  destruct (truthy pref) eqn:Htp; cycle 1.
  { cbn [negb orb]. exists (or_else addr (u16 "観測点名不明")), [], [].
    split; [done|]. rewrite app_nil_r. split; [|done].
    unfold or_else. rewrite Haddr. by destruct addr. }
  cbn [negb orb].
  assert (or_else pref (u16 "不明") = pref) as ->
    by (unfold or_else; by rewrite Htp).
  assert (or_else addr (u16 "観測点名不明") = addr) as ->
    by (unfold or_else; by rewrite Haddr).
  pose proof (stripPrefecture_suffix addr pref) as Hsuffix.
  destruct (found (directMatch KANA_DICT addr)) as [key|] eqn:Hdirect.
  { apply found_Some in Hdirect as [Hfind Hne].
    apply js_find_some in Hfind as [Hhit _].
    unfold directHit in Hhit. apply andb_true_iff in Hhit as [Hinc _].
    apply includes_infix in Hinc as (before & after & ->). eauto 6. }
  destruct (cityAndWardRe _) as [m|] eqn:H1.
  { apply cityAndWardRe_prefix in H1 as [Hp Hne].
    destruct (prefix_of_suffix_infix _ _ _ Hp Hsuffix) as (b & e & ->).
    eauto 6. }
  destruct (gunRe _) as [m|] eqn:H2.
  { apply gunRe_prefix in H2 as [Hp Hne].
    destruct (prefix_of_suffix_infix _ _ _ Hp Hsuffix) as (b & e & ->).
    eauto 6. }
  destruct (found (forwardMatch KANA_DICT _)) as [key|] eqn:Hforward.
  { apply found_Some in Hforward as [Hfind Hne].
    apply js_find_some in Hfind as [Hhit _].
    apply startsWith_prefix in Hhit.
    destruct (prefix_of_suffix_infix _ _ _ Hhit Hsuffix) as (b & e & ->).
    eauto 6. }
  destruct (cityTownVillageRe _) as [m|] eqn:H3.
  { apply cityTownVillageRe_prefix in H3 as [Hp Hne].
    destruct (prefix_of_suffix_infix _ _ _ Hp Hsuffix) as (b & e & ->).
    eauto 6. }
  exists addr, [], []. split; [done|]. split; [by destruct addr|by rewrite app_nil_r].
Qed.

(** ** The displayed name *)

Lemma split_plain (s : jsstring) : underscore ∉ s → split underscore s = [s].
Proof.
  induction s as [|c s IH]; simpl; [done|].
  intros [Hc Hs]%not_elem_of_cons.
  destruct (N.eqb_spec c underscore) as [->|_]; [done|].
  by rewrite IH.
Qed.

Lemma split_underscored (a b : jsstring) :
  underscore ∉ a →
  split underscore (underscored a b) = a :: split underscore b.
Proof.
  unfold underscored. simpl. induction a as [|c a IH]; simpl.
  - done.
  - intros [Hc Ha]%not_elem_of_cons.
    destruct (N.eqb_spec c underscore) as [->|_]; [done|].
    by rewrite IH.
Qed.

Lemma split_nonempty (sep : N) (s : jsstring) : split sep s ≠ [].
Proof.
  induction s as [|c s IH]; simpl; [done|].
  destruct (c =? sep); [done|]. by destruct (split sep s).
Qed.

Lemma includes_underscored (a b : jsstring) :
  includes (underscored a b) [underscore] = true.
Proof.
  unfold underscored, includes. simpl. induction a as [|c a IH]; simpl.
  - by destruct b.
  - destruct (_ && _); [done|].
    by destruct (indexOf (a ++ underscore :: b) [underscore]).
Qed.

(** X14. For a key made of a prefecture without an underscore and a
    municipality, the fixed bar, the detail panel and the reading lookup
    all take the same part of the key: the municipality up to its first
    underscore, hence the whole municipality when it has none. *)
Theorem displayed_name_is_municipality (pref municipality : jsstring)
  (Hpref : underscore ∉ pref) :
  let city := underscored pref municipality in
  cityName city = hd [] (split underscore municipality)
  ∧ municipalityOf city = hd [] (split underscore municipality)
  ∧ nth 0 (split underscore city) [] = pref
  ∧ nth 1 (split underscore city) [] = hd [] (split underscore municipality)
  ∧ (underscore ∉ municipality →
     cityName city = municipality ∧ municipalityOf city = municipality).
Proof.
  intros city. subst city.
  assert (nth 1 (split underscore (underscored pref municipality)) []
          = hd [] (split underscore municipality)) as Hnth.
  { rewrite split_underscored by done. simpl.
    by destruct (split underscore municipality). }
  assert (cityName (underscored pref municipality)
          = hd [] (split underscore municipality)) as Hcity.
  { unfold cityName. by rewrite includes_underscored. }
  assert (municipalityOf (underscored pref municipality)
          = hd [] (split underscore municipality)) as Hmuni.
  { unfold municipalityOf. rewrite split_underscored by done.
    pose proof (split_nonempty underscore municipality).
    destruct (split underscore municipality); [done|]. reflexivity. }
  split; [done|]. split; [done|].
  split; [by rewrite split_underscored|]. split; [done|].
  intros Hplain. rewrite Hcity, Hmuni, split_plain by done. done.
Qed.

Lemma displayed_name_is_municipality_witness :
  let city := underscored (u16 "宮城県") (u16 "仙台市青葉区") in
  cityName city = hd [] (split underscore (u16 "仙台市青葉区"))
  ∧ municipalityOf city = hd [] (split underscore (u16 "仙台市青葉区"))
  ∧ nth 0 (split underscore city) [] = u16 "宮城県"
  ∧ nth 1 (split underscore city) []
    = hd [] (split underscore (u16 "仙台市青葉区"))
  ∧ (underscore ∉ u16 "仙台市青葉区" →
     cityName city = u16 "仙台市青葉区"
     ∧ municipalityOf city = u16 "仙台市青葉区").
Proof.
  apply (displayed_name_is_municipality (u16 "宮城県") (u16 "仙台市青葉区")).
  apply (bool_decide_unpack _). vm_compute. reflexivity.
Defined.

End MunicipalityShape.

(* ===================================================================== *)
(** * Properties of the override table and of the reading conversion *)
(* ===================================================================== *)

Module KanaRegistrySpec.

Import Kana Shindo KanaRegistry KanaSpec.

(** ** The automatic registration *)

Lemma needsEntry_assign (M : overrides) (kana cityKey : jsstring) :
  needsEntry M kana cityKey = true →
  assign M cityKey [] = <[cityKey := []]> M
  ∧ kana = []
  ∧ (M !! cityKey = None ∨ M !! cityKey = Some [])
  ∧ (M !! cityKey = None → cityKey ∉ objectPrototypeNames)
  ∧ includes cityKey (u16 "不明") = false.
Proof.
  unfold needsEntry, assign, overrideProperty.
  intros [[Hkana Hprop]%andb_true_iff Hinc%negb_true_iff]%andb_true_iff.
  apply negb_true_iff in Hkana.
  assert (kana = []) as -> by by destruct kana.
  destruct (M !! cityKey) as [v|] eqn:Hv.
  - rewrite (bool_decide_true (is_Some (Some v))) by (by eexists).
    rewrite andb_false_r.
    destruct v; [|done]. repeat split; auto. by intros.
  - case_bool_decide as Hproto; [done|].
    rewrite bool_decide_false; [repeat split; auto|].
    intros ->. apply Hproto. apply (bool_decide_unpack _). by vm_compute.
Qed.

Lemma getKana_insert_empty (M : overrides) (KANA_DICT : dictionary)
  (cityKey : jsstring) :
  getKana M KANA_DICT cityKey = Ok [] →
  (M !! cityKey = None → cityKey ∉ objectPrototypeNames) →
  ∀ kanji, getKana (<[cityKey := []]> M) KANA_DICT kanji
           = getKana M KANA_DICT kanji.
Proof.
  intros Hkana Hproto kanji. unfold getKana in *.
  destruct (truthy kanji) eqn:Hk; simpl; [|done].
  assert (is_Some (<[cityKey := []]> M !! u16 "hasOwnProperty")
          ↔ is_Some (M !! u16 "hasOwnProperty")) as Hshadow.
  { destruct (decide (cityKey = u16 "hasOwnProperty")) as [->|Hne].
    - rewrite lookup_insert_eq. split; [intros _|eauto].
      destruct (M !! u16 "hasOwnProperty") eqn:Hown; [eauto|].
      exfalso. apply (Hproto eq_refl).
      apply (bool_decide_unpack _). by vm_compute.
    - by rewrite lookup_insert_ne. }
  rewrite (bool_decide_ext _ _ Hshadow).
  destruct (decide (cityKey = kanji)) as [->|Hne].
  - rewrite lookup_insert_eq. rewrite Hk in Hkana. simpl in Hkana.
    destruct (bool_decide (is_Some (M !! u16 "hasOwnProperty"))); done.
  - by rewrite lookup_insert_ne.
Qed.

(** What one step does to the table. *)
Lemma registerStep_cases (KANA_DICT : dictionary) (M : overrides) (u : bool)
  (cityKey : jsstring) :
  match registerStep KANA_DICT (M, u) cityKey with
  | Throw => getKana M KANA_DICT cityKey = Throw
  | Ok (M', u') =>
      (M' = M ∧ u' = u
       ∧ ∀ kana, getKana M KANA_DICT cityKey = Ok kana →
                 needsEntry M kana cityKey = false)
      ∨ (M' = <[cityKey := []]> M ∧ u' = true
         ∧ getKana M KANA_DICT cityKey = Ok []
         ∧ (M !! cityKey = None ∨ M !! cityKey = Some [])
         ∧ (M !! cityKey = None → cityKey ∉ objectPrototypeNames)
         ∧ includes cityKey (u16 "不明") = false)
  end.
Proof.
  unfold registerStep. simpl.
  destruct (getKana M KANA_DICT cityKey) as [kana|] eqn:Hkana; simpl; [|done].
  destruct (needsEntry M kana cityKey) eqn:Hneeds.
  - right. apply needsEntry_assign in Hneeds as (-> & -> & ? & ? & ?).
    by repeat split.
  - left. repeat split. by intros ? [= <-].
Qed.

(** The table after a step answers every lookup as before, keeps every
    entry, and gains at most an empty entry for the key of the step. *)
Lemma registerStep_table (KANA_DICT : dictionary) (M M' : overrides)
  (u u' : bool) (cityKey : jsstring) :
  registerStep KANA_DICT (M, u) cityKey = Ok (M', u') →
  (∀ kanji, getKana M' KANA_DICT kanji = getKana M KANA_DICT kanji)
  ∧ (∀ k v, M !! k = Some v → M' !! k = Some v)
  ∧ (∀ k v, M' !! k = Some v →
            M !! k = Some v
            ∨ (v = [] ∧ k = cityKey ∧ includes k (u16 "不明") = false
               ∧ getKana M KANA_DICT k = Ok []))
  ∧ (∀ kana, getKana M' KANA_DICT cityKey = Ok kana →
             needsEntry M' kana cityKey = true → M' !! cityKey = Some []).
Proof.
  intros Hstep. pose proof (registerStep_cases KANA_DICT M u cityKey) as Hc.
  rewrite Hstep in Hc.
  destruct Hc as [(-> & -> & Hno)|(-> & -> & Hkana & Hown & Hproto & Hinc)].
  - repeat split; auto. intros kana Hk Hn. rewrite (Hno kana Hk) in Hn. done.
  - split; [by apply getKana_insert_empty|]. split; [|split].
    + intros k v Hk. destruct (decide (cityKey = k)) as [->|Hne].
      * rewrite lookup_insert_eq. destruct Hown; congruence.
      * by rewrite lookup_insert_ne.
    + intros k v. destruct (decide (cityKey = k)) as [->|Hne].
      * rewrite lookup_insert_eq. intros [= <-]. right. auto.
      * rewrite lookup_insert_ne by done. auto.
    + intros. by rewrite lookup_insert_eq.
Qed.

(** A key that needs no entry keeps needing none while entries are only
    added the way a step adds them. *)
Lemma settled_preserved (KANA_DICT : dictionary) (M M' : overrides)
  (u u' : bool) (cityKey k : jsstring) :
  registerStep KANA_DICT (M, u) cityKey = Ok (M', u') →
  (∀ kana, getKana M KANA_DICT k = Ok kana →
           needsEntry M kana k = true → M !! k = Some []) →
  (∀ kana, getKana M' KANA_DICT k = Ok kana →
           needsEntry M' kana k = true → M' !! k = Some []).
Proof.
  intros Hstep Hsettled kana Hkana Hneeds.
  destruct (registerStep_table _ _ _ _ _ _ Hstep) as (Hsame & Hkeep & Hnew & Hk).
  destruct (decide (cityKey = k)) as [->|Hne]; [by eapply Hk|].
  pose proof (registerStep_cases KANA_DICT M u cityKey) as Hc.
  rewrite Hstep in Hc.
  destruct Hc as [(-> & -> & _)|(-> & -> & _)]; [by eapply Hsettled|].
  rewrite lookup_insert_ne by done.
  rewrite Hsame in Hkana. apply (Hsettled kana Hkana).
  unfold needsEntry, overrideProperty in *.
  by rewrite lookup_insert_ne in Hneeds.
Qed.

Lemma registerAll_table (KANA_DICT : dictionary) (cityKeys : list jsstring) :
  ∀ (M : overrides) (u : bool),
    let out := registerAll KANA_DICT (M, u) cityKeys in
    (∀ kanji, getKana out.1.1 KANA_DICT kanji = getKana M KANA_DICT kanji)
    ∧ (∀ k v, M !! k = Some v → out.1.1 !! k = Some v)
    ∧ (∀ k v, out.1.1 !! k = Some v →
              M !! k = Some v
              ∨ (v = [] ∧ k ∈ cityKeys ∧ includes k (u16 "不明") = false
                 ∧ getKana M KANA_DICT k = Ok []))
    ∧ (out.2 = Throw
       ↔ ∃ k, k ∈ cityKeys ∧ getKana M KANA_DICT k = Throw).
Proof.
  induction cityKeys as [|cityKey rest IH]; intros M u; simpl.
  - repeat split; auto; try done. by intros (k & Hk%elem_of_nil & _).
  - destruct (registerStep KANA_DICT (M, u) cityKey) as [[M1 u1]|] eqn:Hstep.
    + destruct (registerStep_table _ _ _ _ _ _ Hstep)
        as (Hsame & Hkeep & Hnew & _).
      destruct (IH M1 u1) as (IH1 & IH2 & IH3 & IH4). simpl in *.
      split; [intros kanji; by rewrite IH1|].
      split; [auto|]. split.
      * intros k v Hk. destruct (IH3 k v Hk) as [Hk1|(-> & Hin & Hinc & Hg)].
        -- destruct (Hnew k v Hk1) as [?|(-> & -> & ? & ?)]; [by left|right].
           repeat split; auto. left.
        -- right. repeat split; auto; [by right|]. by rewrite <- Hsame.
      * rewrite IH4. split.
        -- intros (k & Hin & Hk). exists k. split; [by right|].
           by rewrite <- Hsame.
        -- intros (k & Hin & Hk).
           apply elem_of_cons in Hin as [->|Hin].
           ++ pose proof (registerStep_cases KANA_DICT M u cityKey) as Hc.
              rewrite Hstep in Hc.
              destruct Hc as [(_ & _ & _)|(_ & _ & Hok & _)]; [|congruence].
              exfalso. unfold registerStep in Hstep. simpl in Hstep.
              by rewrite Hk in Hstep.
           ++ exists k. split; [done|]. by rewrite Hsame.
    + pose proof (registerStep_cases KANA_DICT M u cityKey) as Hc.
      rewrite Hstep in Hc. simpl.
      repeat split; auto. intros _. exists cityKey. split; [left|done].
Qed.

(** A key with an override is answered by the override alone, whatever
    the dictionary holds. *)
Lemma getKana_override_alone (M : overrides) (D1 D2 : dictionary)
  (k v : jsstring) :
  M !! k = Some v → getKana M D1 k = getKana M D2 k.
Proof.
  intros Hk. unfold getKana. destruct (negb (truthy k)); [done|].
  destruct (bool_decide _); [done|]. by rewrite Hk.
Qed.

(** X15. What the automatic registration of places without a reading
    does to the lookup. Under the dictionary it ran with, the table it
    leaves, also when an exception ends it early, answers every [getKana]
    call as the table before; it keeps every entry, and every entry it
    adds is an empty reading for a displayed key that does not contain
    the marker for unknown and for which the lookup gave the empty
    string. It stops early exactly when the lookup throws for one of the
    keys. Under another dictionary the registration is not invisible: a
    key of the table is answered by its entry alone, so the lookup of a
    key the registration added stays the empty string whatever reading a
    later dictionary holds for the name, as for a place registered before
    the dictionary was loaded. *)
Theorem auto_registration_effect (KANA_DICT : dictionary)
  (MANUAL_KANA_DICT : overrides) (shindoByMode : list ShindoGroup) :
  let out := autoRegister KANA_DICT MANUAL_KANA_DICT shindoByMode in
  let cityKeys := flat_map cities shindoByMode in
  (∀ kanji, getKana out.1.1 KANA_DICT kanji
            = getKana MANUAL_KANA_DICT KANA_DICT kanji)
  ∧ (∀ k v, MANUAL_KANA_DICT !! k = Some v → out.1.1 !! k = Some v)
  ∧ (∀ k v, out.1.1 !! k = Some v →
            MANUAL_KANA_DICT !! k = Some v
            ∨ (v = [] ∧ k ∈ cityKeys ∧ includes k (u16 "不明") = false
               ∧ getKana MANUAL_KANA_DICT KANA_DICT k = Ok []))
  ∧ (out.2 = Throw
     ↔ ∃ k, k ∈ cityKeys ∧ getKana MANUAL_KANA_DICT KANA_DICT k = Throw)
  ∧ (∀ later k,
       MANUAL_KANA_DICT !! k = None → is_Some (out.1.1 !! k) →
       out.1.1 !! k = Some [] ∧ getKana out.1.1 later k = Ok [])
  ∧ (let key := u16 "宮城県_仙台市" in
     let loaded := [(u16 "仙台市", u16 "センダイシ")] in
     let registered :=
       (autoRegister [] ∅ [mkShindoGroup (u16 "震度3") [key]]).1.1 in
     registered !! key = Some []
     ∧ getKana ∅ loaded key = Ok (u16 "せんだいし")
     ∧ getKana registered loaded key = Ok []).
Proof.
  intros out cityKeys.
  destruct (registerAll_table KANA_DICT cityKeys MANUAL_KANA_DICT false)
    as (Hsame & Hkeep & Hnew & Hthrow).
  fold (autoRegister KANA_DICT MANUAL_KANA_DICT shindoByMode) in *.
  fold out in Hsame, Hkeep, Hnew, Hthrow.
  split; [exact Hsame|]. split; [exact Hkeep|]. split; [exact Hnew|].
  split; [exact Hthrow|]. split.
  - intros later k Hnone [v Hv].
    destruct (Hnew k v Hv) as [Hold|(-> & _ & _ & Hkana)]; [congruence|].
    split; [exact Hv|].
    rewrite (getKana_override_alone out.1.1 later KANA_DICT k [] Hv).
    by rewrite Hsame.
  - vm_compute. repeat split; reflexivity.
Qed.

Lemma settled_along (KANA_DICT : dictionary) (cityKeys : list jsstring)
  (k : jsstring) :
  ∀ (M : overrides) (u : bool),
    (∀ kana, getKana M KANA_DICT k = Ok kana →
             needsEntry M kana k = true → M !! k = Some []) →
    let F := (registerAll KANA_DICT (M, u) cityKeys).1.1 in
    ∀ kana, getKana F KANA_DICT k = Ok kana →
            needsEntry F kana k = true → F !! k = Some [].
Proof.
  induction cityKeys as [|cityKey rest IH]; intros M u Hsettled; simpl; [done|].
  destruct (registerStep KANA_DICT (M, u) cityKey) as [[M1 u1]|] eqn:Hstep;
    [|done].
  apply IH. by eapply settled_preserved.
Qed.

Lemma registerStep_settled (KANA_DICT : dictionary) (F : overrides) (u : bool)
  (k : jsstring) :
  (∀ kana, getKana F KANA_DICT k = Ok kana →
           needsEntry F kana k = true → F !! k = Some []) →
  match registerStep KANA_DICT (F, u) k with
  | Ok st => st.1 = F
  | Throw => getKana F KANA_DICT k = Throw
  end.
Proof.
  intros Hsettled. unfold registerStep. simpl.
  destruct (getKana F KANA_DICT k) as [kana|] eqn:Hkana; simpl; [|done].
  destruct (needsEntry F kana k) eqn:Hneeds; simpl; [|done].
  pose proof (Hsettled kana eq_refl Hneeds) as Hown.
  apply needsEntry_assign in Hneeds as (-> & _).
  by apply insert_id.
Qed.

Lemma registerAll_again (KANA_DICT : dictionary) (cityKeys : list jsstring) :
  ∀ (M : overrides) (u u2 : bool),
    let out := registerAll KANA_DICT (M, u) cityKeys in
    let again := registerAll KANA_DICT (out.1.1, u2) cityKeys in
    again.1.1 = out.1.1 ∧ again.2 = out.2.
Proof.
  induction cityKeys as [|cityKey rest IH]; intros M u u2; simpl; [done|].
  destruct (registerStep KANA_DICT (M, u) cityKey) as [[M1 u1]|] eqn:Hstep.
  - set (F := (registerAll KANA_DICT (M1, u1) rest).1.1).
    assert (∀ kana, getKana F KANA_DICT cityKey = Ok kana →
                    needsEntry F kana cityKey = true →
                    F !! cityKey = Some []) as Hsettled.
    { apply settled_along.
      by destruct (registerStep_table _ _ _ _ _ _ Hstep) as (_ & _ & _ & ?). }
    pose proof (registerStep_settled KANA_DICT F u2 cityKey Hsettled) as Hre.
    destruct (registerStep KANA_DICT (F, u2) cityKey) as [[F1 u3]|] eqn:Hstep2.
    + simpl in Hre. subst F1. apply IH.
    + exfalso.
      destruct (registerAll_table KANA_DICT rest M1 u1) as (Hsame & _).
      fold F in Hsame. rewrite Hsame in Hre.
      destruct (registerStep_table _ _ _ _ _ _ Hstep) as (Hsame1 & _).
      rewrite Hsame1 in Hre.
      unfold registerStep in Hstep. simpl in Hstep. by rewrite Hre in Hstep.
  - simpl. pose proof (registerStep_cases KANA_DICT M u cityKey) as Hc.
    rewrite Hstep in Hc. unfold registerStep. simpl. by rewrite Hc.
Qed.

(** X16. Running the automatic registration again over the same groups
    changes nothing: the table stays as the first run left it, and the
    second run ends the way the first did. *)
Theorem auto_registration_idempotent (KANA_DICT : dictionary)
  (MANUAL_KANA_DICT : overrides) (shindoByMode : list ShindoGroup) :
  let out := autoRegister KANA_DICT MANUAL_KANA_DICT shindoByMode in
  let again := autoRegister KANA_DICT out.1.1 shindoByMode in
  again.1.1 = out.1.1 ∧ again.2 = out.2.
Proof. apply registerAll_again. Qed.

(** ** The dialog *)

Lemma trimStart_idem (s : jsstring) : trimStart (trimStart s) = trimStart s.
Proof.
  induction s as [|c s IH]; simpl; [done|].
  destruct (isWhiteSpace c) eqn:Hc; [done|]. simpl. by rewrite Hc.
Qed.

Lemma trimStart_head (s : jsstring) :
  match trimStart s with
  | c :: _ => isWhiteSpace c = false
  | [] => True
  end.
Proof.
  induction s as [|c s IH]; simpl; [done|].
  destruct (isWhiteSpace c) eqn:Hc; [done|]. simpl. done.
Qed.

Lemma trimStart_suffix (s : jsstring) : trimStart s `suffix_of` s.
Proof.
  induction s as [|c s IH]; simpl; [done|].
  destruct (isWhiteSpace c); [|done]. by apply suffix_cons_r.
Qed.

Lemma trimStart_clean (s : jsstring) :
  match s with
  | c :: _ => isWhiteSpace c = false
  | [] => True
  end → trimStart s = s.
Proof. destruct s as [|c s]; simpl; [done|]. by intros ->. Qed.

(** Removing trailing units keeps a clean head. *)
Lemma trimEnd_head (s : jsstring) :
  match s with
  | c :: _ => isWhiteSpace c = false
  | [] => True
  end →
  match trimEnd s with
  | c :: _ => isWhiteSpace c = false
  | [] => True
  end.
Proof.
  unfold trimEnd. intros Hs.
  destruct (trimStart_suffix (rev s)) as [dropped Hrev].
  apply (f_equal (@rev N)) in Hrev. rewrite rev_involutive, rev_app_distr in Hrev.
  destruct (rev (trimStart (rev s))) as [|c t]; [done|].
  rewrite Hrev in Hs. done.
Qed.

Lemma trim_idem (s : jsstring) : trim (trim s) = trim s.
Proof.
  unfold trim.
  rewrite (trimStart_clean (trimEnd (trimStart s)))
    by apply trimEnd_head, trimStart_head.
  unfold trimEnd. rewrite rev_involutive. by rewrite trimStart_idem.
Qed.

Lemma assign_insert (M : overrides) (key value : jsstring) :
  key ≠ u16 "__proto__" → assign M key value = <[key := value]> M.
Proof. intros Hk. unfold assign. by rewrite bool_decide_false. Qed.

(** X17. The dialog round trip. After the add button has taken a key and
    a reading, both non-empty once trimmed, the lookup of the trimmed key
    returns the trimmed reading, provided the key is neither [__proto__]
    nor [hasOwnProperty] and the table did not shadow [hasOwnProperty]
    before; deleting that key again restores a table that had no entry
    for it. A blank key or reading changes nothing, and adding a reading
    under the name [hasOwnProperty] makes every later lookup of a
    non-empty key throw. *)
Theorem dialog_round_trip (MANUAL_KANA_DICT : overrides)
  (KANA_DICT : dictionary) (keyInput valueInput : jsstring)
  (Hkey : trim keyInput ≠ []) (Hvalue : trim valueInput ≠ []) :
  let added := addEntry MANUAL_KANA_DICT keyInput valueInput in
  (trim keyInput ≠ u16 "__proto__" →
   trim keyInput ≠ u16 "hasOwnProperty" →
   MANUAL_KANA_DICT !! u16 "hasOwnProperty" = None →
   getKana added KANA_DICT (trim keyInput) = Ok (trim valueInput)
   ∧ (MANUAL_KANA_DICT !! trim keyInput = None →
      deleteEntry added (trim keyInput) = MANUAL_KANA_DICT))
  ∧ (trim keyInput = u16 "hasOwnProperty" →
     ∀ kanji, kanji ≠ [] → getKana added KANA_DICT kanji = Throw)
  ∧ (trim keyInput = u16 "__proto__" →
     MANUAL_KANA_DICT !! u16 "__proto__" = None →
     added = MANUAL_KANA_DICT)
  ∧ addEntry MANUAL_KANA_DICT keyInput [] = MANUAL_KANA_DICT
  ∧ addEntry MANUAL_KANA_DICT [] valueInput = MANUAL_KANA_DICT
  ∧ trim (trim keyInput) = trim keyInput.
Proof.
  intros added. subst added. unfold addEntry.
  rewrite (truthy_nonempty _ Hkey), (truthy_nonempty _ Hvalue). simpl.
  split; [|split; [|split; [|split; [|split]]]].
  - intros Hproto Hshadow Hown. rewrite assign_insert by done.
    split.
    + unfold getKana. rewrite (truthy_nonempty _ Hkey). simpl.
      rewrite lookup_insert_ne by done. rewrite Hown.
      rewrite bool_decide_false by (by intros [? ?]).
      by rewrite lookup_insert_eq.
    + intros Hnone. unfold deleteEntry. by apply delete_insert_id.
  - intros Hk kanji Hkanji. rewrite Hk.
    rewrite assign_insert by (by vm_compute).
    unfold getKana. rewrite (truthy_nonempty _ Hkanji). simpl.
    rewrite lookup_insert_eq. by rewrite bool_decide_true by eauto.
  - intros Hk Hown. unfold assign. rewrite Hk, Hown.
    rewrite bool_decide_true by done.
    by rewrite bool_decide_false by (by intros [? ?]).
  - reflexivity.
  - reflexivity.
  - apply trim_idem.
Qed.

Lemma dialog_round_trip_witness :
  let added := addEntry ∅ (u16 " 福島県_伊達市 ") (u16 "だてし ") in
  (trim (u16 " 福島県_伊達市 ") ≠ u16 "__proto__" →
   trim (u16 " 福島県_伊達市 ") ≠ u16 "hasOwnProperty" →
   (∅ : overrides) !! u16 "hasOwnProperty" = None →
   getKana added [] (trim (u16 " 福島県_伊達市 "))
   = Ok (trim (u16 "だてし "))
   ∧ ((∅ : overrides) !! trim (u16 " 福島県_伊達市 ") = None →
      deleteEntry added (trim (u16 " 福島県_伊達市 ")) = ∅))
  ∧ (trim (u16 " 福島県_伊達市 ") = u16 "hasOwnProperty" →
     ∀ kanji, kanji ≠ [] → getKana added [] kanji = Throw)
  ∧ (trim (u16 " 福島県_伊達市 ") = u16 "__proto__" →
     (∅ : overrides) !! u16 "__proto__" = None →
     added = ∅)
  ∧ addEntry ∅ (u16 " 福島県_伊達市 ") [] = ∅
  ∧ addEntry ∅ [] (u16 "だてし ") = ∅
  ∧ trim (trim (u16 " 福島県_伊達市 ")) = trim (u16 " 福島県_伊達市 ").
Proof.
  apply (dialog_round_trip ∅ [] (u16 " 福島県_伊達市 ") (u16 "だてし ")).
  - vm_compute. discriminate.
  - vm_compute. discriminate.
Defined.

End KanaRegistrySpec.

Module KatakanaSpec.

Import Kana KanaRegistry KanaSpec.

Lemma shiftKatakana_clean (c : N) : isKatakana (shiftKatakana c) = false.
Proof.
  unfold shiftKatakana, isKatakana.
  destruct ((0x30A1 <=? c) && (c <=? 0x30F6)) eqn:Hc; [|done].
  apply andb_true_iff in Hc as [H1%N.leb_le H2%N.leb_le].
  apply andb_false_iff. left. apply N.leb_gt. lia.
Qed.

Lemma shiftKatakana_other (c : N) :
  isKatakana c = false → shiftKatakana c = c.
Proof. unfold shiftKatakana, isKatakana. by intros ->. Qed.

Lemma katakanaToHiragana_Str (s : jsstring) :
  katakanaToHiragana (Str s) = Ok (map shiftKatakana s).
Proof. by destruct s. Qed.

Lemma katakanaToHiragana_clean (p : property) (reading : jsstring) :
  katakanaToHiragana p = Ok reading →
  Forall (fun c => isKatakana c = false) reading.
Proof.
  destruct p as [|s|]; simpl; try done.
  - intros [= <-]. constructor.
  - rewrite katakanaToHiragana_Str. intros [= <-].
    apply List.Forall_forall. intros c Hc.
    apply List.in_map_iff in Hc as (c0 & <- & _). apply shiftKatakana_clean.
Qed.

(** X18. [katakanaToHiragana] on a string moves exactly the units of
    U+30A1 to U+30F6 down by 0x60, into U+3041 to U+3096, and leaves the
    others; the result has the length of the input, holds no unit of the
    replaced range, and converting it again changes nothing. A reading
    that [getKana] takes from the base dictionary therefore never holds a
    unit of that range, while an override is returned unconverted. *)
Theorem katakana_becomes_hiragana (s : jsstring) :
  katakanaToHiragana (Str s) = Ok (map shiftKatakana s)
  ∧ length (map shiftKatakana s) = length s
  ∧ Forall (fun c => isKatakana c = false) (map shiftKatakana s)
  ∧ katakanaToHiragana (Str (map shiftKatakana s)) = Ok (map shiftKatakana s)
  ∧ (Forall (fun c => isKatakana c = false) s → map shiftKatakana s = s)
  ∧ (∀ c, isKatakana c = true →
          0x3041 <= shiftKatakana c <= 0x3096 ∧ shiftKatakana c + 0x60 = c)
  ∧ (∀ MANUAL_KANA_DICT KANA_DICT kanji reading,
       MANUAL_KANA_DICT !! kanji = None →
       getKana MANUAL_KANA_DICT KANA_DICT kanji = Ok reading →
       Forall (fun c => isKatakana c = false) reading)
  ∧ getKana {[ u16 "福島県_伊達市" := u16 "ダテシ" ]} [] (u16 "福島県_伊達市")
    = Ok (u16 "ダテシ").
Proof.
  split; [apply katakanaToHiragana_Str|].
  split; [apply length_map|].
  assert (Forall (fun c => isKatakana c = false) (map shiftKatakana s)) as Hclean.
  { apply (katakanaToHiragana_clean (Str s)), katakanaToHiragana_Str. }
  split; [done|].
  assert (∀ t, Forall (fun c => isKatakana c = false) t →
               map shiftKatakana t = t) as Hid.
  { induction 1 as [|c t Hc _ IH]; simpl; [done|].
    by rewrite IH, shiftKatakana_other. }
  split; [by rewrite katakanaToHiragana_Str, Hid|].
  split; [apply Hid|]. split.
  - intros c Hc. unfold shiftKatakana. unfold isKatakana in Hc. rewrite Hc.
    apply andb_true_iff in Hc as [H1%N.leb_le H2%N.leb_le]. lia.
  - split; [|by vm_compute].
    intros M D kanji reading Hnone. unfold getKana. rewrite Hnone.
    destruct (negb (truthy kanji)); [intros [= <-]; constructor|].
    destruct (bool_decide _); [done|].
    apply katakanaToHiragana_clean.
Qed.

End KatakanaSpec.

(* ===================================================================== *)
(** * Properties of the tsunami pages and of the greedy page loops *)
(* ===================================================================== *)

Module FixedBarSpec.

Import Aggregator Observation Badges Pagination FixedBar.
Import PaginationSpec BadgesSpec.

(** X19. The tsunami page of the fixed bar, for the label of an Event.
    The three warning labels give one page under that label whose class
    starts with the text "undefined", because the Event has no tsunami
    class; the labels for no tsunami and for an ongoing check give one
    page under a neutral badge; the observation label and the label for
    an unknown status give no page. An Event carries no other label. *)
Theorem tsunami_summary_page (tsunamiData : option TsunamiDetail)
  (tsunamiObservationData : option ObservationDetail)
  (domesticTsunami : jsstring) :
  let tsunamiLabel :=
    tsunamiLabelForGas tsunamiData tsunamiObservationData domesticTsunami in
  let views := tsunamiSummaryViews tsunamiLabel eventTsunamiClass in
  (tsunamiLabel ∈ map u16 ["大津波警報"; "津波警報"; "津波注意報"]%string →
   views = [mkBarView (u16 "summary") tsunamiLabel
                      (tsunamiMessage tsunamiLabel) []
                      (u16 "undefined tsunami-telop-badge")])
  ∧ (tsunamiLabel ∈ map u16 ["津波なし"; "調査中"]%string →
     views = [mkBarView (u16 "summary") (u16 "津 波")
                        (tsunamiMessage tsunamiLabel) [] (u16 "tsunami-none")])
  ∧ (tsunamiLabel ∈ map u16 ["津波観測中"; "不明"]%string → views = [])
  ∧ tsunamiLabel ∈ map u16 ["大津波警報"; "津波警報"; "津波注意報";
                            "津波観測中"; "津波なし"; "調査中"; "不明"]%string.
Proof.
  intros tsunamiLabel views. subst views.
  pose proof (tsunamiLabelForGas_range tsunamiData tsunamiObservationData
                domesticTsunami) as Hrange.
  fold tsunamiLabel in Hrange. split; [|split; [|split; [|done]]].
  all: clear Hrange; generalize tsunamiLabel; clear; intros tsunamiLabel Hin.
  all: cbn [map] in Hin;
    repeat (apply elem_of_cons in Hin as [->|Hin]; [by vm_compute|]);
    by apply elem_of_nil in Hin.
Qed.

Section Loops.

Variable doesTextFitInTwoLines : jsstring -> bool.

Local Abbreviation pageLoop := (pageLoop doesTextFitInTwoLines).
Local Abbreviation paginate := (paginate doesTextFitInTwoLines).
Local Abbreviation fits := (fits doesTextFitInTwoLines).
Local Abbreviation areaLoop := (areaLoop doesTextFitInTwoLines).
Local Abbreviation areasFit := (areasFit doesTextFitInTwoLines).

(** ** The pages of tsunami areas *)

Lemma areaLoop_concat (areas pageAreas : list jsstring) :
  concat (areaLoop areas pageAreas) = pageAreas ++ areas.
Proof.
  revert pageAreas.
  induction areas as [|area rest IH]; intros pageAreas; simpl.
  - destruct pageAreas; simpl; by rewrite ?app_nil_r.
  - destruct (negb _ && _); simpl; rewrite IH; simpl; [done|].
    by rewrite <- app_assoc.
Qed.

Lemma areaLoop_pages_nonempty (areas pageAreas : list jsstring) :
  Forall (fun page => (0 < length page)%nat) (areaLoop areas pageAreas).
Proof.
  revert pageAreas.
  induction areas as [|area rest IH]; intros pageAreas; simpl.
  - destruct pageAreas; simpl; [constructor|].
    constructor; [simpl; lia|constructor].
  - destruct (doesTextFitInTwoLines _); simpl; [apply IH|].
    destruct pageAreas as [|c cs]; simpl; [apply IH|].
    constructor; [simpl; lia|apply IH].
Qed.

Lemma areaLoop_acceptable (areas pageAreas : list jsstring) :
  pageAreas = []
  ∨ areasFit pageAreas = true
  ∨ (∃ item, pageAreas = [item]) →
  Forall (fun page => areasFit page = true ∨ ∃ item, page = [item])
         (areaLoop areas pageAreas).
Proof.
  revert pageAreas.
  induction areas as [|area rest IH]; intros pageAreas Hbuf; simpl.
  - destruct pageAreas; simpl; [constructor|].
    constructor; [|constructor]. by destruct Hbuf.
  - destruct (doesTextFitInTwoLines (join wideSpace (pageAreas ++ [area])))
      eqn:Efit; simpl.
    + apply IH. right. by left.
    + destruct pageAreas as [|c cs]; simpl.
      * apply IH. right. right. eauto.
      * constructor.
        -- by destruct Hbuf.
        -- apply IH. right. right. eauto.
Qed.

Lemma createTsunamiAreaViews_pages (areas : list jsstring)
  (title badgeClass : jsstring) :
  createTsunamiAreaViews doesTextFitInTwoLines areas title badgeClass
  = map (fun pageAreas =>
           mkBarView (u16 "summary") title (join wideSpace pageAreas) []
                     (badgeClass ++ u16 " tsunami-telop-badge"))
        (areaLoop areas []).
Proof.
  unfold createTsunamiAreaViews. by destruct areas.
Qed.

(** X20. The pages of tsunami forecast areas. For each grade the pages
    hold whole area names, joined by an ideographic space; put together
    in order they are exactly the areas of that grade; every page passes
    the measurement unless it holds a single area; and the pages of the
    three grades follow each other in the order major warning, warning,
    advisory, each under the title of its grade. *)
Theorem tsunami_area_pages (f : ForecastsByGrade) :
  let pagesOf := fun areas => areaLoop areas [] in
  (∀ areas,
     concat (pagesOf areas) = areas
     ∧ Forall (fun page => (0 < length page)%nat) (pagesOf areas)
     ∧ Forall (fun page => areasFit page = true ∨ ∃ item, page = [item])
              (pagesOf areas)
     ∧ ∀ title badgeClass,
         map (fun v => (bar_shindo v, bar_line1 v))
             (createTsunamiAreaViews doesTextFitInTwoLines areas title
                                     badgeClass)
         = map (fun page => (title, join wideSpace page)) (pagesOf areas))
  ∧ map bar_shindo (tsunamiAreaViews doesTextFitInTwoLines (Some f))
    = replicate (length (pagesOf (areasMajorWarning f))) (u16 "大津波警報")
      ++ replicate (length (pagesOf (areasWarning f))) (u16 "津波警報")
      ++ replicate (length (pagesOf (areasAdvisory f))) (u16 "津波注意報")
  ∧ tsunamiAreaViews doesTextFitInTwoLines None = [].
Proof.
  intros pagesOf. subst pagesOf. cbv beta.
  split; [|split; [|done]].
  - intros areas.
    split; [apply (areaLoop_concat areas [])|].
    split; [apply areaLoop_pages_nonempty|].
    split; [apply areaLoop_acceptable; by left|].
    intros title badgeClass. rewrite createTsunamiAreaViews_pages.
    rewrite map_map. by apply map_ext.
  - unfold tsunamiAreaViews. rewrite !map_app.
    rewrite !createTsunamiAreaViews_pages, !map_map. simpl.
    assert (∀ (t : jsstring) (l : list (list jsstring)),
              map (fun _ => t) l = replicate (length l) t) as Hrep.
    { intros t l. induction l as [|x l IH]; simpl; [done|]. by rewrite IH. }
    by rewrite !Hrep.
Qed.

(** ** No page is closed early *)

Lemma pageLoop_head (cities pageCities : list jsstring) :
  pageCities ≠ [] →
  ∃ page pages, pageLoop cities pageCities = page :: pages
                ∧ pageCities `prefix_of` page.
Proof.
  revert pageCities.
  induction cities as [|city rest IH]; intros pageCities Hne; simpl.
  - destruct pageCities; [done|]. simpl. eauto.
  - destruct (negb _ && _); [eauto|].
    destruct (IH (pageCities ++ [cityName city])) as (page & pages & -> & Hp).
    { by destruct pageCities. }
    exists page, pages. split; [done|].
    etrans; [|exact Hp]. by apply prefix_app_r.
Qed.

Lemma pageLoop_greedy (cities : list jsstring) :
  ∀ pageCities i,
    match pageLoop cities pageCities !! i,
          pageLoop cities pageCities !! S i with
    | Some page, Some (item :: _) => fits (page ++ [item]) = false
    | Some _, Some [] => False
    | _, _ => True
    end.
Proof.
  induction cities as [|city rest IH]; intros pageCities i; simpl.
  - destruct (0 <? length pageCities)%nat; [|done].
    destruct i; simpl; done.
  - destruct (negb (doesTextFitInTwoLines _) && _) eqn:Hbreak; [|apply IH].
    destruct i as [|i]; [|apply (IH [cityName city] i)].
    simpl.
    destruct (pageLoop_head rest [cityName city]) as (page & pages & -> & Hp);
      [done|].
    simpl. destruct Hp as [more ->]. simpl.
    apply andb_true_iff in Hbreak as [Hfit _].
    by apply negb_true_iff in Hfit.
Qed.

Lemma areaLoop_head (areas pageAreas : list jsstring) :
  pageAreas ≠ [] →
  ∃ page pages, areaLoop areas pageAreas = page :: pages
                ∧ pageAreas `prefix_of` page.
Proof.
  revert pageAreas.
  induction areas as [|area rest IH]; intros pageAreas Hne; simpl.
  - destruct pageAreas; [done|]. simpl. eauto.
  - destruct (negb _ && _); [eauto|].
    destruct (IH (pageAreas ++ [area])) as (page & pages & -> & Hp).
    { by destruct pageAreas. }
    exists page, pages. split; [done|].
    etrans; [|exact Hp]. by apply prefix_app_r.
Qed.

Lemma areaLoop_greedy (areas : list jsstring) :
  ∀ pageAreas i,
    match areaLoop areas pageAreas !! i,
          areaLoop areas pageAreas !! S i with
    | Some page, Some (item :: _) => areasFit (page ++ [item]) = false
    | Some _, Some [] => False
    | _, _ => True
    end.
Proof.
  induction areas as [|area rest IH]; intros pageAreas i; simpl.
  - destruct (0 <? length pageAreas)%nat; [|done].
    destruct i; simpl; done.
  - destruct (negb (doesTextFitInTwoLines _) && _) eqn:Hbreak; [|apply IH].
    destruct i as [|i]; [|apply (IH [area] i)].
    simpl.
    destruct (areaLoop_head rest [area]) as (page & pages & -> & Hp);
      [done|].
    simpl. destruct Hp as [more ->]. simpl.
    apply andb_true_iff in Hbreak as [Hfit _].
    by apply negb_true_iff in Hfit.
Qed.

(** X21. The page loops close a page only when they must: for every two
    pages that follow each other, of a group of places as of a grade of
    tsunami areas, the first page together with the first item of the
    next one does not pass the measurement. *)
Theorem pages_are_filled_greedily (items : list jsstring) (i : nat) :
  match paginate items !! i, paginate items !! S i with
  | Some page, Some (item :: _) => fits (page ++ [item]) = false
  | Some _, Some [] => False
  | _, _ => True
  end
  ∧ match areaLoop items [] !! i, areaLoop items [] !! S i with
    | Some page, Some (item :: _) => areasFit (page ++ [item]) = false
    | Some _, Some [] => False
    | _, _ => True
    end.
Proof. split; [apply pageLoop_greedy|apply areaLoop_greedy]. Qed.

End Loops.

End FixedBarSpec.

(* ===================================================================== *)
(** * The observation points sent to the spreadsheet *)
(* ===================================================================== *)

Module PayloadSpec.

Import Aggregator Shindo AggregatorSpec.

Local Abbreviation stronger :=
  (fun a b : ProcessedPoint => (scale (point b) <= scale (point a))%Z).

Lemma insertByScale_perm (x : ProcessedPoint) (l : list ProcessedPoint) :
  insertByScale x l ≡ₚ x :: l.
Proof.
  induction l as [|y l IH]; simpl; [done|].
  destruct (scale (point x) <? scale (point y))%Z; [|done].
  rewrite IH. apply Permutation_swap.
Qed.

Lemma sortByScaleDesc_perm (l : list ProcessedPoint) : sortByScaleDesc l ≡ₚ l.
Proof.
  induction l as [|x l IH]; simpl; [done|].
  rewrite insertByScale_perm. by rewrite IH.
Qed.

Lemma insertByScale_sorted (x : ProcessedPoint) (l : list ProcessedPoint) :
  StronglySorted stronger l → StronglySorted stronger (insertByScale x l).
Proof.
  induction 1 as [|y l Hsorted IH Hall]; simpl.
  - repeat constructor.
  - destruct (scale (point x) <? scale (point y))%Z eqn:Hlt.
    + apply Z.ltb_lt in Hlt. constructor; [done|].
      rewrite insertByScale_perm. constructor; [lia|done].
    + apply Z.ltb_ge in Hlt. constructor; [by constructor|].
      constructor; [done|].
      eapply Forall_impl; [exact Hall|]. simpl. lia.
Qed.

Lemma sortByScaleDesc_sorted (l : list ProcessedPoint) :
  StronglySorted stronger (sortByScaleDesc l).
Proof.
  induction l as [|x l IH]; simpl; [constructor|].
  by apply insertByScale_sorted.
Qed.

Lemma filter_sublist {A} (f : A → bool) (l : list A) :
  List.filter f l `sublist_of` l.
Proof.
  induction l as [|x l IH]; simpl; [constructor|].
  destruct (f x); by constructor.
Qed.

Lemma allPoints_elem (ev : Event) (p : ProcessedPoint) :
  p ∈ allPoints ev ↔ p ∈ eventPoints ev ∧ (10 <= scale (point p))%Z.
Proof.
  unfold allPoints. rewrite !list_elem_of_In, List.filter_In.
  by rewrite Z.leb_le.
Qed.

(** X22. What is posted for an Event. Nothing is posted when no point
    reaches scale 10. Otherwise the body holds at most 40 points, all of
    them points of the Event of scale 10 or more, none more often than
    the Event has it, strongest first; a point of scale 10 or more that
    is left out is no stronger than any point sent; and each point is
    sent under the address made of its prefecture, an underscore and its
    address, with the id of the Event. *)
Theorem points_payload_strongest_forty (ev : Event) :
  match pointsPayload ev with
  | None => Forall (fun p => (scale (point p) < 10)%Z) (eventPoints ev)
  | Some payload =>
      payload ≠ []
      ∧ length payload = Nat.min 40 (length (allPoints ev))
      ∧ map sent_point payload ⊆+ eventPoints ev
      ∧ StronglySorted (fun a b => (scale (point b) <= scale (point a))%Z)
                       (map sent_point payload)
      ∧ Forall (fun s =>
                  (10 <= scale (point (sent_point s)))%Z
                  ∧ sent_addr s
                    = underscored (pref (point (sent_point s)))
                                  (addr (point (sent_point s)))
                  ∧ earthquakeId s = id ev) payload
      ∧ (∀ p s, p ∈ eventPoints ev → (10 <= scale (point p))%Z →
                p ∉ map sent_point payload → s ∈ payload →
                (scale (point p) <= scale (point (sent_point s)))%Z)
  end.
Proof.
  unfold pointsPayload.
  destruct (0 <? length (allPoints ev))%nat eqn:Hlen.
  - apply Nat.ltb_lt in Hlen.
    set (sorted := sortByScaleDesc (allPoints ev)).
    assert (sorted ≡ₚ allPoints ev) as Hperm by apply sortByScaleDesc_perm.
    assert (StronglySorted stronger sorted) as Hsorted
      by apply sortByScaleDesc_sorted.
    assert (length sorted = length (allPoints ev)) as Hlength
      by by rewrite Hperm.
    assert (∀ l : list ProcessedPoint,
              map sent_point
                  (map (fun p => mkPayloadPoint
                                   p (underscored (pref (point p))
                                                  (addr (point p)))
                                   (id ev)) l) = l) as Hsent.
    { intros l. rewrite map_map. apply map_id. }
    cbv zeta. rewrite Hsent.
    split; [|split; [|split; [|split; [|split]]]].
    + intros Hnil. apply (f_equal length) in Hnil.
      rewrite length_map, length_take in Hnil. cbn [length] in Hnil. lia.
    + rewrite length_map, length_take. lia.
    + etrans; [apply submseteq_take|]. rewrite Hperm.
      apply sublist_submseteq, filter_sublist.
    + rewrite <- (take_drop 40 sorted) in Hsorted.
      by apply StronglySorted_app_1_l in Hsorted.
    + apply List.Forall_forall. intros s Hs.
      apply List.in_map_iff in Hs as (p & <- & Hp). simpl.
      split; [|done]. apply list_elem_of_In in Hp.
      assert (p ∈ allPoints ev) as Hin.
      { rewrite <- Hperm. eapply elem_of_submseteq; [exact Hp|].
        apply submseteq_take. }
      by apply allPoints_elem in Hin as [_ ?].
    + intros p s Hp Hscale Hout Hs.
      apply list_elem_of_fmap in Hs as (q & -> & Hq). simpl.
      assert (p ∈ sorted) as Hin by (rewrite Hperm; by apply allPoints_elem).
      rewrite <- (take_drop 40 sorted) in Hin, Hsorted.
      apply elem_of_app in Hin as [Hin|Hin]; [done|].
      by apply (StronglySorted_app_1_elem_of _ _ _ q p Hsorted).
  - apply Nat.ltb_ge in Hlen.
    assert (allPoints ev = []) as Hnil
      by (destruct (allPoints ev); [done|simpl in Hlen; lia]).
    apply List.Forall_forall. intros p Hp.
    destruct (Z_lt_le_dec (scale (point p)) 10) as [?|Hge]; [done|].
    assert (p ∈ allPoints ev) as Hin
      by (apply allPoints_elem; split; [by apply list_elem_of_In|done]).
    rewrite Hnil in Hin. by apply elem_of_nil in Hin.
Qed.

End PayloadSpec.

(* ===================================================================== *)
(** * Properties of the page cycle *)
(* ===================================================================== *)

Module AutoplaySpec.

Import Autoplay.

Local Abbreviation playing i c := (mkPlayState true i c true).

(** Climbing from page [i] to page [i + j]. *)
Lemma firings_climb (views : nat) (totalLoops : option Z) (j : nat) :
  ∀ (i c : Z) (k : nat),
    (i + Z.of_nat j <= Z.of_nat views - 1)%Z →
    firings views totalLoops (j + k) (playing i c)
    = map (fun d => ShowView (i + 1 + Z.of_nat d)) (seq 0 j)
      ++ firings views totalLoops k (playing (i + Z.of_nat j) c).
Proof.
  induction j as [|j IH]; intros i c k Hle.
  - simpl. by rewrite Z.add_0_r.
  - cbn [Nat.add firings autoplayIntervalId]. unfold tick.
    cbn [isAutoplaying negb CURRENT_SHINDO_INDEX autoplayLoopCounter
         autoplayIntervalId].
    replace (i <? Z.of_nat views - 1)%Z with true
      by (symmetry; apply Z.ltb_lt; lia).
    rewrite IH by lia. cbn [seq map app]. rewrite Z.add_0_r.
    replace (i + 1 + Z.of_nat j)%Z with (i + Z.of_nat (S j))%Z by lia.
    f_equal. rewrite <- seq_shift, map_map. f_equal.
    apply map_ext. intros d. f_equal. lia.
Qed.

Lemma pass_take (views r : nat) :
  (r <= views)%nat →
  take r (pass views) = map (fun i => ShowView (Z.of_nat i)) (seq 0 r).
Proof.
  intros Hr. unfold pass. rewrite firstn_map. f_equal.
  rewrite take_seq. f_equal. lia.
Qed.

(** The first pass, from the index -1 that [startAutoplay] leaves. *)
Lemma firings_first (views : nat) (totalLoops : option Z) (r k : nat) (c : Z) :
  (r <= views)%nat →
  firings views totalLoops (r + k) (playing (-1) c)
  = take r (pass views)
    ++ firings views totalLoops k (playing (Z.of_nat r - 1) c).
Proof.
  intros Hr. rewrite firings_climb by lia. rewrite pass_take by done.
  replace (-1 + Z.of_nat r)%Z with (Z.of_nat r - 1)%Z by lia.
  reflexivity.
Qed.

(** A later pass, from the last page. *)
Lemma firings_later (views : nat) (totalLoops : option Z) (r k : nat) (c : Z) :
  (1 <= views)%nat → (1 <= r <= views)%nat →
  loopsDone totalLoops (c + 1) = false →
  firings views totalLoops (r + k) (playing (Z.of_nat views - 1) c)
  = take r (pass views)
    ++ firings views totalLoops k (playing (Z.of_nat r - 1) (c + 1)).
Proof.
  intros Hviews Hr Hloops.
  destruct r as [|r]; [lia|].
  cbn [Nat.add firings autoplayIntervalId]. unfold tick.
  cbn [isAutoplaying negb CURRENT_SHINDO_INDEX autoplayLoopCounter
       autoplayIntervalId].
  rewrite Z.ltb_irrefl, Hloops.
  rewrite firings_climb by lia. rewrite pass_take by lia.
  replace (0 + Z.of_nat r)%Z with (Z.of_nat (S r) - 1)%Z by lia.
  cbn [seq map app]. f_equal. rewrite <- seq_shift, map_map. f_equal.
  apply map_ext. intros d. f_equal. lia.
Qed.

Lemma firings_first_part (views : nat) (totalLoops : option Z) (r : nat)
  (c : Z) :
  (r <= views)%nat →
  firings views totalLoops r (playing (-1) c) = take r (pass views).
Proof.
  intros Hr. rewrite <- (Nat.add_0_r r) at 1.
  rewrite firings_first by done. simpl. by rewrite app_nil_r.
Qed.

Lemma firings_later_part (views : nat) (totalLoops : option Z) (r : nat)
  (c : Z) :
  (1 <= views)%nat → (r <= views)%nat →
  loopsDone totalLoops (c + 1) = false →
  firings views totalLoops r (playing (Z.of_nat views - 1) c)
  = take r (pass views).
Proof.
  intros Hviews Hr Hloops. destruct r as [|r]; [done|].
  rewrite <- (Nat.add_0_r (S r)) at 1.
  rewrite firings_later by (done || lia). simpl. by rewrite app_nil_r.
Qed.

Lemma firings_end (views : nat) (totalLoops : option Z) (k : nat) (c : Z) :
  loopsDone totalLoops (c + 1) = true →
  firings views totalLoops (1 + k) (playing (Z.of_nat views - 1) c)
  = [ShowEnd].
Proof.
  intros Hloops.
  cbn [Nat.add firings autoplayIntervalId]. unfold tick.
  cbn [isAutoplaying negb CURRENT_SHINDO_INDEX autoplayLoopCounter
       autoplayIntervalId].
  rewrite Z.ltb_irrefl, Hloops. by destruct k.
Qed.

Lemma take_all_pass (views : nat) : take views (pass views) = pass views.
Proof. apply firstn_all2. unfold pass. by rewrite length_map, length_seq. Qed.

(** Whole passes from the last page, while the loops are not used up. *)
Lemma firings_passes (views : nat) (totalLoops : option Z) (q : nat) :
  ∀ (k : nat) (c : Z),
    (1 <= views)%nat →
    (∀ d, (d < q)%nat → loopsDone totalLoops (c + 1 + Z.of_nat d) = false) →
    firings views totalLoops (q * views + k) (playing (Z.of_nat views - 1) c)
    = concat (replicate q (pass views))
      ++ firings views totalLoops k
                 (playing (Z.of_nat views - 1) (c + Z.of_nat q)).
Proof.
  induction q as [|q IH]; intros k c Hviews Hloops.
  - simpl. by rewrite Z.add_0_r.
  - cbn [Nat.mul replicate concat]. rewrite <- !Nat.add_assoc.
    rewrite firings_later; [|done|lia|].
    2:{ specialize (Hloops 0%nat). rewrite Z.add_0_r in Hloops.
        apply Hloops. lia. }
    rewrite take_all_pass, <- app_assoc. f_equal.
    rewrite IH; [|done|].
    + do 3 f_equal. lia.
    + intros d Hd. specialize (Hloops (S d)).
      replace (c + 1 + 1 + Z.of_nat d)%Z with (c + 1 + Z.of_nat (S d))%Z by lia.
      apply Hloops. lia.
Qed.

Lemma autoplay_started (views : nat) (totalLoops : option Z) (n : nat) :
  (2 <= views)%nat →
  autoplay views totalLoops n = firings views totalLoops n (playing (-1) 0).
Proof.
  intros Hviews. unfold autoplay, startAutoplay. simpl.
  by replace (views <=? 1)%nat with false by (symmetry; apply Nat.leb_gt; lia).
Qed.

(** X23. Autoplay with a loop count. Started on two or more pages with
    the count [n], the timer shows every page from the first to the last,
    [n] times over (once when [n] is below 1), then the end view, and
    fires no more: the first pass starts at the first page, no page is
    skipped or shown twice in a pass, and no index outside the pages is
    ever shown. With one page or none autoplay does not start. *)
Theorem autoplay_runs_its_loops (views : nat) (n : Z) (k : nat)
  (Hviews : (2 <= views)%nat) :
  let loops := Z.to_nat (Z.max n 1) in
  autoplay views (Some n) (loops * views + 1 + k)
  = concat (replicate loops (pass views)) ++ [ShowEnd]
  ∧ (∀ q r, (q < loops)%nat → (r <= views)%nat →
            autoplay views (Some n) (q * views + r)
            = concat (replicate q (pass views)) ++ take r (pass views))
  ∧ (∀ totalLoops m, autoplay 0 totalLoops m = []
                     ∧ autoplay 1 totalLoops m = []).
Proof.
  intros loops.
  assert (loops = S (loops - 1)) as Hloops by (unfold loops; lia).
  assert (∀ d, (d < loops - 1)%nat →
               loopsDone (Some n) (0 + 1 + Z.of_nat d) = false) as Hnot.
  { intros d Hd. simpl. apply Z.leb_gt. unfold loops in Hd. lia. }
  assert (∀ q k0,
            (q < loops)%nat →
            autoplay views (Some n) (S q * views + k0)
            = concat (replicate (S q) (pass views))
              ++ firings views (Some n) k0
                         (playing (Z.of_nat views - 1) (Z.of_nat q)))
    as Hpasses.
  { intros q k0 Hq. rewrite autoplay_started by done.
    cbn [Nat.mul replicate concat].
    rewrite <- Nat.add_assoc, firings_first by done.
    rewrite take_all_pass, <- app_assoc. f_equal.
    rewrite firings_passes; [done|lia|].
    intros d Hd. apply Hnot. lia. }
  split; [|split].
  - rewrite Hloops at 1. rewrite <- Nat.add_assoc, Hpasses by lia.
    rewrite <- Hloops. f_equal. apply firings_end.
    simpl. apply Z.leb_le. unfold loops. lia.
  - intros q r Hq Hr. destruct q as [|q].
    + simpl. rewrite autoplay_started by done. by apply firings_first_part.
    + rewrite Hpasses by lia. f_equal.
      apply firings_later_part; [lia|done|].
      replace (Z.of_nat q + 1)%Z with (0 + 1 + Z.of_nat q)%Z by lia.
      apply Hnot. lia.
  - intros totalLoops m. by split.
Qed.

Lemma autoplay_runs_its_loops_witness :
  let loops := Z.to_nat (Z.max 2 1) in
  autoplay 3 (Some 2%Z) (loops * 3 + 1 + 4)
  = concat (replicate loops (pass 3)) ++ [ShowEnd]
  ∧ (∀ q r, (q < loops)%nat → (r <= 3)%nat →
            autoplay 3 (Some 2%Z) (q * 3 + r)
            = concat (replicate q (pass 3)) ++ take r (pass 3))
  ∧ (∀ totalLoops m, autoplay 0 totalLoops m = []
                     ∧ autoplay 1 totalLoops m = []).
Proof. apply (autoplay_runs_its_loops 3 2 4). lia. Defined.

(** X24. Autoplay without a loop count, the setting for endless play
    and any setting that is not a number: the timer goes on for ever
    through the pages in order, first to last and again from the first,
    and never shows the end view. *)
Theorem autoplay_cycles_for_ever (views : nat) (q r : nat)
  (Hviews : (2 <= views)%nat) (Hr : (r <= views)%nat) :
  autoplay views None (q * views + r)
  = concat (replicate q (pass views)) ++ take r (pass views)
  ∧ ShowEnd ∉ autoplay views None (q * views + r).
Proof.
  assert (autoplay views None (q * views + r)
          = concat (replicate q (pass views)) ++ take r (pass views)) as Heq.
  { rewrite autoplay_started by done. destruct q as [|q].
    - simpl. by apply firings_first_part.
    - cbn [Nat.mul]. rewrite <- Nat.add_assoc, firings_first by done.
      rewrite take_all_pass. cbn [replicate concat]. rewrite <- app_assoc.
      f_equal. rewrite firings_passes; [|lia|done]. f_equal.
      apply firings_later_part; [lia|done|done]. }
  split; [done|]. rewrite Heq.
  assert (∀ l, ShowEnd ∈ l → l `sublist_of` pass views → False) as Hpass.
  { intros l Hin Hsub. eapply elem_of_sublist in Hin; [|exact Hsub].
    unfold pass in Hin. by apply list_elem_of_fmap in Hin as (i & [=] & _). }
  intros [Hin|Hin]%elem_of_app.
  - apply list_elem_of_In, in_concat in Hin as (l & Hl & Hin).
    apply list_elem_of_In, elem_of_replicate in Hl as [-> _].
    apply list_elem_of_In in Hin. by apply (Hpass (pass views)).
  - apply (Hpass _ Hin), sublist_take.
Qed.

Lemma autoplay_cycles_for_ever_witness :
  autoplay 3 None (2 * 3 + 1)
  = concat (replicate 2 (pass 3)) ++ take 1 (pass 3)
  ∧ ShowEnd ∉ autoplay 3 None (2 * 3 + 1).
Proof. apply (autoplay_cycles_for_ever 3 2 1); lia. Defined.

End AutoplaySpec.

(* ===================================================================== *)
(** * Properties of the change test *)
(* ===================================================================== *)

Module RefreshSpec.

Import Digest Aggregator Refresh DigestSpec AggregatorSpec.

(** ** The order of the default sort *)

Local Abbreviation notAfter := (fun a b : jsstring => lessThan b a = false).

Lemma lessThan_irrefl (a : jsstring) : lessThan a a = false.
Proof.
  induction a as [|x a IH]; simpl; [done|]. by rewrite N.ltb_irrefl.
Qed.

Lemma notAfter_antisym (a b : jsstring) :
  lessThan b a = false → lessThan a b = false → a = b.
Proof.
  revert b. induction a as [|x a IH]; intros [|y b]; simpl; try done.
  destruct (N.ltb_spec y x), (N.ltb_spec x y); try done; try lia.
  intros Hba Hab. assert (x = y) as -> by lia. f_equal. by apply IH.
Qed.

Lemma notAfter_trans (a b c : jsstring) :
  lessThan b a = false → lessThan c b = false → lessThan c a = false.
Proof.
  revert b c. induction a as [|x a IH]; intros [|y b] [|z c]; simpl; try done.
  destruct (N.ltb_spec y x); [done|].
  destruct (N.ltb_spec z y); [by destruct (x <? y)|].
  destruct (N.ltb_spec z x); [lia|].
  destruct (N.ltb_spec x y), (N.ltb_spec y z), (N.ltb_spec x z);
    try done; try lia.
  apply IH.
Qed.

Lemma notAfter_total (a b : jsstring) :
  lessThan a b = true → lessThan b a = false.
Proof.
  revert b. induction a as [|x a IH]; intros [|y b]; simpl; try done.
  destruct (N.ltb_spec x y), (N.ltb_spec y x); try done; try lia.
  apply IH.
Qed.

#[local] Instance notAfter_antisymm : AntiSymm eq notAfter.
Proof. intros a b Hab Hba. by apply notAfter_antisym. Qed.

Lemma insertAscending_perm (x : jsstring) (l : list jsstring) :
  insertAscending x l ≡ₚ x :: l.
Proof.
  induction l as [|y l IH]; simpl; [done|].
  destruct (lessThan y x); [|done].
  rewrite IH. apply Permutation_swap.
Qed.

Lemma sortAscending_perm (l : list jsstring) : sortAscending l ≡ₚ l.
Proof.
  induction l as [|x l IH]; simpl; [done|].
  rewrite insertAscending_perm. by rewrite IH.
Qed.

Lemma insertAscending_sorted (x : jsstring) (l : list jsstring) :
  StronglySorted notAfter l → StronglySorted notAfter (insertAscending x l).
Proof.
  induction 1 as [|y l Hsorted IH Hall]; simpl.
  - repeat constructor.
  - destruct (lessThan y x) eqn:Hlt.
    + constructor; [done|].
      rewrite insertAscending_perm. constructor; [|done].
      by apply notAfter_total.
    + constructor; [by constructor|].
      constructor; [done|].
      eapply Forall_impl; [exact Hall|]. simpl. intros z Hz.
      by apply (notAfter_trans x y z).
Qed.

Lemma sortAscending_sorted (l : list jsstring) :
  StronglySorted notAfter (sortAscending l).
Proof.
  induction l as [|x l IH]; simpl; [constructor|].
  by apply insertAscending_sorted.
Qed.

Lemma sortAscending_canonical (l1 l2 : list jsstring) :
  sortAscending l1 = sortAscending l2 ↔ l1 ≡ₚ l2.
Proof.
  split.
  - intros Heq. by rewrite <- (sortAscending_perm l1), Heq, sortAscending_perm.
  - intros Hperm. apply (StronglySorted_unique notAfter);
      [apply sortAscending_sorted..|].
    by rewrite !sortAscending_perm.
Qed.

(** ** The text of an array of ids *)

Lemma isLowerHex_range (c : N) :
  isLowerHex c = true → (0x30 <= c <= 0x39) ∨ (0x61 <= c <= 0x66).
Proof.
  unfold isLowerHex.
  intros [[H1%N.leb_le H2%N.leb_le]%andb_true_iff
         |[H1%N.leb_le H2%N.leb_le]%andb_true_iff]%orb_true_iff; lia.
Qed.

Lemma quoteUnits_hex (s : jsstring) :
  Forall (fun c => isLowerHex c = true) s → quoteUnits s = s.
Proof.
  induction 1 as [|c s Hc _ IH]; simpl; [done|].
  apply isLowerHex_range in Hc. unfold dquote, backslash.
  repeat match goal with
         | |- context [(c =? ?n)] => destruct (N.eqb_spec c n); [lia|]
         end.
  destruct (N.ltb_spec c 32); [lia|].
  unfold isHighSurrogate, isLowSurrogate.
  destruct (N.leb_spec 0xD800 c); [lia|]. simpl.
  destruct (N.leb_spec 0xDC00 c); [lia|]. simpl. by rewrite IH.
Qed.

Lemma hex_no_quote (s : jsstring) :
  Forall (fun c => isLowerHex c = true) s → dquote ∉ s.
Proof.
  intros Hs Hin. rewrite List.Forall_forall in Hs.
  apply list_elem_of_In, Hs, isLowerHex_range in Hin. unfold dquote in Hin. lia.
Qed.

Lemma quoted_inj (x y r1 r2 : jsstring) :
  dquote ∉ x → dquote ∉ y →
  x ++ dquote :: r1 = y ++ dquote :: r2 → x = y ∧ r1 = r2.
Proof.
  revert y. induction x as [|c x IH]; intros [|d y] Hx Hy; simpl.
  - by intros [= <-].
  - intros [= <- _]. exfalso. apply Hy. left.
  - intros [= -> _]. exfalso. apply Hx. left.
  - intros [= <- Heq].
    apply not_elem_of_cons in Hx as [_ Hx], Hy as [_ Hy].
    destruct (IH y Hx Hy Heq) as [-> ->]. done.
Qed.

Lemma join_cons (sep p : jsstring) (ps : list jsstring) :
  join sep (p :: ps)
  = p ++ match ps with [] => [] | _ :: _ => sep ++ join sep ps end.
Proof. destruct ps; simpl; [by rewrite app_nil_r|done]. Qed.

Lemma quoteJSON_hex (s : jsstring) :
  Forall (fun c => isLowerHex c = true) s →
  quoteJSON s = dquote :: s ++ [dquote].
Proof. intros Hs. unfold quoteJSON. by rewrite quoteUnits_hex. Qed.

Lemma brackets : u16 "[" = [0x5B] ∧ u16 "]" = [0x5D] ∧ u16 "," = [0x2C].
Proof. by vm_compute. Qed.

Lemma joined_inj (l1 : list jsstring) :
  ∀ l2,
    Forall (fun s => Forall (fun c => isLowerHex c = true) s) l1 →
    Forall (fun s => Forall (fun c => isLowerHex c = true) s) l2 →
    join [0x2C] (map quoteJSON l1) ++ [0x5D]
    = join [0x2C] (map quoteJSON l2) ++ [0x5D] →
    l1 = l2.
Proof.
  induction l1 as [|x l1 IH]; intros [|y l2] H1 H2.
  - done.
  - cbn [map]. rewrite join_cons. unfold quoteJSON at 1. discriminate.
  - cbn [map]. rewrite join_cons. unfold quoteJSON at 1. discriminate.
  - apply Forall_cons in H1 as [Hx H1], H2 as [Hy H2].
    cbn [map]. rewrite !join_cons.
    rewrite (quoteJSON_hex x Hx), (quoteJSON_hex y Hy).
    rewrite <- !app_assoc. cbn [app]. rewrite <- !app_assoc. cbn [app].
    intros [= Heq].
    apply quoted_inj in Heq as [-> Heq]; [|by apply hex_no_quote..].
    f_equal.
    destruct l1 as [|x1 l1], l2 as [|y1 l2]; [done| | |].
    + exfalso. revert Heq. cbn [map]. discriminate.
    + exfalso. revert Heq. cbn [map]. discriminate.
    + apply IH; [done..|]. cbn [app] in Heq. by injection Heq.
Qed.

Lemma stringify_inj (l1 l2 : list jsstring) :
  Forall (fun s => Forall (fun c => isLowerHex c = true) s) l1 →
  Forall (fun s => Forall (fun c => isLowerHex c = true) s) l2 →
  stringify l1 = stringify l2 → l1 = l2.
Proof.
  intros H1 H2. unfold stringify.
  destruct brackets as (-> & -> & ->).
  cbn [app]. intros [= Heq]. by apply joined_inj.
Qed.

Lemma fetched_ids_hex (data : list RawReport) :
  Forall (fun s => Forall (fun c => isLowerHex c = true) s)
         (map id (fetchEarthquakeData data)).
Proof.
  rewrite fetchEarthquakeData_values.
  destruct (pollFails data); [constructor|]. rewrite map_map.
  apply List.Forall_forall. intros s Hs.
  apply List.in_map_iff in Hs as (entry & <- & _).
  rewrite processEarthquake_id. apply digestMessage_hex.
Qed.

(** X25. The change test of [refreshData] compares the Events before and
    after a fetch by their ids alone, as collections: it reports no
    change exactly when the two lists hold the same ids the same number
    of times, whatever their order and whatever else changed in the
    Events. Autoplay is scheduled exactly when the ids differ in this
    sense, the player is not running and the new list is not empty. *)
Theorem refresh_compares_ids (data1 data2 : list RawReport)
  (isAutoplaying : bool) :
  let before := fetchEarthquakeData data1 in
  let after := fetchEarthquakeData data2 in
  (hasChanged before after = false ↔ map id before ≡ₚ map id after)
  ∧ (schedulesAutoplay isAutoplaying before after = true
     ↔ ¬ (map id before ≡ₚ map id after)
       ∧ isAutoplaying = false ∧ after ≠ []).
Proof.
  intros before after.
  assert (hasChanged before after = false ↔ map id before ≡ₚ map id after)
    as Hchanged.
  { unfold hasChanged. cbv zeta. rewrite negb_false_iff, bool_decide_eq_true.
    rewrite <- sortAscending_canonical. split; [|by intros ->].
    apply stringify_inj.
    - rewrite sortAscending_perm. apply fetched_ids_hex.
    - rewrite sortAscending_perm. apply fetched_ids_hex. }
  split; [done|].
  unfold schedulesAutoplay. rewrite !andb_true_iff, negb_true_iff.
  rewrite <- Hchanged, not_false_iff_true.
  assert ((0 <? length after)%nat = true ↔ after ≠ []) as ->.
  { destruct after; simpl; [split; [discriminate|done]|].
    split; [discriminate|done]. }
  tauto.
Qed.

End RefreshSpec.

(* ===================================================================== *)
(** * Properties of the magnitude text *)
(* ===================================================================== *)

Module DisplaySpec.

Import Aggregator Display AggregatorSpec.







End DisplaySpec.

(* ===================================================================== *)
(** * Properties of the queue of early warnings *)
(* ===================================================================== *)

Module EewSpec.

Import Eew.

Lemma queued_again (queue : list EewData) (eewData : EewData) :
  existsb (fun e => bool_decide (eew_id e = eew_id eewData)) queue = true
  ↔ eew_id eewData ∈ map eew_id queue.
Proof.
  rewrite existsb_exists, list_elem_of_fmap. split.
  - intros (e & Hin & He%bool_decide_eq_true).
    exists e. split; [done|by apply list_elem_of_In].
  - intros (e & He & Hin). exists e.
    split; [by apply list_elem_of_In|by apply bool_decide_eq_true].
Qed.

(** What holds of the cycle after every sequence of events. *)
Lemma eewRun_invariant (events : list EewEvent) :
  let st := eewRun events in
  (intervalRunning st = true → (length (eewQueue st) <= 1)%nat)
  ∧ (eewQueue st ≠ [] → eewDisplayIntervalId st = true)
  ∧ alertShown st = head (eewQueue st)
  ∧ NoDup (map eew_id (eewQueue st))
  ∧ Forall (fun e => has_earthquake e = true) (eewQueue st).
Proof.
  unfold eewRun.
  induction events as [|ev events IH] using rev_ind.
  { simpl. repeat split; try done; constructor. }
  rewrite fold_left_app. cbn [fold_left].
  set (st := fold_left eewStep events initialEewState) in *.
  destruct IH as (Hrun & Hvar & Hshown & Hnodup & Hquake).
  destruct ev as [soundOn eewData| |]; cbn [eewStep].
  - unfold handleEew.
    destruct (has_earthquake eewData) eqn:Hhas; cbn [negb fst]; [|done].
    destruct (existsb _ _) eqn:Hdup; cbn [fst]; [done|].
    assert (eew_id eewData ∉ map eew_id (eewQueue st)) as Hnew.
    { intros Hin. apply queued_again in Hin. congruence. }
    assert (NoDup (map eew_id (eewQueue st ++ [eewData]))) as Hnodup'.
    { rewrite map_app. apply NoDup_app. split; [done|].
      split; [|apply NoDup_singleton].
      intros x Hx Hin. by apply list_elem_of_singleton in Hin as ->. }
    assert (Forall (fun e => has_earthquake e = true)
                   (eewQueue st ++ [eewData])) as Hquake'.
    { apply Forall_app. split; [done|]. by constructor. }
    unfold startEewDisplayCycle.
    cbn [eewQueue eewDisplayIntervalId intervalRunning alertShown
         currentEewIndex clearTimeoutPending].
    destruct (eewQueue st) as [|first rest] eqn:Hq.
    + cbn [app length] in *.
      destruct (eewDisplayIntervalId st), (intervalRunning st);
        cbn [negb andb Nat.ltb Nat.leb];
        repeat split; try done; simpl; lia.
    + assert (eewDisplayIntervalId st = true) as Hid by by apply Hvar.
      rewrite Hid. cbn [negb app length] in *.
      assert ((1 <? S (length (rest ++ [eewData])))%nat = true) as ->.
      { apply Nat.ltb_lt. rewrite length_app. simpl. lia. }
      cbn [andb]. repeat split; try done.
  - destruct (intervalRunning st) eqn:Hr; [|repeat split; try done; by rewrite Hr].
    unfold rotate. specialize (Hrun eq_refl).
    replace (1 <? length (eewQueue st))%nat with false
      by (symmetry; apply Nat.ltb_ge; lia).
    rewrite Hr. by repeat split.
  - destruct (clearTimeoutPending st); [|by repeat split].
    simpl. repeat split; try done; constructor.
Qed.

(** X27. The queue of early warnings, after any sequence of warnings
    and timer events. The queue never holds two entries with the same id,
    and the alert always shows the first entry of the queue: once a
    second entry is queued the rotation interval is cleared and, its
    variable still being set, never started again, so an interval that
    fires finds at most one entry and rotates nothing. A warning that
    is already queued changes nothing but starts the sound again; after
    the timeout has emptied the queue the same warning is queued and
    shown again; a warning without an earthquake object is ignored. *)
Theorem eew_queue_shows_first_entry (events : list EewEvent) :
  let st := eewRun events in
  NoDup (map eew_id (eewQueue st))
  ∧ alertShown st = head (eewQueue st)
  ∧ (intervalRunning st = true → (length (eewQueue st) <= 1)%nat)
  ∧ eewStep st IntervalFired = st
  ∧ (∀ soundOn eewData,
       eewData ∈ eewQueue st →
       handleEew soundOn st eewData = (st, soundOn))
  ∧ (∀ soundOn eewData,
       has_earthquake eewData = true →
       let again :=
         eewStep (stopEewDisplayCycle st) (Warned soundOn eewData) in
       eewQueue again = [eewData] ∧ alertShown again = Some eewData)
  ∧ (∀ soundOn eewData,
       has_earthquake eewData = false →
       handleEew soundOn st eewData = (st, false)).
Proof.
  intros st.
  destruct (eewRun_invariant events)
    as (Hrun & Hvar & Hshown & Hnodup & Hquake).
  fold st in Hrun, Hvar, Hshown, Hnodup, Hquake.
  split; [done|]. split; [done|]. split; [done|].
  split; [|split; [|split]].
  - cbn [eewStep]. destruct (intervalRunning st) eqn:Hr; [|done].
    unfold rotate. specialize (Hrun eq_refl).
    by replace (1 <? length (eewQueue st))%nat with false
      by (symmetry; apply Nat.ltb_ge; lia).
  - intros soundOn eewData Hin. unfold handleEew.
    rewrite List.Forall_forall in Hquake.
    rewrite (Hquake eewData) by by apply list_elem_of_In.
    cbn [negb].
    assert (existsb (fun e => bool_decide (eew_id e = eew_id eewData))
                    (eewQueue st) = true) as ->; [|done].
    apply queued_again, list_elem_of_fmap. by exists eewData.
  - intros soundOn eewData Hhas again. subst again.
    cbn [eewStep]. unfold handleEew. rewrite Hhas. by cbn.
  - intros soundOn eewData Hno. unfold handleEew. by rewrite Hno.
Qed.

End EewSpec.

(* ===================================================================== *)
(** * Properties of the dictionary build *)
(* ===================================================================== *)

Module KanaBuildSpec.

Import Kana Aggregator Badges KanaBuild AggregatorSpec AggregatorMore.

Lemma ownProperty_mapGet (d : dictionary) (name : jsstring) :
  ownProperty d name = mapGet name d.
Proof.
  induction d as [|[k v] d IH]; simpl; [done|]. by rewrite IH.
Qed.

(** ** Enumeration order *)

Lemma insertByIndex_perm {V} (x : jsstring * V) (l : store V) :
  insertByIndex x l ≡ₚ x :: l.
Proof.
  induction l as [|y l IH]; simpl; [done|].
  destruct (_ <? _); [|done]. rewrite IH. apply Permutation_swap.
Qed.

Lemma filter_partition_perm {A} (f : A → bool) (l : list A) :
  List.filter f l ++ List.filter (fun x => negb (f x)) l ≡ₚ l.
Proof.
  induction l as [|x l IH]; simpl; [done|].
  destruct (f x); simpl.
  - by rewrite IH.
  - rewrite <- Permutation_middle. by rewrite IH.
Qed.

Lemma ownProperties_perm {V} (o : store V) : ownProperties o ≡ₚ o.
Proof.
  unfold ownProperties.
  rewrite <- (filter_partition_perm (fun kv => isIndex kv.1) o) at 3.
  apply Permutation_app; [|done].
  induction (List.filter _ o) as [|x l IH]; simpl; [done|].
  rewrite insertByIndex_perm. by rewrite IH.
Qed.

Lemma filter_all {A} (f : A → bool) (l : list A) :
  Forall (fun x => f x = true) l → List.filter f l = l.
Proof.
  induction 1 as [|x l Hx _ IH]; simpl; [done|]. by rewrite Hx, IH.
Qed.

Lemma filter_none {A} (f : A → bool) (l : list A) :
  Forall (fun x => f x = false) l → List.filter f l = [].
Proof.
  induction 1 as [|x l Hx _ IH]; simpl; [done|]. by rewrite Hx.
Qed.

Lemma ownProperties_plain {V} (o : store V) :
  Forall (fun kv => isIndex kv.1 = false) o → ownProperties o = o.
Proof.
  intros Hplain. unfold ownProperties.
  rewrite filter_none by done. simpl. apply filter_all.
  eapply Forall_impl; [exact Hplain|]. simpl. by intros kv ->.
Qed.

(** A lookup by key does not depend on the order of a store without
    repeated keys. *)
Lemma mapGet_perm {V} (o1 o2 : store V) (k : jsstring) :
  NoDup (map fst o1) → o1 ≡ₚ o2 → mapGet k o1 = mapGet k o2.
Proof.
  intros Hnd Hperm.
  assert (NoDup (map fst o2)) as Hnd2 by by rewrite <- Hperm.
  destruct (mapGet k o1) as [v|] eqn:H1.
  - apply mapGet_Some_elem in H1. rewrite Hperm in H1.
    symmetry. by apply mapGet_elem_NoDup.
  - apply mapGet_None_keys in H1. symmetry. apply mapGet_None_keys.
    by rewrite <- Hperm.
Qed.

(** ** The loop *)

Lemma addArea_Throw (areas : list (option Area)) :
  fold_left addArea areas Throw = Throw.
Proof. induction areas as [|a areas IH]; simpl; [done|apply IH]. Qed.

(** [newDict] never has an own property [__proto__], so an assignment
    under that name is always lost. *)
Lemma addArea_fold (areas : list (option Area)) :
  ∀ d,
    protoName ∉ map fst d →
    fold_left addArea areas (Ok d)
    = if bool_decide (None ∈ areas) then Throw
      else Ok (fold_left (fun o a => mapSet (area_label a) (area_kana a) o)
                         (named areas) d).
Proof.
  induction areas as [|area areas IH]; intros d Hd.
  - reflexivity.
  - cbn [fold_left]. destruct area as [a|].
    + unfold addArea at 2. cbn [mbind result_bind].
      assert (bool_decide (None ∈ Some a :: areas) = bool_decide (None ∈ areas))
        as ->.
      { apply bool_decide_ext. rewrite elem_of_cons. split; [|auto].
        by intros [|]. }
      unfold named at 1. cbn [omap list_omap]. unfold givesEntry, assignTo.
      destruct (truthy (area_label a) && truthy (area_kana a));
        cbn [andb]; [|by rewrite IH].
      destruct (decide (area_label a = protoName)) as [Hname|Hname].
      * rewrite (bool_decide_true _ Hname), Hname. cbn [andb negb].
        assert (mapGet protoName d = None) as ->
          by by apply mapGet_None_keys.
        cbn [isSet negb]. by rewrite IH.
      * rewrite (bool_decide_false _ Hname). cbn [andb negb fold_left].
        rewrite IH; [done|].
        rewrite keys_mapSet.
        destruct (bool_decide (area_label a ∈ map fst d)); [done|].
        rewrite elem_of_app, list_elem_of_singleton. intros [?|?]; [done|].
        by apply Hname.
    + unfold addArea at 2. cbn [mbind result_bind]. rewrite addArea_Throw.
      by rewrite bool_decide_true by left.
Qed.

Local Abbreviation put :=
  (fun (o : store jsstring) (a : Area) =>
     mapSet (area_label a) (area_kana a) o).

Lemma put_keys (areas : list Area) :
  ∀ d, map fst (fold_left put areas d)
       = fold_left (fun seen k => setAdd k seen) (map area_label areas)
                   (map fst d).
Proof.
  induction areas as [|a areas IH]; intros d; simpl; [done|].
  rewrite IH, keys_mapSet. unfold setAdd. by case_bool_decide.
Qed.

Lemma put_get (areas : list Area) (name : jsstring) :
  ∀ d, mapGet name (fold_left put areas d)
       = match last (List.filter
                       (fun a => bool_decide (area_label a = name)) areas) with
         | Some a => Some (area_kana a)
         | None => mapGet name d
         end.
Proof.
  induction areas as [|a areas IH]; intros d; simpl; [done|].
  rewrite IH, mapGet_mapSet. case_bool_decide as Hname; simpl; [|done].
  rewrite last_cons. by destruct (last _).
Qed.

Lemma put_nonempty (areas : list Area) :
  ∀ d, Forall (fun a => area_label a ≠ [] ∧ area_kana a ≠ []) areas →
       Forall (fun kv : jsstring * jsstring => kv.1 ≠ [] ∧ kv.2 ≠ []) d →
       Forall (fun kv : jsstring * jsstring => kv.1 ≠ [] ∧ kv.2 ≠ [])
              (fold_left put areas d).
Proof.
  induction areas as [|a areas IH]; intros d Hareas Hd; simpl; [done|].
  apply Forall_cons in Hareas as [Ha Hareas].
  apply IH; [done|]. by apply mapSet_Forall.
Qed.

Lemma named_nonempty (areas : list (option Area)) :
  Forall (fun a => area_label a ≠ [] ∧ area_kana a ≠ []) (named areas).
Proof.
  unfold named. induction areas as [|[a|] areas IH]; simpl; try done.
  destruct (givesEntry a) eqn:Ht; [|done].
  constructor; [|done]. unfold givesEntry in Ht.
  apply andb_true_iff in Ht as [Ht _]. apply andb_true_iff in Ht as [H1 H2].
  split; [by destruct (area_label a)|by destruct (area_kana a)].
Qed.

(** X28. The dictionary [buildKanaDictionary] leaves. When the request
    fails, or a value among the areas is [null], the dictionary stays as
    it was. Otherwise the new dictionary has one entry per name that
    occurs among the areas with a non-empty name and reading, the name
    [__proto__] apart, which never gets an entry; no name or reading in
    it is empty; the reading of a name is the one of the last such area
    in the order the areas are visited; and when no name is an array
    index the names are enumerated in the order in which they first
    occur. *)
Theorem built_dictionary (KANA_DICT : dictionary) (data : AreaFile) :
  let built := buildKanaDictionary KANA_DICT (Some data) in
  let areas := named (visited data) in
  buildKanaDictionary KANA_DICT None = KANA_DICT
  ∧ (None ∈ visited data → built = KANA_DICT)
  ∧ (None ∉ visited data →
     NoDup (keys built)
     ∧ Forall (fun kv => kv.1 ≠ [] ∧ kv.2 ≠ []) built
     ∧ (∀ name,
          ownProperty built name
          = area_kana
              <$> last (List.filter
                          (fun a => bool_decide (area_label a = name)) areas))
     ∧ (Forall (fun a => isIndex (area_label a) = false) areas →
        keys built = distinctInOrder (map area_label areas))).
Proof.
  intros built areas. subst built areas.
  unfold buildKanaDictionary, newDictOf. fold (visited data).
  rewrite addArea_fold by apply not_elem_of_nil.
  split; [done|]. split.
  { intros Hnull. by rewrite bool_decide_true. }
  intros Hnull. rewrite bool_decide_false by done.
  set (newDict := fold_left put (named (visited data)) []).
  assert (NoDup (map fst newDict)) as Hnd.
  { unfold newDict. rewrite put_keys. apply setAdd_fold_NoDup, NoDup_nil_2. }
  split; [|split; [|split]].
  - unfold keys. by rewrite ownProperties_perm.
  - rewrite ownProperties_perm.
    apply put_nonempty; [apply named_nonempty|constructor].
  - intros name. rewrite ownProperty_mapGet.
    rewrite (mapGet_perm (ownProperties newDict) newDict).
    + unfold newDict. rewrite put_get. simpl. by destruct (last _).
    + by rewrite ownProperties_perm.
    + apply ownProperties_perm.
  - intros Hplain. rewrite ownProperties_plain.
    + unfold keys, newDict. by rewrite put_keys.
    + apply List.Forall_forall. intros [k v] Hin. simpl.
      assert (k ∈ map fst newDict) as Hk
        by (apply list_elem_of_fmap; exists (k, v);
            split; [done|by apply list_elem_of_In]).
      unfold newDict in Hk. rewrite put_keys in Hk.
      assert (∀ l seen, k ∈ fold_left (fun seen k => setAdd k seen) l seen →
                        k ∈ seen ∨ k ∈ l) as Hfold.
      { clear. induction l as [|x l IH]; intros seen; simpl; [auto|].
        intros Hin. apply IH in Hin as [Hin|Hin]; [|right; by right].
        apply setAdd_elem in Hin as [?|Heq]; [by left|right; subst; left]. }
      apply Hfold in Hk as [Hk|Hk]; [by apply elem_of_nil in Hk|].
      apply list_elem_of_fmap in Hk as (a & -> & Ha).
      rewrite List.Forall_forall in Hplain.
      by apply Hplain, list_elem_of_In.
Qed.

End KanaBuildSpec.

(* ===================================================================== *)
(** * What the lazy patterns match *)
(* ===================================================================== *)

Module RegexSpec.

Import Regex Kana Municipality.

Local Abbreviation suffixes := [shi; ku; machi; mura].
Local Abbreviation suffixRe := (oneOf [shi; ku; machi; mura] accept).

Lemma suffixRe_Some (s m : jsstring) :
  suffixRe s = Some m →
  ∃ c rest, s = c :: rest ∧ m = [c] ∧ c ∈ suffixes.
Proof.
  destruct s as [|c rest]; unfold oneOf; [done|].
  destruct (existsb (N.eqb c) suffixes) eqn:Hc; [|done].
  intros [= <-]. exists c, rest. split; [done|]. split; [done|].
  apply existsb_exists in Hc as (x & Hin & ->%N.eqb_eq).
  by apply list_elem_of_In.
Qed.

Lemma suffixRe_None (s : jsstring) :
  suffixRe s = None →
  match s with
  | c :: _ => c ∉ suffixes
  | [] => True
  end.
Proof.
  destruct s as [|c rest]; unfold oneOf; [done|].
  destruct (existsb (N.eqb c) suffixes) eqn:Hc; [done|].
  intros _ Hin. apply list_elem_of_In in Hin.
  assert (existsb (N.eqb c) suffixes = true) as Hex; [|congruence].
  apply existsb_exists. exists c. split; [done|apply N.eqb_refl].
Qed.

(** The match of [.+?(市|区|町|村)] anchored at the start, and when
    there is none. *)
Lemma cityTownVillageRe_shortest (s : jsstring) :
  match cityTownVillageRe s with
  | Some m =>
      ∃ body c,
        m = body ++ [c] ∧ m `prefix_of` s ∧ body ≠ [] ∧ c ∈ suffixes
        ∧ Forall (fun x => isLineTerminator x = false) body
        ∧ Forall (fun x => x ∉ suffixes) (tail body)
  | None =>
      ∀ body c rest,
        s = body ++ c :: rest → body ≠ [] → c ∈ suffixes →
        Exists (fun x => isLineTerminator x = true) body
  end.
Proof.
  unfold cityTownVillageRe.
  induction s as [|x s IH]; cbn [lazyDotPlus].
  - intros body c rest Hs. by destruct body.
  - destruct (isLineTerminator x) eqn:Hx.
    + intros body c rest Hs Hne _. destruct body as [|y body]; [done|].
      injection Hs as <- _. by left.
    + destruct (suffixRe s) as [m1|] eqn:Hk.
      * apply suffixRe_Some in Hk as (c & rest & -> & -> & Hc).
        exists [x], c. split; [done|]. split; [by exists rest|].
        split; [done|]. split; [done|]. split; [by constructor|constructor].
      * apply suffixRe_None in Hk.
        destruct (lazyDotPlus suffixRe s) as [m|] eqn:Hl; cbn [fmap option_fmap option_map].
        -- destruct IH as (body & c & -> & Hp & Hne & Hc & Hterm & Htail).
           exists (x :: body), c. split; [done|].
           split; [by apply prefix_cons|]. split; [done|]. split; [done|].
           split; [by constructor|]. simpl.
           destruct body as [|y body]; [done|]. simpl in Htail.
           constructor; [|done].
           destruct Hp as [more ->]. exact Hk.
        -- intros body c rest Hs Hne Hc.
           destruct body as [|y body]; [done|]. injection Hs as <- ->.
           destruct body as [|z body].
           ++ simpl in Hk. done.
           ++ right. by apply (IH (z :: body) c rest).
Qed.

(** X29. The pattern for a city, ward, town or village takes the
    shortest candidate: its match is the prefix of the text that ends at
    the first of the four suffix characters behind the first character
    and within the first line; it fails exactly when there is no such
    character. A name that contains a suffix character before its own
    suffix is therefore cut short, as the name of the script's own
    example is when the dictionary does not know it. *)
Theorem cityTownVillage_takes_shortest (s : jsstring) :
  match cityTownVillageRe s with
  | Some m =>
      ∃ body c,
        m = body ++ [c] ∧ m `prefix_of` s ∧ body ≠ []
        ∧ c ∈ [shi; ku; machi; mura]
        ∧ Forall (fun x => isLineTerminator x = false) body
        ∧ Forall (fun x => x ∉ [shi; ku; machi; mura]) (tail body)
  | None =>
      ∀ body c rest,
        s = body ++ c :: rest → body ≠ [] → c ∈ [shi; ku; machi; mura] →
        Exists (fun x => isLineTerminator x = true) body
  end
  ∧ cityTownVillageRe (u16 "廿日市市") = Some (u16 "廿日市")
  ∧ getMunicipality [] (u16 "廿日市市") (u16 "広島県") = u16 "広島県_廿日市"
  ∧ getMunicipality [(u16 "廿日市市", u16 "ハツカイチシ")]
                    (u16 "廿日市市") (u16 "広島県")
    = u16 "広島県_廿日市市".
Proof.
  split; [apply cityTownVillageRe_shortest|]. by vm_compute.
Qed.

End RegexSpec.

(* ===================================================================== *)
(** * Ids of the Events of one poll *)
(* ===================================================================== *)

Module EventIds.

Import Aggregator Digest AggregatorSpec.

(** What an entry of the merge holds when no time contains the
    separator. *)
Local Abbreviation wellKeyed :=
  (fun (kq : jsstring * Quake) =>
     keyed kq.2 = true ∧ (underscore ∉ time (earthquake kq.2))
     ∧ eventKeyOf kq.2 = kq.1).

Lemma updated_key (existingEq eq : Quake) :
  underscore ∉ time (earthquake existingEq) →
  underscore ∉ time (earthquake eq) →
  eventKeyOf existingEq = eventKeyOf eq →
  eventKeyOf (updated existingEq eq) = eventKeyOf eq.
Proof.
  intros Hx He Hkey.
  pose proof Hkey as [Htime Hname]%underscored_inj; [|done..].
  unfold eventKeyOf, epicenterNameOf in *. rewrite updated_time.
  destruct (updated_hypocenter existingEq eq) as [-> | ->].
  - exact Hkey.
  - by rewrite Htime.
Qed.

Lemma stepValues_wellKeyed (vals : list (jsstring * Quake)) (eq : Quake) :
  underscore ∉ time (earthquake eq) →
  Forall wellKeyed vals → Forall wellKeyed (stepValues vals eq).
Proof.
  intros He Hvals. unfold stepValues.
  destruct (keyed eq) eqn:Hk; [|done].
  apply mapSet_Forall; [done|]. cbn [fst snd].
  destruct (mapGet (eventKeyOf eq) vals) as [existingEq|] eqn:Hget; [|done].
  apply mapGet_Some_elem in Hget.
  rewrite Forall_forall in Hvals.
  destruct (Hvals _ Hget) as (Hkx & Hux & Hkeyx). cbn [fst snd] in *.
  unfold mergedValue. destruct (negb _ && _); [done|].
  split; [by apply keyed_updated|].
  split; [by rewrite updated_time|].
  by apply updated_key.
Qed.

Lemma mergeValues_wellKeyed (filtered : list Quake) :
  Forall (fun eq => underscore ∉ time (earthquake eq)) filtered →
  ∀ vals, Forall wellKeyed vals →
          Forall wellKeyed (fold_left stepValues filtered vals).
Proof.
  induction 1 as [|eq filtered He Hall IH]; intros vals Hvals; simpl; [done|].
  apply IH. by apply stepValues_wellKeyed.
Qed.

(** Without the condition on the times two Events of one poll can carry
    the same id: the second report, whose key string coincides with the
    first one's, passes its hypocentre to the first, and the text hashed
    for the entry is then the key string of the third. *)
Lemma event_ids_coincide_with_underscores :
  let first := Scenario.quake "1" "2024/01/01 16:10:00_能登" "半島沖"
                              MagNull 70 "Warning" None in
  let second := Scenario.quake "2" "2024/01/01 16:10:00" "能登_半島沖"
                               (MagNumber 76) 70 "Warning" None in
  let third := Scenario.quake "3" "2024/01/01 16:10:00_能登" "能登_半島沖"
                              (MagNumber 76) 70 "Warning" None in
  map id (fetchEarthquakeData [Intensity first; Intensity second;
                               Intensity third])
  = [digestMessage (u16 "2024/01/01 16:10:00_能登_能登_半島沖");
     digestMessage (u16 "2024/01/01 16:10:00_能登_能登_半島沖")].
Proof. vm_compute. reflexivity. Qed.

(** X30. When no event time of the listed reports contains an
    underscore, the text hashed for an Event is the key of its entry in
    the merge, so the hashed texts of the Events of one poll are pairwise
    different. Two Events at different positions of one poll have the
    same id only if their two different texts have the same SHA-256
    digest; when the two texts hold no surrogate code unit their UTF-8
    encodings differ as well, so that the two byte strings are a
    collision of SHA-256. *)
Theorem event_ids_distinct (data : list RawReport) :
  Forall (fun eq => underscore ∉ time (earthquake eq))
         (filteredEarthquakes data) →
  ∃ entries,
    uniqueEntries data = Ok entries
    ∧ fetchEarthquakeData data
      = match tsunamiDetailsMap data with
        | Ok m => map (fun entry => processEarthquake m entry.2) entries
        | Throw => []
        end
    ∧ map (fun entry => idSource entry.2) entries = map fst entries
    ∧ NoDup (map (fun entry => idSource entry.2) entries)
    ∧ ∀ i j ev1 ev2,
        fetchEarthquakeData data !! i = Some ev1 →
        fetchEarthquakeData data !! j = Some ev2 →
        i ≠ j → id ev1 = id ev2 →
        ∃ e1 e2,
          entries !! i = Some e1 ∧ entries !! j = Some e2
          ∧ id ev1 = digestMessage (idSource e1.2)
          ∧ id ev2 = digestMessage (idSource e2.2)
          ∧ idSource e1.2 ≠ idSource e2.2
          ∧ SHA256.digest (textEncode (idSource e1.2))
            = SHA256.digest (textEncode (idSource e2.2))
          ∧ (Forall (fun c => isPlainUnit c = true) (idSource e1.2) →
             Forall (fun c => isPlainUnit c = true) (idSource e2.2) →
             textEncode (idSource e1.2) ≠ textEncode (idSource e2.2)).
Proof.
  intros Htimes.
  set (entries := mergeValues (filteredEarthquakes data)).
  assert (Forall wellKeyed entries) as Hwell.
  { by apply mergeValues_wellKeyed. }
  assert (NoDup (map fst entries)) as Hnd.
  { apply mergeValues_keys_NoDup. constructor. }
  assert (map (fun entry => idSource entry.2) entries = map fst entries)
    as Hsrc.
  { apply map_ext_Forall. eapply Forall_impl; [exact Hwell|].
    intros [k q] (Hk & _ & Hkey). cbn [fst snd] in *.
    unfold idSource. by rewrite (keyed_epicenter _ Hk). }
  exists entries.
  split; [apply uniqueEntries_values|].
  split; [apply fetchEarthquakeData_cases|].
  split; [exact Hsrc|].
  split; [by rewrite Hsrc|].
  intros i j ev1 ev2. rewrite fetchEarthquakeData_values.
  destruct (pollFails data); [done|].
  fold entries. rewrite !list_lookup_fmap.
  destruct (entries !! i) as [e1|] eqn:Hi; [|done].
  destruct (entries !! j) as [e2|] eqn:Hj; [|done].
  cbn [fmap option_fmap option_map]. intros [= <-] [= <-] Hij.
  rewrite !processEarthquake_id. intros Hid.
  assert (idSource e1.2 ≠ idSource e2.2) as Hne.
  { intros Heq. apply Hij. rewrite <- Hsrc in Hnd.
    eapply NoDup_lookup; [exact Hnd|..].
    - rewrite list_lookup_fmap, Hi. reflexivity.
    - rewrite list_lookup_fmap, Hj. cbn. by rewrite Heq. }
  exists e1, e2. repeat split; try done.
  - by apply DigestSpec.digestMessage_eq.
  - intros H1 H2 Henc. apply Hne. by apply DigestSpec.textEncode_inj.
Qed.

Lemma event_ids_distinct_witness :
  let data := [Intensity Scenario.sanrikuPlain; Intensity Scenario.notoA] in
  ∃ entries,
    uniqueEntries data = Ok entries
    ∧ fetchEarthquakeData data
      = match tsunamiDetailsMap data with
        | Ok m => map (fun entry => processEarthquake m entry.2) entries
        | Throw => []
        end
    ∧ map (fun entry => idSource entry.2) entries = map fst entries
    ∧ NoDup (map (fun entry => idSource entry.2) entries)
    ∧ ∀ i j ev1 ev2,
        fetchEarthquakeData data !! i = Some ev1 →
        fetchEarthquakeData data !! j = Some ev2 →
        i ≠ j → id ev1 = id ev2 →
        ∃ e1 e2,
          entries !! i = Some e1 ∧ entries !! j = Some e2
          ∧ id ev1 = digestMessage (idSource e1.2)
          ∧ id ev2 = digestMessage (idSource e2.2)
          ∧ idSource e1.2 ≠ idSource e2.2
          ∧ SHA256.digest (textEncode (idSource e1.2))
            = SHA256.digest (textEncode (idSource e2.2))
          ∧ (Forall (fun c => isPlainUnit c = true) (idSource e1.2) →
             Forall (fun c => isPlainUnit c = true) (idSource e2.2) →
             textEncode (idSource e1.2) ≠ textEncode (idSource e2.2)).
Proof.
  apply (event_ids_distinct
           [Intensity Scenario.sanrikuPlain; Intensity Scenario.notoA]).
  apply (bool_decide_unpack _). vm_compute. reflexivity.
Defined.

End EventIds.
